(** * Lasso: batch audit orchestration and task fan-out

    A shallow embedding of [src/app.js], [src/lighthouse-audit.js],
    [src/pagespeedinsights-audit.js] and [src/utils/bq.js]. *)

From Stdlib Require Import QArith Qround Qabs Qpower Lqa Ascii.
From Equations Require Import Equations.
From stdpp Require Import gmap strings list fin_maps pretty.

Open Scope string_scope.

(** ** Numbers

    A JavaScript number is an IEEE 754 binary64 value; the finite ones are
    rationals.  [binary64 x] is the value nearest to [x] with a 53-bit
    significand, ties going to the even significand: the result the
    arithmetic operators give for the exact result [x].  The exponent range is
    not modelled (no overflow to Infinity, no subnormal values): the function
    is exact for every [x] whose magnitude lies between 2^-1022 and the
    largest binary64 value, where all the values lie that the sources
    compute from a clock reading. *)

(** The integer part of the binary logarithm of [x > 0]. *)
Definition Qlog2 (x : Q) : Z :=
  let l := (Z.log2 (Qnum x) - Z.log2 (Zpos (Qden x)))%Z in
  if Qle_bool (2 ^ l) x then l else (l - 1)%Z.

(** To the nearest integer, a tie going to the even one. *)
Definition round_half_even (x : Q) : Z :=
  let f := Qfloor x in
  match (x - inject_Z f ?= 1 # 2)%Q with
  | Lt => f
  | Gt => (f + 1)%Z
  | Eq => if Z.even f then f else (f + 1)%Z
  end.

(** [x > 0] to 53 significant bits. *)
Definition round_magnitude (x : Q) : Q :=
  let ulp := (2 ^ (Qlog2 x - 52))%Q in
  (inject_Z (round_half_even (x / ulp)) * ulp)%Q.

Definition binary64 (x : Q) : Q :=
  match (x ?= 0)%Q with
  | Eq => 0%Q
  | Gt => round_magnitude x
  | Lt => (- round_magnitude (- x))%Q
  end.

(** Half the gap between 1 and the next binary64 value: 2^-53. *)
Definition unit_roundoff : Q := 1 # 9007199254740992.

(** [x + y] and [x / y] on numbers. *)
Definition js_add (x y : Q) : Q := binary64 (x + y).
Definition js_div (x y : Q) : Q := binary64 (x / y).

(** The position [n] of the decimal point of [v > 0]: 10^(n-1) <= v < 10^n. *)
Fixpoint decimal_point (fuel : nat) (v : Q) (n : Z) : Z :=
  match fuel with
  | O => n
  | S fuel =>
      if Qle_bool (10 ^ n) v then decimal_point fuel v (n + 1)
      else if Qle_bool (10 ^ (n - 1)) v then n
      else decimal_point fuel v (n - 1)
  end.

(** The shortest decimal significand [s] with exponent [n] that denotes the
    binary64 value [v > 0]: [s * 10^(n - k)] rounds to [v] for the least
    number [k] of digits. *)
Fixpoint shortest_digits (fuel : nat) (v : Q) (n k : Z) : Z * Z * Z :=
  let s := round_half_even (v / 10 ^ (n - k)) in
  let '(s, n') := if (10 ^ k <=? s)%Z then ((10 ^ (k - 1))%Z, (n + 1)%Z) else (s, n) in
  match fuel with
  | O => (s, n', k)
  | S fuel =>
      if Qeq_bool (binary64 (inject_Z s * 10 ^ (n' - k))) v then (s, n', k)
      else shortest_digits fuel v n (k + 1)
  end.

Definition zeros (n : Z) : string := String.concat "" (replicate (Z.to_nat n) "0").

(** Number::toString for a finite value, radix 10. *)
Definition Number_toString (x : Q) : string :=
  let v := binary64 (Qabs.Qabs x) in
  if Qeq_bool v 0 then "0" else
  let '(s, n, k) := shortest_digits 16 v (decimal_point 700 v 0) 1 in
  let digits := pretty (Z.to_N s) in
  let sign := if Qle_bool 0 x then "" else "-" in
  let exponent :=
    (if (0 <? n - 1)%Z then "e+" else "e-") ++ pretty (Z.to_N (Z.abs (n - 1))) in
  sign ++
  (if ((k <=? n) && (n <=? 21))%Z then digits ++ zeros (n - k)
   else if ((0 <? n) && (n <=? 21))%Z then
     String.substring 0 (Z.to_nat n) digits ++ "."
     ++ String.substring (Z.to_nat n) (Z.to_nat (k - n)) digits
   else if ((-6 <? n) && (n <=? 0))%Z then "0." ++ zeros (- n) ++ digits
   else if (k =? 1)%Z then digits ++ exponent
   else String.substring 0 1 digits ++ "."
        ++ String.substring 1 (Z.to_nat (k - 1)) digits ++ exponent).

(** ** JavaScript values

    The fragment of values the sources inspect: primitives and plain objects,
    given by their own properties.  An object is an ordinary one, whose
    prototype is [Object.prototype]: what it inherits is written out where
    the sources use a key that is not a constant ([reduce_fields]); what a
    primitive inherits from its wrapper, such as the length of a string, is
    left out.  A number is the rational it denotes; the arithmetic of the
    sources rounds its results to binary64 ([js_add], [js_div]).  Arrays
    whose elements the code walks ([urls], the result lists, the rows) are
    Rocq lists. *)

#[warnings="-register-all"]
Inductive JsVal : Type :=
| JUndefined
| JNull
| JBool (b : bool)
| JNum (x : Q)
| JStr (s : string)
| JObj (props : gmap string JsVal).

(** A thrown [Error]; the sources only ever read its [message]. *)
Record Error := mkError { message : string }.

Inductive completion (A : Type) : Type :=
| Normal (a : A)
| Throw (e : Error).
Arguments Normal {A} a.
Arguments Throw {A} e.

Definition typeof (v : JsVal) : string :=
  match v with
  | JUndefined => "undefined"
  | JNull => "object"
  | JBool _ => "boolean"
  | JNum _ => "number"
  | JStr _ => "string"
  | JObj _ => "object"
  end.

(** ToBoolean. *)
Definition truthy (v : JsVal) : bool :=
  match v with
  | JUndefined | JNull => false
  | JBool b => b
  | JNum x => negb (Qeq_bool x 0)
  | JStr s => negb (String.eqb s "")
  | JObj _ => true
  end.

Definition show_nullish (v : JsVal) : string :=
  match v with JNull => "null" | _ => "undefined" end.

(** The message of the TypeError V8 raises on [v.k] / [v[k]] for a nullish [v]. *)
Definition TypeError_read (k : string) (v : JsVal) : Error :=
  mkError ("Cannot read property '" ++ k ++ "' of " ++ show_nullish v).

(** ToString of a value, as a message of V8 shows it. *)
Definition show_value (v : JsVal) : string :=
  match v with
  | JUndefined => "undefined"
  | JNull => "null"
  | JBool b => if b then "true" else "false"
  | JNum x => Number_toString x
  | JStr s => s
  | JObj _ => "[object Object]"
  end.

(** The message of the TypeError raised (strict mode) on [v[k] = w] when [v]
    is not an object. *)
Definition TypeError_write (k : string) (v : JsVal) : Error :=
  match v with
  | JUndefined | JNull =>
      mkError ("Cannot set property '" ++ k ++ "' of " ++ show_nullish v)
  | _ => mkError ("Cannot create property '" ++ k ++ "' on " ++ typeof v
                  ++ " '" ++ show_value v ++ "'")
  end.

(** [v[k]] for a key [k] that names no member of a built-in prototype, as
    the constant keys of the sources do: the own property of an object,
    [undefined] when absent or when [v] is a primitive, a TypeError when [v]
    is [undefined] or [null]. *)
Definition get_prop (v : JsVal) (k : string) : completion JsVal :=
  match v with
  | JUndefined | JNull => Throw (TypeError_read k v)
  | JObj o => Normal (default JUndefined (o !! k))
  | _ => Normal JUndefined
  end.

(** [v[k] = w] under 'use strict', for a key [k] other than [__proto__]. *)
Definition set_prop (v : JsVal) (k : string) (w : JsVal) : completion JsVal :=
  match v with
  | JObj o => Normal (JObj (<[k := w]> o))
  | _ => Throw (TypeError_write k v)
  end.

(** ** Completions and the state monad of effectful code *)

Definition bindC {A B} (c : completion A) (k : A -> completion B) : completion B :=
  match c with
  | Normal a => k a
  | Throw e => Throw e
  end.

Notation "'let*' x ':=' c 'in' k" := (bindC c (fun x => k))
  (at level 10, x name, c at level 100, k at level 200).

Definition is_normal {A} (c : completion A) : bool :=
  match c with Normal _ => true | Throw _ => false end.

(** [M S A]: a computation over a mutable state [S] that completes normally
    with an [A] or throws; the state survives a throw. *)
Definition M (S A : Type) : Type := S -> completion A * S.

Definition ret {S A} (a : A) : M S A := fun s => (Normal a, s).
Definition throw {S A} (e : Error) : M S A := fun s => (Throw e, s).
Definition bind {S A B} (m : M S A) (k : A -> M S B) : M S B :=
  fun s => match m s with
           | (Normal a, s') => k a s'
           | (Throw e, s') => (Throw e, s')
           end.
Definition liftC {S A} (c : completion A) : M S A := fun s => (c, s).
Definition gets {S A} (f : S -> A) : M S A := fun s => (Normal (f s), s).
Definition modify {S} (f : S -> S) : M S unit := fun s => (Normal tt, f s).

(** [try { m } catch (e) { h e }] *)
Definition try_catch {S A} (m : M S A) (h : Error -> M S A) : M S A :=
  fun s => match m s with
           | (Normal a, s') => (Normal a, s')
           | (Throw e, s') => h e s'
           end.

Declare Scope js_scope.
Delimit Scope js_scope with js.
Notation "x <- m ;; k" := (bind m (fun x => k))
  (at level 100, m at next level, right associativity) : js_scope.
Notation "m ;;; k" := (bind m (fun _ => k))
  (at level 100, right associativity) : js_scope.

(** [for (let i = 0; i < l.length; i++) body(l[i])] *)
Fixpoint for_each {S A} (body : A -> M S unit) (l : list A) : M S unit :=
  match l with
  | [] => ret tt
  | x :: l' => bind (body x) (fun _ => for_each body l')
  end.

(** [l.map(f)] for a callback that may throw: the first throw ends the map. *)
Fixpoint mapC {A B} (f : A -> completion B) (l : list A) : completion (list B) :=
  match l with
  | [] => Normal []
  | x :: l' => let* y := f x in let* ys := mapC f l' in Normal (y :: ys)
  end.

(** [s.split(sep)] for a one-character separator. *)
Fixpoint split_on (sep : Ascii.ascii) (s : string) : list string :=
  match s with
  | EmptyString => [""]
  | String c s' =>
      if Ascii.eqb c sep then "" :: split_on sep s'
      else match split_on sep s' with
           | h :: t => String c h :: t
           | [] => [String c ""]
           end
  end.

(** ** The world outside the process *)

Inductive AuditConfig := PerfAuditConfig | DesktopConfig | LrMobileConfig.

Record LHOptions := mkLHOptions {
  blockedUrlPatterns : list string;
  port : string
}.

Record PSIOptions := mkPSIOptions {
  strategy : string;
  key : option string;
  nokey : option string
}.

Inductive EngineCall :=
| LighthouseCall (url : string) (options : LHOptions) (config : AuditConfig)
| PSICall (url : string) (options : PSIOptions).

Definition call_url (c : EngineCall) : string :=
  match c with
  | LighthouseCall u _ _ => u
  | PSICall u _ => u
  end.

Record HttpRequest := mkHttpRequest {
  httpMethod : string;
  url : string;
  headers : list (string * string);
  body : string;
  scheduleTime : Q
}.

Record CreateTaskRequest := mkCreateTaskRequest {
  parent : string;
  task : HttpRequest
}.

Record Browser := mkBrowser { wsEndpoint : string }.
Record Page := mkPage { browser : Browser }.

(** What the process has done to the outside so far, and the wall clock. *)
Record World := mkWorld {
  now : Z;                                   (* Date.now(), epoch milliseconds *)
  engineCalls : list EngineCall;             (* audits handed to a backend *)
  pagesOpened : nat;
  inserted : list (list JsVal);              (* row batches handed to storage *)
  queued : list (Z * CreateTaskRequest);     (* clock reading and task handed to the queue *)
  console : list string
}.

(** [process.env]: a variable that is not set reads [undefined]. *)
Record ProcessEnv := mkProcessEnv {
  BQ_DATASET : option string;
  BQ_TABLE : option string;
  GOOGLE_CLOUD_PROJECT : option string;
  CLOUD_TASKS_QUEUE : option string;
  CLOUD_TASKS_QUEUE_LOCATION : option string;
  SERVICE_URL : option string;
  GOOGLE_INSIGHTS_KEY : option string
}.

(** The collaborators, as functions of the history: anything they answer may
    depend on everything that happened before. *)
Record Externals := mkExternals {
  puppeteer_launch : World -> completion Browser;
  browser_newPage : World -> Browser -> completion Page;
  lighthouse : World -> string -> LHOptions -> AuditConfig -> completion JsVal;
  psi : World -> string -> PSIOptions -> completion JsVal;
  bigquery_insert : World -> option string -> option string -> list JsVal -> completion unit;
  tasks_createTask : World -> CreateTaskRequest -> completion JsVal;
  (* how long the next awaited call takes, in milliseconds *)
  latency : World -> Z;
  toISOString : Z -> string;
  BigQuery_date : string -> JsVal;
  BigQuery_datetime : string -> JsVal;
  BigQuery_time : string -> JsVal;
  JSON_stringify_error : Error -> string;
  JSON_stringify_payload : list string -> list string -> string;
  base64 : string -> string;
  queuePath : option string -> option string -> option string -> string;
  (* Object.entries(perfConfig.auditResultsMapping) *)
  auditResultsMapping : list (string * string);
  process_env : ProcessEnv
}.

Definition elapse (ext : Externals) (w : World) : World :=
  mkWorld (now w + latency ext w) (engineCalls w) (pagesOpened w) (inserted w)
          (queued w) (console w).
Definition log_call (c : EngineCall) (w : World) : World :=
  mkWorld (now w) (engineCalls w ++ [c]) (pagesOpened w) (inserted w)
          (queued w) (console w).
Definition log_page (w : World) : World :=
  mkWorld (now w) (engineCalls w) (S (pagesOpened w)) (inserted w)
          (queued w) (console w).
Definition log_insert (rows : list JsVal) (w : World) : World :=
  mkWorld (now w) (engineCalls w) (pagesOpened w) (inserted w ++ [rows])
          (queued w) (console w).
Definition log_task (r : CreateTaskRequest) (w : World) : World :=
  mkWorld (now w) (engineCalls w) (pagesOpened w) (inserted w)
          (queued w ++ [(now w, r)]) (console w).
Definition console_log (s : string) (w : World) : World :=
  mkWorld (now w) (engineCalls w) (pagesOpened w) (inserted w)
          (queued w) (console w ++ [s]).

(** An awaited call to a collaborator: its answer is read off the history,
    the call is recorded, and time passes. *)
Definition await {A} (ext : Externals) (answer : World -> completion A)
    (record : World -> World) : M World A :=
  fun w => (answer w, elapse ext (record w)).

Open Scope js_scope.

(** [p.then(on_ok).catch(e => { throw new Error(prefix + e.message) })]:
    the catch sees a rejection of [p] as well as a throw of [on_ok]. *)
Definition then_catch {S A B} (p : M S A) (on_ok : A -> completion B)
    (prefix : string) : M S B :=
  try_catch (a <- p ;; liftC (on_ok a))
            (fun e => throw (mkError (prefix ++ message e))).

(** [audits != null]: loose inequality holds for everything but [null] and
    [undefined]. *)
Definition loose_neq_null (v : JsVal) : bool :=
  match v with
  | JUndefined | JNull => false
  | _ => true
  end.

(** The end of both [.then] callbacks: when the audit items are neither
    undefined nor null they are tagged with the URL and returned with the
    performance score; otherwise the callback returns nothing. *)
Definition tag_audits (url : string) (audits performance : JsVal) : completion JsVal :=
  if negb (String.eqb (typeof audits) "undefined") && loose_neq_null audits then
    let* audits' := set_prop audits "url" (JStr url) in
    Normal (JObj {[ "metrics" := audits'; "performance" := performance ]})
  else Normal JUndefined.

(** The names of the properties of [Object.prototype]: what every ordinary
    object answers to without holding it.  All of them are functions, but
    for [__proto__], an accessor that reads as the prototype itself. *)
Definition Object_prototype : list string :=
  ["constructor"; "__defineGetter__"; "__defineSetter__"; "hasOwnProperty";
   "__lookupGetter__"; "__lookupSetter__"; "isPrototypeOf";
   "propertyIsEnumerable"; "toString"; "valueOf"; "__proto__"; "toLocaleString"].

(** Reading [v[k]] finds a member of [Object.prototype]: [v] is an object
    with no property of its own under [k], and [k] names such a member.
    (For a primitive [v], which [run] never stores, the members of its
    wrapper are left out.) *)
Definition inherited (v : JsVal) (k : string) : bool :=
  match v with
  | JObj o => bool_decide (o !! k = None) && bool_decide (k ∈ Object_prototype)
  | _ => false
  end.

(** [audit[rawKey] ? audit[rawKey].prop : 0], for [prop] one of
    [numericValue] and [score].  An inherited member of [Object.prototype]
    is truthy, and neither it nor its prototypes know [prop]: the
    expression is [undefined] then. *)
Definition item_field (audit : JsVal) (rawKey prop : string) : completion JsVal :=
  let* item := get_prop audit rawKey in
  if truthy item then get_prop item prop
  else if inherited audit rawKey then Normal JUndefined
  else Normal (JNum 0).

(** [res[k] = v] on the accumulator of the [reduce], an object literal.  For
    every key but [__proto__] the assignment creates or overwrites a
    property of [res]; for [__proto__] it runs the setter inherited from
    [Object.prototype], which creates no property.  The setter replaces the
    prototype of [res] when [v] is an object or null; a record is given by
    its own properties, so the replaced prototype is not kept, and what is
    said of a later read of the record is said of its own properties. *)
Definition assign (res : gmap string JsVal) (k : string) (v : JsVal) :
    gmap string JsVal :=
  if String.eqb k "__proto__" then res else <[k := v]> res.

(** The [reduce] over [Object.entries(auditFieldMapping)] of both
    [getBQFormatResults]; the entries of an object have pairwise distinct
    keys. *)
Fixpoint reduce_fields (entries : list (string * string)) (audit : JsVal)
    (res : gmap string JsVal) : completion (gmap string JsVal) :=
  match entries with
  | [] => Normal res
  | keyVal :: rest =>
      let* numericValue := item_field audit keyVal.2 "numericValue" in
      let res := assign res keyVal.1 numericValue in
      let* score := item_field audit keyVal.2 "score" in
      let res := assign res (keyVal.1 ++ "_score") score in
      reduce_fields rest audit res
  end.

(** The [auditResults.map((audit) => { if (typeof (audit) != 'undefined')
    { ...; it++; return formattedAudit; } })] of both [getBQFormatResults]:
    [format it audit] is the body of the [if] up to the increment of the
    counter [it], which the callback shares across the elements; for an
    undefined [audit] the callback returns nothing, and [map] stores
    [undefined]. *)
Fixpoint map_defined (format : nat -> JsVal -> completion JsVal) (it : nat)
    (audits : list JsVal) : completion (list JsVal) :=
  match audits with
  | [] => Normal []
  | audit :: rest =>
      if negb (String.eqb (typeof audit) "undefined") then
        let* formattedAudit := format it audit in
        let* out := map_defined format (S it) rest in
        Normal (formattedAudit :: out)
      else
        let* out := map_defined format it rest in
        Normal (JUndefined :: out)
  end.

(** ** [src/lighthouse-audit.js]

    The object literal passed to [puppeteer.launch] lacks a comma after
    [acceptInsecureCerts: true]; the embedding reads it with the comma. *)

Module Lighthouse.

Record LighthouseAudit := mkLighthouseAudit {
  urls : list string;
  blockedRequestPatterns : list string;
  auditConfig : AuditConfig;
  auditResults : list JsVal;
  auditFieldMapping : list (string * string);
  performanceScore : list JsVal
}.

(** [new LighthouseAudit(urls, blockedRequestPatterns = [], auditConfig,
    auditFieldMapping)] *)
Definition constructor (urls : list string) (blocked : option (list string))
    (config : AuditConfig) (mapping : list (string * string)) : LighthouseAudit :=
  mkLighthouseAudit urls (default [] blocked) config [] mapping [].

Definition push_performanceScore (v : JsVal) (a : LighthouseAudit) : LighthouseAudit :=
  mkLighthouseAudit (urls a) (blockedRequestPatterns a) (auditConfig a)
    (auditResults a) (auditFieldMapping a) (performanceScore a ++ [v]).

Definition push_auditResults (v : JsVal) (a : LighthouseAudit) : LighthouseAudit :=
  mkLighthouseAudit (urls a) (blockedRequestPatterns a) (auditConfig a)
    (auditResults a ++ [v]) (auditFieldMapping a) (performanceScore a).

(** A method runs on the instance and the world. *)
Definition St : Type := LighthouseAudit * World.

Definition world {A} (m : M World A) : M St A :=
  fun s => let '(r, w') := m s.2 in (r, (s.1, w')).
Definition this {A} (f : LighthouseAudit -> A) : M St A := gets (fun s => f s.1).
Definition update (f : LighthouseAudit -> LighthouseAudit) : M St unit :=
  modify (fun s => (f s.1, s.2)).

(** [page.browser().wsEndpoint().split(':')[2].split('/')[0]] *)
Definition debugging_port (page : Page) : completion string :=
  match split_on ":" (wsEndpoint (browser page)) !! 2%nat with
  | Some part => Normal (default "" (head (split_on "/" part)))
  | None => Throw (TypeError_read "split" JUndefined)
  end.

Section Methods.
Context (ext : Externals).

(** The callback of [.then] in [performAudit]. *)
Definition on_metrics (url : string) (metrics : JsVal) : completion JsVal :=
  let* lhr := get_prop metrics "lhr" in
  let* audits := get_prop lhr "audits" in
  let* categories := get_prop lhr "categories" in
  let* category := get_prop categories "performance" in
  let* performance := get_prop category "score" in
  tag_audits url audits performance.

Definition performAudit (url : string) (page : Page)
    (blockedUrlPatterns : list string) : M St JsVal :=
  port <- liftC (debugging_port page) ;;
  let options := mkLHOptions blockedUrlPatterns port in
  config <- this auditConfig ;;
  then_catch
    (world (await ext (fun w => lighthouse ext w url options config)
                  (log_call (LighthouseCall url options config))))
    (on_metrics url)
    "LH Audit error: ".

(** The body of the [try] in [run]'s loop. *)
Definition audit_and_push (browser : Browser) (url : string) : M St unit :=
  page <- world (await ext (fun w => browser_newPage ext w browser) log_page) ;;
  blocked <- this blockedRequestPatterns ;;
  results <- performAudit url page blocked ;;
  performance <- liftC (get_prop results "performance") ;;
  update (push_performanceScore performance) ;;;
  metrics <- liftC (get_prop results "metrics") ;;
  update (push_auditResults metrics).

Definition run_iteration (browser : Browser) (url : string) : M St unit :=
  try_catch (audit_and_push browser url)
            (fun e => throw (mkError (message e ++ " on " ++ url))).

Definition run : M St (list JsVal) :=
  browser <- world (await ext (puppeteer_launch ext) id) ;;
  urls <- this urls ;;
  for_each (run_iteration browser) urls ;;;
  this auditResults.

(** The callback of [auditResults.map] in [getBQFormatResults], for an
    [audit] that is not [undefined] and the current value [it] of the
    counter. *)
Definition format_audit (a : LighthouseAudit) (today : Z) (it : nat)
    (audit : JsVal) : completion JsVal :=
  let date := String.substring 0 10 (toISOString ext today) in
  let time := String.substring 11 12 (toISOString ext today) in
  let* formattedAudit := reduce_fields (auditFieldMapping a) audit ∅ in
  let formattedAudit :=
    <["performanceScore" := default JUndefined (performanceScore a !! it)]> formattedAudit in
  let formattedAudit := <["date" := BigQuery_date ext date]> formattedAudit in
  let formattedAudit :=
    <["datetime" := BigQuery_datetime ext (toISOString ext today)]> formattedAudit in
  let formattedAudit := <["time" := BigQuery_time ext time]> formattedAudit in
  let* url := get_prop audit "url" in
  let formattedAudit := <["url" := url]> formattedAudit in
  let formattedAudit :=
    <["blockedRequests" := JStr (String.concat "," (blockedRequestPatterns a))]>
      formattedAudit in
  Normal (JObj formattedAudit).

(** [getBQFormatResults()], at clock reading [today]. *)
Definition getBQFormatResults_at (a : LighthouseAudit) (today : Z) :
    completion (list JsVal) :=
  map_defined (format_audit a today) 0 (auditResults a).

Definition getBQFormatResults : M St (list JsVal) :=
  fun s => (getBQFormatResults_at s.1 (now s.2), s).

Definition getRawResults : M St (list JsVal) := this auditResults.

End Methods.
End Lighthouse.

(** ** [src/pagespeedinsights-audit.js] *)

Module PSI.

Record PageSpeedInsightsAudit := mkPageSpeedInsightsAudit {
  urls : list string;
  mode : option string;
  auditResults : list JsVal;
  auditFieldMapping : list (string * string);
  performanceScore : list JsVal
}.

Definition constructor (urls : list string) (mode : option string)
    (mapping : list (string * string)) : PageSpeedInsightsAudit :=
  mkPageSpeedInsightsAudit urls mode [] mapping [].

Definition push_performanceScore (v : JsVal) (a : PageSpeedInsightsAudit) :=
  mkPageSpeedInsightsAudit (urls a) (mode a) (auditResults a)
    (auditFieldMapping a) (performanceScore a ++ [v]).

Definition push_auditResults (v : JsVal) (a : PageSpeedInsightsAudit) :=
  mkPageSpeedInsightsAudit (urls a) (mode a) (auditResults a ++ [v])
    (auditFieldMapping a) (performanceScore a).

Definition St : Type := PageSpeedInsightsAudit * World.

Definition world {A} (m : M World A) : M St A :=
  fun s => let '(r, w') := m s.2 in (r, (s.1, w')).
Definition this {A} (f : PageSpeedInsightsAudit -> A) : M St A :=
  gets (fun s => f s.1).
Definition update (f : PageSpeedInsightsAudit -> PageSpeedInsightsAudit) : M St unit :=
  modify (fun s => (f s.1, s.2)).

Section Methods.
Context (ext : Externals).

Definition on_metrics (url : string) (metrics : JsVal) : completion JsVal :=
  let* data := get_prop metrics "data" in
  let* lighthouseResult := get_prop data "lighthouseResult" in
  let* audits := get_prop lighthouseResult "audits" in
  let* categories := get_prop lighthouseResult "categories" in
  let* category := get_prop categories "performance" in
  let* performance := get_prop category "score" in
  tag_audits url audits performance.

(** The [options] that [performAudit] builds. *)
Definition psi_options (mode : option string) : PSIOptions :=
  let strategy :=
    match mode with
    | Some m => if String.eqb m "desktop" then m else "mobile"
    | None => "mobile"
    end in
  match GOOGLE_INSIGHTS_KEY (process_env ext) with
  | Some k => if negb (String.eqb k "") then mkPSIOptions strategy (Some k) None
              else mkPSIOptions strategy None (Some "true")
  | None => mkPSIOptions strategy None (Some "true")
  end.

Definition performAudit (url : string) (mode : option string) : M St JsVal :=
  let options := psi_options mode in
  then_catch
    (world (await ext (fun w => psi ext w url options) (log_call (PSICall url options))))
    (on_metrics url)
    "PSI Audit error: ".

Definition audit_and_push (url : string) : M St unit :=
  mode <- this mode ;;
  results <- performAudit url mode ;;
  performance <- liftC (get_prop results "performance") ;;
  update (push_performanceScore performance) ;;;
  metrics <- liftC (get_prop results "metrics") ;;
  update (push_auditResults metrics).

Definition run_iteration (url : string) : M St unit :=
  try_catch (audit_and_push url)
            (fun e => throw (mkError (message e ++ " on " ++ url))).

Definition run : M St (list JsVal) :=
  urls <- this urls ;;
  for_each run_iteration urls ;;;
  this auditResults.

Definition format_audit (a : PageSpeedInsightsAudit) (today : Z) (it : nat)
    (audit : JsVal) : completion JsVal :=
  let date := String.substring 0 10 (toISOString ext today) in
  let time := String.substring 11 12 (toISOString ext today) in
  let* formattedAudit := reduce_fields (auditFieldMapping a) audit ∅ in
  let formattedAudit :=
    <["performanceScore" := default JUndefined (performanceScore a !! it)]> formattedAudit in
  let formattedAudit := <["date" := BigQuery_date ext date]> formattedAudit in
  let formattedAudit :=
    <["datetime" := BigQuery_datetime ext (toISOString ext today)]> formattedAudit in
  let formattedAudit := <["time" := BigQuery_time ext time]> formattedAudit in
  let* url := get_prop audit "url" in
  let formattedAudit := <["url" := url]> formattedAudit in
  Normal (JObj formattedAudit).

Definition getBQFormatResults_at (a : PageSpeedInsightsAudit) (today : Z) :
    completion (list JsVal) :=
  map_defined (format_audit a today) 0 (auditResults a).

Definition getBQFormatResults : M St (list JsVal) :=
  fun s => (getBQFormatResults_at s.1 (now s.2), s).

Definition getRawResults : M St (list JsVal) := this auditResults.

End Methods.
End PSI.

(** ** [src/utils/bq.js] *)

Module BQ.

Definition allowedFields : list string :=
  ["firstContentfulPaint"; "largestContentfulPaint"; "firstMeaningfulPaint";
   "speedIndex"; "estimatedInputLatency"; "totalBlockingTime";
   "maxPotentialFID"; "cumulativeLayoutShift"; "firstCpuIdle"; "interactive";
   "serverResponseTime"; "performanceScore"; "date"; "time"; "formattedAudit";
   "url"; "mode"; "firstContentfulPaint_score"; "largestContentfulPaint_score";
   "firstMeaningfulPaint_score"; "speedIndex_score";
   "cumulativeLayoutShift_score"; "totalBlockingTime_score";
   "interactive_score"; "serverResponseTime_score"].

(** [allowedFields.forEach(field => { preparedRow[field] = row[field]; })] *)
Fixpoint copy_fields (fields : list string) (row : JsVal)
    (preparedRow : gmap string JsVal) : completion (gmap string JsVal) :=
  match fields with
  | [] => Normal preparedRow
  | field :: rest =>
      let* v := get_prop row field in
      copy_fields rest row (<[field := v]> preparedRow)
  end.

Definition prepare_row (row : JsVal) : completion JsVal :=
  let* preparedRow := copy_fields allowedFields row ∅ in
  Normal (JObj preparedRow).

Section Functions.
Context (ext : Externals).

(** The promise of [insert] is neither awaited nor returned: its outcome
    reaches the console only. *)
Definition insert_and_log (datasetName tableName : option string)
    (preparedRows : list JsVal) : M World unit :=
  fun w =>
    let w' := log_insert preparedRows w in
    match bigquery_insert ext w datasetName tableName preparedRows with
    | Normal _ => (Normal tt, console_log "Data saved" w')
    | Throw err =>
        (Normal tt,
         console_log (JSON_stringify_error ext err) (console_log "BigQuery fail" w'))
    end.

Definition writeResultStream (datasetName tableName : option string)
    (rows : list JsVal) : M World unit :=
  preparedRows <- liftC (mapC prepare_row rows) ;;
  insert_and_log datasetName tableName preparedRows.

End Functions.
End BQ.

(** ** [src/utils/api.js] *)

Module Api.

(** Modelled from the spec: [getChunkedList] of [src/utils/api.js], which is
    not among the sources.  The Chunk Scheduler partitions the list into
    contiguous chunks of at most [size] elements, in order.  The spec gives
    the third argument of the call ([isURL]) no role, and none is modelled;
    it says nothing about a chunk size of 0, for which this definition makes
    no chunk. *)
Equations? getChunkedList {A} (l : list A) (size : nat) : list (list A)
  by wf (length l) lt :=
  getChunkedList [] _ := [];
  getChunkedList _ 0 := [];
  getChunkedList (x :: l) (S n) := take (S n) (x :: l) :: getChunkedList (drop (S n) (x :: l)) (S n).
Proof. simpl. rewrite length_drop. lia. Qed.

End Api.

(** ** [src/app.js] *)

Module App.

(** The body of [POST /audit], after the JSON body parser and
    [auditRequestValidation]: [mode] is a string or absent; [storeData] and
    the differently spelled [storeDate] are whatever the caller sent
    ([JUndefined] when absent). *)
Record AuditBody := mkAuditBody {
  urls : list string;
  blockedRequests : option (list string);
  mode : option string;
  storeData : JsVal;
  storeDate : JsVal
}.

Record AsyncBody := mkAsyncBody {
  async_urls : list string;
  async_blockedRequests : option (list string)
}.

Record CreatedTask := mkCreatedTask {
  name : JsVal;
  task_urls : list string
}.

Inductive Json :=
| JsonRecords (results : list JsVal)
| JsonError (code : Z) (error_message : string)
| JsonTasks (tasks : list CreatedTask).

Record Response := mkResponse {
  status : Z;
  json : Json
}.

(** A mode as a JavaScript value. *)
Definition mode_val (mode : option string) : JsVal :=
  match mode with
  | Some s => JStr s
  | None => JUndefined
  end.

(** [mode == s] and [mode === s] for a string literal [s]. *)
Definition mode_is (mode : option string) (s : string) : bool :=
  match mode with
  | Some m => String.eqb m s
  | None => false
  end.

(** The chunk size [scheduleAudits] passes to [getChunkedList]. *)
Definition chunkSize : nat := 1.

(** The [auditConfig] that [performLightouseAudit] selects. *)
Definition audit_config_for (mode : option string) : AuditConfig :=
  if mode_is mode "desktop" then DesktopConfig
  else if mode_is mode "mobile" then LrMobileConfig
  else PerfAuditConfig.

(** [const mode = typeof payload.mode !== 'string' ? payload.mode : 'mobile';] *)
Definition effective_mode (payload : AuditBody) : option string :=
  if negb (String.eqb (typeof (mode_val (mode payload))) "string")
  then mode payload else Some "mobile".

(** [const storeData = typeof payload.storeData !== 'boolean' ?
    payload.storeDate : false;] *)
Definition store_flag (payload : AuditBody) : JsVal :=
  if negb (String.eqb (typeof (storeData payload)) "boolean")
  then storeDate payload else JBool false.

Section Handlers.
Context (ext : Externals).

Definition performLightouseAudit (urls : list string)
    (blockedRequestPatterns : option (list string)) (mode : option string) :
    M World (list JsVal) :=
  let auditConfig := audit_config_for mode in
  let lhAudit :=
    Lighthouse.constructor urls blockedRequestPatterns auditConfig
      (auditResultsMapping ext) in
  fun w =>
    let '(r, s) :=
      (Lighthouse.run ext ;;;
       formatted <- Lighthouse.getBQFormatResults ext ;;
       liftC (mapC (fun result => set_prop result "mode" (mode_val mode)) formatted))
        (lhAudit, w) in
    (r, s.2).

(** The loop of [case 'all']. *)
Fixpoint audit_modes (payload : AuditBody) (modes : list string)
    (results : list JsVal) : M World (list JsVal) :=
  match modes with
  | [] => ret results
  | m :: rest =>
      r <- performLightouseAudit (urls payload) (blockedRequests payload) (Some m) ;;
      audit_modes payload rest (results ++ r)
  end.

Definition performAudit (payload : AuditBody) : M World Response :=
  let mode := effective_mode payload in
  (* by default, do not store data *)
  let storeData := store_flag payload in
  try_catch
    (results <-
       (if mode_is mode "all" then audit_modes payload ["desktop"; "mobile"] []
        else performLightouseAudit (urls payload) (blockedRequests payload) mode) ;;
     (if truthy storeData then
        BQ.writeResultStream ext (BQ_DATASET (process_env ext))
          (BQ_TABLE (process_env ext)) results
      else ret tt) ;;;
     ret (mkResponse 200 (JsonRecords results)))
    (fun e => ret (mkResponse 500 (JsonError 500 (message e)))).

(** [`${SERVICE_URL}/audit`] *)
Definition serviceUrl : string :=
  default "undefined" (SERVICE_URL (process_env ext)) ++ "/audit".

(** The loop of [scheduleAudits]; [inSeconds] and [createTasks] are its
    mutable locals.  [inSeconds] is an integer far below 2^53, where
    [+= 10] is exact; the division and the sum of the schedule time round. *)
Fixpoint schedule_loop (parent : string) (blockedRequests : list string)
    (chunks : list (list string)) (inSeconds : Z)
    (createTasks : list CreatedTask) : M World (list CreatedTask) :=
  match chunks with
  | [] => ret createTasks
  | chunk :: rest =>
      let payload := JSON_stringify_payload ext chunk blockedRequests in
      date_now <- gets now ;;
      let task :=
        mkHttpRequest "POST" serviceUrl [("Content-Type", "application/json")]
          (base64 ext payload)
          (js_add (inject_Z inSeconds) (js_div (inject_Z date_now) 1000)) in
      let inSeconds := (inSeconds + 10)%Z in
      let request := mkCreateTaskRequest parent task in
      response <- await ext (fun w => tasks_createTask ext w request)
                        (log_task request) ;;
      name <- liftC (get_prop response "name") ;;
      schedule_loop parent blockedRequests rest inSeconds
        (createTasks ++ [mkCreatedTask name chunk])
  end.

Definition scheduleAudits (body : AsyncBody) : M World Response :=
  let chunks := Api.getChunkedList (async_urls body) chunkSize in
  let parent :=
    queuePath ext (GOOGLE_CLOUD_PROJECT (process_env ext))
      (CLOUD_TASKS_QUEUE_LOCATION (process_env ext))
      (CLOUD_TASKS_QUEUE (process_env ext)) in
  let blockedRequests := default [] (async_blockedRequests body) in
  createTasks <- schedule_loop parent blockedRequests chunks 10 [] ;;
  ret (mkResponse 200 (JsonTasks createTasks)).

End Handlers.
End App.

(** ** Vocabulary of the properties *)

(** [v[k]] for a [v] that is neither [undefined] nor [null]. *)
Definition own_prop (v : JsVal) (k : string) : JsVal :=
  match v with
  | JObj o => default JUndefined (o !! k)
  | _ => JUndefined
  end.

(** What the spec asks of an output field: the raw item's [prop] when the
    raw item exists, 0 otherwise. *)
Definition field_value (audit : JsVal) (rawKey prop : string) : JsVal :=
  if truthy (own_prop audit rawKey) then own_prop (own_prop audit rawKey) prop
  else JNum 0.

(** What the code stores for a mapping pair: what the spec asks, except that
    a raw key naming a member of [Object.prototype] finds that member when
    the raw result has no property of its own under the key. *)
Definition stored_value (audit : JsVal) (rawKey prop : string) : JsVal :=
  if inherited audit rawKey then JUndefined else field_value audit rawKey prop.

(** The field names the [reduce] assigns for a list of mapping entries. *)
Definition written_fields (entries : list (string * string)) : list string :=
  flat_map (fun keyVal => [keyVal.1; (keyVal.1 ++ "_score")%string]) entries.

Definition lighthouse_stamped : list string :=
  ["performanceScore"; "date"; "datetime"; "time"; "url"; "blockedRequests"].
Definition psi_stamped : list string :=
  ["performanceScore"; "date"; "datetime"; "time"; "url"].

(** The test of [getBQFormatResults]: [typeof (audit) != 'undefined']. *)
Definition defined (audit : JsVal) : bool :=
  negb (String.eqb (typeof audit) "undefined").

(** Position by position: a record where the raw result is defined,
    [undefined] where it is not. *)
Definition formats (raw out : JsVal) : Prop :=
  (raw = JUndefined ∧ out = JUndefined)
  ∨ (raw ≠ JUndefined ∧ ∃ record, out = JObj record).

(** The error a [.catch] of an Audit Runner rethrows. *)
Definition prefixed (prefix : string) (e : Error) : Error :=
  mkError (prefix ++ message e).

(** What an Audit Runner makes of a result envelope [lhr] (the object that
    should hold [audits] and [categories]), case by case. *)
Definition runner_outcomes (prefix url : string) (lhr : gmap string JsVal)
    (result : completion JsVal) : Prop :=
  (lhr !! "categories" = None →
   result = Throw (prefixed prefix (TypeError_read "performance" JUndefined)))
  ∧ (∀ categories,
       lhr !! "categories" = Some (JObj categories) →
       categories !! "performance" = None →
       result = Throw (prefixed prefix (TypeError_read "score" JUndefined)))
  ∧ (∀ categories category,
       lhr !! "categories" = Some (JObj categories) →
       categories !! "performance" = Some (JObj category) →
       (loose_neq_null (default JUndefined (lhr !! "audits")) = false →
        result = Normal JUndefined)
       ∧ (∀ audits,
            lhr !! "audits" = Some (JObj audits) →
            result
            = Normal (JObj {[ "metrics" := JObj (<["url" := JStr url]> audits);
                              "performance" := default JUndefined (category !! "score") ]}))).

(** The fields of an instance that no method assigns. *)
Definition same_setup (a' a : Lighthouse.LighthouseAudit) : Prop :=
  Lighthouse.urls a' = Lighthouse.urls a
  ∧ Lighthouse.blockedRequestPatterns a' = Lighthouse.blockedRequestPatterns a
  ∧ Lighthouse.auditConfig a' = Lighthouse.auditConfig a
  ∧ Lighthouse.auditFieldMapping a' = Lighthouse.auditFieldMapping a.

Definition is_object (v : JsVal) : bool :=
  match v with JObj _ => true | _ => false end.

(** The property whose read fails when the formatter meets a raw result that
    is [null]: the raw key of the first mapping entry, [url] when the
    mapping is empty. *)
Definition first_read (mapping : list (string * string)) : string :=
  match mapping with
  | keyVal :: _ => keyVal.2
  | [] => "url"
  end.

(** A raw result as the Audit Runner returns it for [url]: an object tagged
    with the URL. *)
Definition tagged_with (url : string) (raw : JsVal) : Prop :=
  ∃ o, raw = JObj o ∧ o !! "url" = Some (JStr url).

(** An engine call of the browser-driven variant for [url], with the
    instance's blocked patterns and audit configuration. *)
Definition lighthouse_call_of (a : Lighthouse.LighthouseAudit) (url : string)
    (c : EngineCall) : Prop :=
  ∃ port, c = LighthouseCall url
                (mkLHOptions (Lighthouse.blockedRequestPatterns a) port)
                (Lighthouse.auditConfig a).

Definition psi_same_setup (a' a : PSI.PageSpeedInsightsAudit) : Prop :=
  PSI.urls a' = PSI.urls a
  ∧ PSI.mode a' = PSI.mode a
  ∧ PSI.auditFieldMapping a' = PSI.auditFieldMapping a.

(** Whether the character [c] occurs in [s]. *)
Fixpoint has_char (c : Ascii.ascii) (s : string) : bool :=
  match s with
  | EmptyString => false
  | String c' s' => Ascii.eqb c' c || has_char c s'
  end.

(** The audit configuration the handler ends up with for a request. *)
Definition handler_config (payload : App.AuditBody) : AuditConfig :=
  match App.mode payload with
  | Some _ => LrMobileConfig
  | None => PerfAuditConfig
  end.

(** A record of the handler's answer for [url]. *)
Definition record_for (payload : App.AuditBody) (url : string) (r : JsVal) : Prop :=
  ∃ record,
    r = JObj record
    ∧ record !! "url" = Some (JStr url)
    ∧ record !! "mode" = Some (App.mode_val (App.effective_mode payload))
    ∧ record !! "blockedRequests"
      = Some (JStr (String.concat "," (default [] (App.blockedRequests payload)))).

(** The creation request built for a chunk, whatever its schedule time. *)
Definition creation_request (ext : Externals) (parent : string)
    (blocked chunk : list string) (request : CreateTaskRequest) : Prop :=
  request
  = mkCreateTaskRequest parent
      (mkHttpRequest "POST" (App.serviceUrl ext) [("Content-Type", "application/json")]
         (base64 ext (JSON_stringify_payload ext chunk blocked))
         (scheduleTime (task request))).

(** The queue path [scheduleAudits] asks the client for. *)
Definition queue_parent (ext : Externals) : string :=
  queuePath ext (GOOGLE_CLOUD_PROJECT (process_env ext))
    (CLOUD_TASKS_QUEUE_LOCATION (process_env ext))
    (CLOUD_TASKS_QUEUE (process_env ext)).

(** The world in which [scheduleAudits], started in [w], makes its creation
    call number [k] (counting from 0): what its loop over the first [k]
    chunks has left. *)
Definition world_of_call (ext : Externals) (body : App.AsyncBody) (w : World)
    (k : nat) : World :=
  (App.schedule_loop ext (queue_parent ext)
     (default [] (App.async_blockedRequests body))
     (take k (Api.getChunkedList (App.async_urls body) App.chunkSize)) 10 [] w).2.

(** The answer to a creation call made in [w] has the name [name]. *)
Definition answers_name (ext : Externals) (w : World) (request : CreateTaskRequest)
    (name : JsVal) : Prop :=
  ∃ response,
    tasks_createTask ext w request = Normal response
    ∧ get_prop response "name" = Normal name.

(** A creation call made in [w] throws [e], or its answer has no readable
    name and reading it throws [e]. *)
Definition call_fails (ext : Externals) (w : World) (request : CreateTaskRequest)
    (e : Error) : Prop :=
  tasks_createTask ext w request = Throw e
  ∨ ∃ response,
      tasks_createTask ext w request = Normal response
      ∧ get_prop response "name" = Throw e.

(** [offset] seconds after the clock reading [clock] (in milliseconds), in
    seconds since the epoch: the exact sum. *)
Definition seconds_after (offset clock : Z) : Q :=
  (inject_Z offset + inject_Z clock / 1000)%Q.


(** The same collaborators, but with a storage client that answers [insert]. *)
Definition with_insert (e : Externals)
    (insert : World -> option string -> option string -> list JsVal -> completion unit) :
    Externals :=
  mkExternals (puppeteer_launch e) (browser_newPage e) (lighthouse e) (psi e)
    insert (tasks_createTask e) (latency e) (toISOString e)
    (BigQuery_date e) (BigQuery_datetime e) (BigQuery_time e)
    (JSON_stringify_error e) (JSON_stringify_payload e) (base64 e)
    (queuePath e) (auditResultsMapping e) (process_env e).

(** ** Concrete collaborators

    A world in which every collaborator answers, used to run the handlers on
    concrete requests. *)

Module Scenario.

Definition a_url : string := "https://a.example".
Definition b_url : string := "https://b.example".
Definition c_url : string := "https://c.example".

Definition fcp_item : JsVal :=
  JObj {[ "numericValue" := JNum 123.4; "score" := JNum 0.9 ]}.

Definition audits_ok : JsVal :=
  JObj {[ "first-contentful-paint" := fcp_item ]}.

Definition categories_ok : JsVal :=
  JObj {[ "performance" := JObj {[ "score" := JNum 0.5 ]} ]}.

(** A well-formed answer of the browser-driven engine. *)
Definition lh_ok : JsVal :=
  JObj {[ "lhr" := JObj {[ "audits" := audits_ok; "categories" := categories_ok ]} ]}.

(** An answer without audit items. *)
Definition lh_no_audits : JsVal :=
  JObj {[ "lhr" := JObj {[ "categories" := categories_ok ]} ]}.

(** An answer whose performance category has no score. *)
Definition lh_no_score : JsVal :=
  JObj {[ "lhr" := JObj {[ "audits" := audits_ok;
                           "categories" := JObj {[ "performance" := JObj ∅ ]} ]} ]}.

(** An answer without categories. *)
Definition lh_no_categories : JsVal :=
  JObj {[ "lhr" := JObj {[ "audits" := audits_ok ]} ]}.

Definition psi_of (lhr : JsVal) : JsVal :=
  JObj {[ "data" := JObj {[ "lighthouseResult" := lhr ]} ]}.

Definition mapping : list (string * string) :=
  [("firstContentfulPaint", "first-contentful-paint");
   ("speedIndex", "speed-index")].

Definition no_env : ProcessEnv :=
  mkProcessEnv None None None None None None None.

Definition w0 : World := mkWorld 1000 [] 0 [] [] [].

Definition the_browser : Browser :=
  mkBrowser "ws://127.0.0.1:9222/devtools/browser/ab".

(** Every collaborator succeeds; a call takes [ms] milliseconds. *)
Definition all_ok (ms : Z) : Externals :=
  mkExternals
    (fun _ => Normal the_browser)
    (fun _ b => Normal (mkPage b))
    (fun _ _ _ _ => Normal lh_ok)
    (fun _ _ _ => Normal (psi_of (JObj {[ "audits" := audits_ok;
                                          "categories" := categories_ok ]})))
    (fun _ _ _ _ => Normal tt)
    (fun w _ => Normal (JObj {[ "name" := JNum (inject_Z (Z.of_nat (length (queued w)))) ]}))
    (fun _ => ms)
    (fun _ => "2021-03-04T05:06:07.089Z")
    (fun s => JObj {[ "value" := JStr s ]})
    (fun s => JObj {[ "value" := JStr s ]})
    (fun s => JObj {[ "value" := JStr s ]})
    (fun e => message e)
    (fun _ _ => "{}")
    (fun s => s)
    (fun _ _ _ => "projects/p/locations/l/queues/q")
    mapping
    no_env.

(** As [all_ok], but the engines answer what [answer] says for each URL. *)
Definition with_engine (answer : string -> completion JsVal) : Externals :=
  let e := all_ok 0 in
  mkExternals (puppeteer_launch e) (browser_newPage e)
    (fun _ url _ _ => answer url)
    (fun _ url _ => answer url)
    (bigquery_insert e) (tasks_createTask e) (latency e) (toISOString e)
    (BigQuery_date e) (BigQuery_datetime e) (BigQuery_time e)
    (JSON_stringify_error e) (JSON_stringify_payload e) (base64 e)
    (queuePath e) (auditResultsMapping e) (process_env e).

(** The engine fails on [b_url] only. *)
Definition fails_on_b (url : string) : completion JsVal :=
  if String.eqb url b_url then Throw (mkError "net::ERR_FAILED") else Normal lh_ok.

End Scenario.

(** * Properties *)

Open Scope list_scope.

Example get_prop_ex :
  get_prop (JObj {[ "score" := JNum 0.9 ]}) "score" = Normal (JNum 0.9).
Proof. reflexivity. Qed.

Example split_on_ex :
  split_on ":"%char "ws://127.0.0.1:9222/devtools/browser/ab"
  = ["ws"; "//127.0.0.1"; "9222/devtools/browser/ab"].
Proof. reflexivity. Qed.

Example debugging_port_ex :
  Lighthouse.debugging_port (mkPage Scenario.the_browser) = Normal "9222".
Proof. reflexivity. Qed.

(** [0.1], [1005 / 1000] and [10 + 1005 / 1000] as binary64 values: the last
    one prints as 11.004999999999999 and is below 11.005. *)
Example binary64_ex :
  Qred (binary64 (1 # 10)) = (3602879701896397 # 36028797018963968)%Q
  ∧ Qred (js_div 1005 1000) = (1131529406376837 # 1125899906842624)%Q
  ∧ Qred (js_add 10 (js_div 1005 1000)) = (3097632118700769 # 281474976710656)%Q
  ∧ (js_add 10 (js_div 1005 1000) < 2201 # 200)%Q
  ∧ Number_toString (js_add 10 (js_div 1005 1000)) = "11.004999999999999"
  ∧ binary64 9007199254740993 = 9007199254740992%Q.
Proof. by vm_compute. Qed.

Example Number_toString_ex :
  map Number_toString [0; 5; -5; 123.4; 0.5; 1 # 3; 1e21; 1e-7; 0.000001]%Q
  = ["0"; "5"; "-5"; "123.4"; "0.5"; "0.3333333333333333"; "1e+21"; "1e-7";
     "0.000001"].
Proof. by vm_compute. Qed.

Example TypeError_write_ex :
  message (TypeError_write "url" (JStr "x")) = "Cannot create property 'url' on string 'x'"
  ∧ message (TypeError_write "url" (JNum 5))
    = "Cannot create property 'url' on number '5'"
  ∧ message (TypeError_write "url" (JBool true))
    = "Cannot create property 'url' on boolean 'true'"
  ∧ message (TypeError_write "url" JNull) = "Cannot set property 'url' of null".
Proof. by vm_compute. Qed.

(** ** Chunking *)

Lemma ceil_div_step (len n : nat) :
  (1 ≤ len)%nat → ((len + S n - 1) / S n = S ((len - S n + S n - 1) / S n))%nat.
Proof.
  intros Hlen.
  destruct (decide (len ≤ S n)%nat) as [Hle|Hgt].
  - replace (len - S n)%nat with 0%nat by lia.
    replace (0 + S n - 1)%nat with n by lia.
    rewrite (Nat.div_small n (S n)) by lia.
    symmetry. apply (Nat.div_unique _ _ 1 (len - 1)); lia.
  - replace (len + S n - 1)%nat with ((len - S n + S n - 1) + 1 * S n)%nat by lia.
    rewrite Nat.div_add by lia. lia.
Qed.

(** C6.  For a list of length N and a chunk size C >= 1, the Chunk Scheduler's
    partition has ceil(N/C) chunks, each of at most C elements, whose
    concatenation in order is the list itself; [scheduleAudits] asks for
    chunks of size 1. *)
Theorem getChunkedList_partitions {A} (l : list A) (C : nat) :
  (0 < C)%nat →
  length (Api.getChunkedList l C) = ((length l + C - 1) / C)%nat
  ∧ Forall (λ chunk, (length chunk ≤ C)%nat) (Api.getChunkedList l C)
  ∧ concat (Api.getChunkedList l C) = l
  ∧ App.chunkSize = 1%nat.
Proof.
  intros HC. split_and!; [ | | | reflexivity ].
  - funelim (Api.getChunkedList l C); simp getChunkedList; try lia.
    + simpl. symmetry. apply Nat.div_small. lia.
    + cbn [length]. rewrite H by lia. rewrite length_drop.
      symmetry. apply (ceil_div_step (S (length l)) n). lia.
  - funelim (Api.getChunkedList l C); simp getChunkedList; try lia.
    + constructor.
    + constructor; [ rewrite length_take; lia | apply H; lia ].
  - funelim (Api.getChunkedList l C); simp getChunkedList; try lia.
    + reflexivity.
    + cbn [concat]. rewrite H by lia. apply take_drop.
Qed.

Lemma getChunkedList_partitions_witness :
  (0 < 2)%nat
  ∧ Api.getChunkedList [Scenario.a_url; Scenario.b_url; Scenario.c_url] 2
    = [[Scenario.a_url; Scenario.b_url]; [Scenario.c_url]]
  ∧ length (Api.getChunkedList [Scenario.a_url; Scenario.b_url; Scenario.c_url] 2)
    = ((3 + 2 - 1) / 2)%nat.
Proof.
  split; [lia|]. split; [reflexivity|].
  apply (getChunkedList_partitions [Scenario.a_url; Scenario.b_url; Scenario.c_url] 2).
  lia.
Defined.

(** ** Binary64 arithmetic *)

Lemma Qpower2_Z (k : Z) : (0 <= k)%Z → (2 ^ k == inject_Z (2 ^ k))%Q.
Proof. intros Hk. by rewrite (Zpower_Qpower 2 k Hk). Qed.

Lemma Qpower2_pos (k : Z) : (0 < 2 ^ k)%Q.
Proof. by apply Qpower_0_lt. Qed.

Lemma Qdiv_lt_cross (a b c d : Q) :
  (0 < b)%Q → (0 < d)%Q → (a * d < c * b)%Q → (a / b < c / d)%Q.
Proof.
  intros Hb Hd H.
  assert (Hp : (a / b * b == a)%Q) by (field; lra).
  assert (Hq : (c / d * d == c)%Q) by (field; lra).
  set (p := (a / b)%Q) in *. set (q := (c / d)%Q) in *.
  rewrite <- Hp, <- Hq in H.
  destruct (Qlt_le_dec p q) as [|Hle]; [done|]. exfalso.
  assert (q * d * b <= p * b * d)%Q; [|lra].
  setoid_replace (q * d * b)%Q with (q * (b * d))%Q using relation Qeq by ring.
  setoid_replace (p * b * d)%Q with (p * (b * d))%Q using relation Qeq by ring.
  apply Qmult_le_compat_r; [done|]. apply Qlt_le_weak. by apply Qmult_lt_0_compat.
Qed.

Lemma Qdiv_le_cross (a b c d : Q) :
  (0 < b)%Q → (0 < d)%Q → (a * d <= c * b)%Q → (a / b <= c / d)%Q.
Proof.
  intros Hb Hd H.
  assert (Hp : (a / b * b == a)%Q) by (field; lra).
  assert (Hq : (c / d * d == c)%Q) by (field; lra).
  set (p := (a / b)%Q) in *. set (q := (c / d)%Q) in *.
  rewrite <- Hp, <- Hq in H.
  destruct (Qlt_le_dec q p) as [Hlt|]; [|done]. exfalso.
  assert (q * d * b < p * b * d)%Q; [|lra].
  setoid_replace (q * d * b)%Q with (q * (b * d))%Q using relation Qeq by ring.
  setoid_replace (p * b * d)%Q with (p * (b * d))%Q using relation Qeq by ring.
  apply Qmult_lt_compat_r; [|done]. by apply Qmult_lt_0_compat.
Qed.

Lemma Qlog2_spec (x : Q) :
  (0 < x)%Q → (2 ^ Qlog2 x <= x)%Q ∧ (x < 2 ^ (Qlog2 x + 1))%Q.
Proof.
  intros Hx. destruct x as [n d]. unfold Qlog2. cbn [Qnum Qden].
  assert (Hn : (0 < n)%Z).
  { unfold Qlt in Hx. cbn in Hx. lia. }
  destruct (Z.log2_spec n Hn) as [Hn1 Hn2].
  destruct (Z.log2_spec (Z.pos d) ltac:(lia)) as [Hd1 Hd2].
  pose proof (Z.log2_nonneg n) as Hln.
  pose proof (Z.log2_nonneg (Z.pos d)) as Hld.
  set (ln := Z.log2 n) in *. set (ld := Z.log2 (Z.pos d)) in *.
  rewrite <- Z.add_1_r in Hn2, Hd2.
  rewrite Zle_Qle in Hn1, Hd1. rewrite Zlt_Qlt in Hn2, Hd2.
  rewrite <- Qpower2_Z in Hn1, Hn2, Hd1, Hd2 by lia.
  assert (Hq : (n # d == inject_Z n / inject_Z (Z.pos d))%Q) by apply Qmake_Qdiv.
  assert (Hdpos : (0 < inject_Z (Z.pos d))%Q) by (rewrite <- (Zlt_Qlt 0); lia).
  assert (Hnpos : (0 < inject_Z n)%Q) by (rewrite <- (Zlt_Qlt 0); lia).
  assert (H2 : ~ (2 == 0)%Q) by discriminate.
  pose proof (Qpower2_pos ln). pose proof (Qpower2_pos ld).
  pose proof (Qpower2_pos (ln + 1)). pose proof (Qpower2_pos (ld + 1)).
  destruct (Qle_bool (2 ^ (ln - ld)) (n # d)) eqn:Hb.
  - apply Qle_bool_iff in Hb. split; [exact Hb|].
    replace (ln - ld + 1)%Z with ((ln + 1) - ld)%Z by lia.
    rewrite Qpower_minus by done. rewrite Hq.
    apply Qdiv_lt_cross; [done | done |].
    apply Qle_lt_trans with (inject_Z n * inject_Z (Z.pos d))%Q.
    + apply Qmult_le_l; done.
    + apply Qmult_lt_compat_r; done.
  - assert (Hlt : (n # d < 2 ^ (ln - ld))%Q).
    { apply Qnot_le_lt. intros Hle. apply Qle_bool_iff in Hle. congruence. }
    split; [|by replace (ln - ld - 1 + 1)%Z with (ln - ld)%Z by lia].
    replace (ln - ld - 1)%Z with (ln - (ld + 1))%Z by lia.
    rewrite Qpower_minus by done. rewrite Hq.
    apply Qdiv_le_cross; [done | done |].
    apply Qle_trans with (inject_Z n * inject_Z (Z.pos d))%Q.
    + apply Qmult_le_compat_r; [done | lra].
    + apply Qmult_le_l; [done | lra].
Qed.

Lemma round_half_even_error (x : Q) :
  (x - (1 # 2) <= inject_Z (round_half_even x))%Q
  ∧ (inject_Z (round_half_even x) <= x + (1 # 2))%Q.
Proof.
  unfold round_half_even. cbv zeta.
  pose proof (Qfloor_le x) as Hle. pose proof (Qlt_floor x) as Hlt.
  rewrite inject_Z_plus in Hlt. change (inject_Z 1) with 1%Q in Hlt.
  destruct (Qcompare_spec (x - inject_Z (Qfloor x)) (1 # 2)) as [He|Hl|Hg].
  - destruct (Z.even (Qfloor x)); rewrite ?inject_Z_plus;
      change (inject_Z 1) with 1%Q; split; lra.
  - split; lra.
  - rewrite inject_Z_plus. change (inject_Z 1) with 1%Q. split; lra.
Qed.

(** A rounding stays within the relative error 2^-53 of the exact value. *)
Lemma round_magnitude_error (x : Q) :
  (0 < x)%Q →
  (x * (1 - unit_roundoff) <= round_magnitude x)%Q
  ∧ (round_magnitude x <= x * (1 + unit_roundoff))%Q.
Proof.
  intros Hx. unfold round_magnitude, unit_roundoff.
  destruct (Qlog2_spec x Hx) as [Hlog _].
  assert (H2 : ~ (2 == 0)%Q) by discriminate.
  pose proof (Qpower2_pos (Qlog2 x - 52)) as Hs.
  assert (Hulp : (2 ^ (Qlog2 x - 52) * 2 ^ 52 == 2 ^ Qlog2 x)%Q).
  { rewrite Qpower_minus by done. field. }
  set (ulp := (2 ^ (Qlog2 x - 52))%Q) in *.
  destruct (round_half_even_error (x / ulp)) as [Hlo Hhi].
  set (m := inject_Z (round_half_even (x / ulp))) in *.
  assert (Hq : (x / ulp * ulp == x)%Q) by (field; lra).
  set (q := (x / ulp)%Q) in *.
  assert (E52 : (2 ^ 52 == 4503599627370496)%Q) by reflexivity.
  rewrite E52 in Hulp. clear E52.
  assert (H1 : ((q - (1 # 2)) * ulp <= m * ulp)%Q)
    by (apply Qmult_le_compat_r; lra).
  assert (H3 : (m * ulp <= (q + (1 # 2)) * ulp)%Q)
    by (apply Qmult_le_compat_r; lra).
  assert (Hr1 : ((q - (1 # 2)) * ulp == q * ulp - ulp * (1 # 2))%Q) by ring.
  assert (Hr3 : ((q + (1 # 2)) * ulp == q * ulp + ulp * (1 # 2))%Q) by ring.
  rewrite Hr1 in H1. rewrite Hr3 in H3. rewrite Hq in H1, H3.
  assert (Hu : (ulp == 2 ^ Qlog2 x * (1 # 4503599627370496))%Q)
    by (rewrite <- Hulp; field).
  remember (m * ulp)%Q as mu eqn:Emu. rewrite Hu in H1, H3.
  remember (2 ^ Qlog2 x)%Q as P eqn:EP.
  clear - Hx Hlog H1 H3. split; lra.
Qed.

Lemma binary64_error (x : Q) :
  (0 <= x)%Q →
  (x * (1 - unit_roundoff) <= binary64 x)%Q
  ∧ (binary64 x <= x * (1 + unit_roundoff))%Q.
Proof.
  intros Hx. unfold binary64.
  destruct (Qcompare_spec x 0) as [He|Hl|Hg].
  - rewrite He. unfold unit_roundoff. split; lra.
  - lra.
  - by apply round_magnitude_error.
Qed.

Lemma binary64_nonneg (x : Q) : (0 <= x)%Q → (0 <= binary64 x)%Q.
Proof.
  intros Hx. destruct (binary64_error x Hx) as [H _].
  unfold unit_roundoff in H. lra.
Qed.

(** The sum the scheduler rounds twice stays within the relative error 2^-51
    of the exact sum. *)
Lemma schedule_time_error (offset clock : Z) :
  (0 ≤ offset)%Z → (0 ≤ clock)%Z →
  (seconds_after offset clock * (1 - (1 # 2251799813685248))
   <= js_add (inject_Z offset) (js_div (inject_Z clock) 1000))%Q
  ∧ (js_add (inject_Z offset) (js_div (inject_Z clock) 1000)
     <= seconds_after offset clock * (1 + (1 # 2251799813685248)))%Q.
Proof.
  intros Ho Hc. unfold js_add, js_div, seconds_after.
  assert (Ha : (0 <= inject_Z offset)%Q) by (by rewrite <- (Zle_Qle 0)).
  assert (Ht : (0 <= inject_Z clock / 1000)%Q).
  { apply Qle_shift_div_l; [reflexivity|]. rewrite Qmult_0_l.
    by rewrite <- (Zle_Qle 0). }
  destruct (binary64_error _ Ht) as [Hy1 Hy2].
  pose proof (binary64_nonneg _ Ht) as Hy0.
  set (T := (inject_Z clock / 1000)%Q) in *.
  set (y := binary64 T) in *.
  assert (Hs : (0 <= inject_Z offset + y)%Q) by lra.
  destruct (binary64_error _ Hs) as [Hz1 Hz2].
  set (z := binary64 (inject_Z offset + y)) in *.
  unfold unit_roundoff in *. clearbody z y T. split; lra.
Qed.

(** Ten seconds more on the offset and a clock that has not run backwards
    give a later schedule time, as long as the sums stay below 2^53. *)
Lemma schedule_time_lt (a b t u : Z) :
  (0 ≤ a)%Z → (a + 10 ≤ b)%Z → (0 ≤ t ≤ u)%Z →
  (seconds_after a t <= 9007199254740992)%Q →
  (js_add (inject_Z a) (js_div (inject_Z t) 1000)
   < js_add (inject_Z b) (js_div (inject_Z u) 1000))%Q.
Proof.
  intros Ha Hab Htu Hrange.
  destruct (schedule_time_error a t) as [_ Hx]; [lia | lia |].
  destruct (schedule_time_error b u) as [Hy _]; [lia | lia |].
  assert (Hxy : (seconds_after a t + 10 <= seconds_after b u)%Q).
  { unfold seconds_after.
    assert (inject_Z a + 10 <= inject_Z b)%Q.
    { change 10%Q with (inject_Z 10). rewrite <- inject_Z_plus, <- Zle_Qle. lia. }
    assert (inject_Z t / 1000 <= inject_Z u / 1000)%Q.
    { apply Qmult_le_compat_r; [rewrite <- Zle_Qle; lia | discriminate]. }
    lra. }
  set (X := seconds_after a t) in *. set (Y := seconds_after b u) in *.
  set (x := js_add _ _) in *. set (y := js_add _ _) in *.
  clearbody x y X Y. lra.
Qed.

(** ** Staggered scheduling *)

Section ScheduleLoop.
Context (ext : Externals) (parent : string) (blocked : list string).

Lemma schedule_loop_cons chunk rest inSeconds acc w :
  App.schedule_loop ext parent blocked (chunk :: rest) inSeconds acc w =
  let request :=
    mkCreateTaskRequest parent
      (mkHttpRequest "POST" (App.serviceUrl ext) [("Content-Type", "application/json")]
         (base64 ext (JSON_stringify_payload ext chunk blocked))
         (js_add (inject_Z inSeconds) (js_div (inject_Z (now w)) 1000))) in
  let w1 := elapse ext (log_task request w) in
  match tasks_createTask ext w request with
  | Normal response =>
      match get_prop response "name" with
      | Normal name =>
          App.schedule_loop ext parent blocked rest (inSeconds + 10)
            (acc ++ [App.mkCreatedTask name chunk]) w1
      | Throw e => (Throw e, w1)
      end
  | Throw e => (Throw e, w1)
  end.
Proof.
  cbn -[get_prop js_add js_div]. unfold bind, gets, await, liftC.
  cbn -[get_prop js_add js_div].
  destruct (tasks_createTask ext w _) as [response|e]; [|reflexivity].
  destruct (get_prop response "name"); reflexivity.
Qed.

Lemma schedule_loop_queue chunks : ∀ inSeconds acc w,
  ∃ new,
    queued (App.schedule_loop ext parent blocked chunks inSeconds acc w).2
      = queued w ++ new
    ∧ (length new ≤ length chunks)%nat
    ∧ (is_normal (App.schedule_loop ext parent blocked chunks inSeconds acc w).1 = true
       → length new = length chunks)
    ∧ (∀ i t req, new !! i = Some (t, req) →
         scheduleTime (task req)
         = js_add (inject_Z (inSeconds + 10 * Z.of_nat i)) (js_div (inject_Z t) 1000))
    ∧ ((∀ v, (0 ≤ latency ext v)%Z) →
       ∀ i j ti tj ri rj, (i ≤ j)%nat →
         new !! i = Some (ti, ri) → new !! j = Some (tj, rj) →
         (now w ≤ ti)%Z ∧ (ti ≤ tj)%Z).
Proof.
  induction chunks as [|chunk rest IH]; intros inSeconds acc w.
  - exists []. cbn. split_and!; [ by rewrite app_nil_r | lia | done | | ].
    + intros i t req H. by rewrite lookup_nil in H.
    + intros _ i j ti tj ri rj _ H. by rewrite lookup_nil in H.
  - rewrite schedule_loop_cons. cbv zeta.
    set (request := mkCreateTaskRequest _ _).
    set (w1 := elapse ext (log_task request w)).
    assert (Hone : ∀ e : Error, ∃ new,
      queued (@Throw (list App.CreatedTask) e, w1).2 = queued w ++ new
      ∧ (length new ≤ length (chunk :: rest))%nat
      ∧ (is_normal (@Throw (list App.CreatedTask) e, w1).1 = true
         → length new = length (chunk :: rest))
      ∧ (∀ i t req, new !! i = Some (t, req) →
           scheduleTime (task req)
           = js_add (inject_Z (inSeconds + 10 * Z.of_nat i)) (js_div (inject_Z t) 1000))
      ∧ ((∀ v, (0 ≤ latency ext v)%Z) →
         ∀ i j ti tj ri rj, (i ≤ j)%nat →
           new !! i = Some (ti, ri) → new !! j = Some (tj, rj) →
           (now w ≤ ti)%Z ∧ (ti ≤ tj)%Z)).
    { intros e. exists [(now w, request)]. cbn -[js_add js_div].
      split_and!; [ done | lia | done | | ].
      - intros [|i] t req H; [|by destruct i].
        cbn in H. injection H as <- <-. cbn -[js_add js_div]. by rewrite Z.add_0_r.
      - intros _ [|i] [|j] ti tj ri rj _ Hi Hj;
          try (by destruct i); try (by destruct j).
        cbn in Hi, Hj. injection Hi as <- <-. injection Hj as <- <-. lia. }
    destruct (tasks_createTask ext w request) as [response|e]; [|apply Hone].
    destruct (get_prop response "name") as [name|e]; [|apply Hone].
    destruct (IH (inSeconds + 10)%Z (acc ++ [App.mkCreatedTask name chunk]) w1)
      as (new & Hq & Hlen & Hnorm & Htime & Hmono).
    exists ((now w, request) :: new). split_and!.
    + rewrite Hq. cbn. by rewrite <- app_assoc.
    + cbn. lia.
    + intros H. cbn. by rewrite Hnorm.
    + intros [|i] t req H; cbn in H.
      * injection H as <- <-. cbn -[js_add js_div]. by rewrite Z.add_0_r.
      * rewrite (Htime i t req H). do 2 f_equal. lia.
    + intros Hlat.
      assert (Hw1 : (now w ≤ now w1)%Z).
      { subst w1. cbn. specialize (Hlat (log_task request w)). cbn in Hlat |- *. lia. }
      intros [|i] [|j] ti tj ri rj Hij Hi Hj; cbn in Hi, Hj.
      * injection Hi as <- <-. injection Hj as <- <-. lia.
      * injection Hi as <- <-.
        destruct (Hmono Hlat j j tj tj rj rj (Nat.le_refl _) Hj Hj). lia.
      * lia.
      * destruct (Hmono Hlat i j ti tj ri rj ltac:(lia) Hi Hj). lia.
Qed.

End ScheduleLoop.

(** C7 (as amended).  The schedule time of chunk [i] is the binary64 sum of
    [10 * (i + 1)] and the clock reading, in seconds, taken when the task of
    chunk [i] is built, which is after the creation calls of chunks
    [0..i-1] have been awaited.  For a clock that starts at or after the epoch
    and does not run backwards, that time is within the relative error 2^-51
    of [10 * (i + 1)] seconds after that reading, hence no earlier (up to
    that error) than [10 * (i + 1)] seconds after the invocation started,
    and the schedule times are strictly increasing as long as they stay
    below 2^53 seconds. *)
Theorem scheduleAudits_staggered (ext : Externals) (body : App.AsyncBody) (w : World) :
  let chunks := Api.getChunkedList (App.async_urls body) App.chunkSize in
  let out := App.scheduleAudits ext body w in
  ∃ new : list (Z * CreateTaskRequest),
    queued out.2 = queued w ++ new
    ∧ (length new ≤ length chunks)%nat
    ∧ (is_normal out.1 = true → length new = length chunks)
    ∧ (∀ i t req, new !! i = Some (t, req) →
         scheduleTime (task req)
         = js_add (inject_Z (10 * (Z.of_nat i + 1))) (js_div (inject_Z t) 1000))
    ∧ ((∀ v, (0 ≤ latency ext v)%Z) → (0 ≤ now w)%Z →
       (∀ i t req, new !! i = Some (t, req) →
          (now w ≤ t)%Z
          ∧ (seconds_after (10 * (Z.of_nat i + 1)) t * (1 - (1 # 2251799813685248))
             <= scheduleTime (task req))%Q
          ∧ (scheduleTime (task req)
             <= seconds_after (10 * (Z.of_nat i + 1)) t * (1 + (1 # 2251799813685248)))%Q
          ∧ (seconds_after (10 * (Z.of_nat i + 1)) (now w)
               * (1 - (1 # 2251799813685248))
             <= scheduleTime (task req))%Q)
       ∧ (∀ i j ti tj ri rj, (i < j)%nat →
            new !! i = Some (ti, ri) → new !! j = Some (tj, rj) →
            (seconds_after (10 * (Z.of_nat i + 1)) ti <= 9007199254740992)%Q →
            (scheduleTime (task ri) < scheduleTime (task rj))%Q)).
Proof.
  intros chunks out.
  set (parent := queuePath ext (GOOGLE_CLOUD_PROJECT (process_env ext))
                   (CLOUD_TASKS_QUEUE_LOCATION (process_env ext))
                   (CLOUD_TASKS_QUEUE (process_env ext))).
  set (blocked := default [] (App.async_blockedRequests body)).
  destruct (schedule_loop_queue ext parent blocked chunks 10 [] w)
    as (new & Hq & Hlen & Hnorm & Htime & Hmono).
  assert (Hout2 : out.2 = (App.schedule_loop ext parent blocked chunks 10 [] w).2).
  { subst out. unfold App.scheduleAudits, bind. fold chunks parent blocked.
    by destruct (App.schedule_loop ext parent blocked chunks 10 [] w) as [[?|?] ?]. }
  assert (Hout1 : is_normal out.1
                  = is_normal (App.schedule_loop ext parent blocked chunks 10 [] w).1).
  { subst out. unfold App.scheduleAudits, bind. fold chunks parent blocked.
    by destruct (App.schedule_loop ext parent blocked chunks 10 [] w) as [[?|?] ?]. }
  assert (Heq : ∀ i t req, new !! i = Some (t, req) →
            scheduleTime (task req)
            = js_add (inject_Z (10 * (Z.of_nat i + 1))) (js_div (inject_Z t) 1000)).
  { intros i t req H. rewrite (Htime i t req H).
    by replace (10 + 10 * Z.of_nat i)%Z with (10 * (Z.of_nat i + 1))%Z by lia. }
  exists new. rewrite Hout2, Hout1. split_and!; try done.
  intros Hlat Hnow. split.
  - intros i t req H.
    destruct (Hmono Hlat i i t t req req (Nat.le_refl _) H H) as [Hw _].
    rewrite (Heq i t req H).
    destruct (schedule_time_error (10 * (Z.of_nat i + 1)) t) as [Hlo Hhi]; [lia | lia |].
    split_and!; [done | done | done |].
    eapply Qle_trans; [|exact Hlo].
    apply Qmult_le_compat_r; [|discriminate].
    unfold seconds_after. apply Qplus_le_r.
    apply Qmult_le_compat_r; [by rewrite <- Zle_Qle | discriminate].
  - intros i j ti tj ri rj Hij Hi Hj Hrange.
    rewrite (Heq i ti ri Hi), (Heq j tj rj Hj).
    destruct (Hmono Hlat i j ti tj ri rj ltac:(lia) Hi Hj) as [Hti Ht].
    apply schedule_time_lt; [lia | lia | lia | done].
Qed.

Lemma scheduleAudits_staggered_witness :
  (∀ v, (0 ≤ latency (Scenario.all_ok 5000) v)%Z)
  ∧ (0 ≤ now Scenario.w0)%Z
  ∧ ∃ new,
      queued (App.scheduleAudits (Scenario.all_ok 5000)
                (App.mkAsyncBody [Scenario.a_url; Scenario.b_url] None)
                Scenario.w0).2 = queued Scenario.w0 ++ new
      ∧ ∀ i j ti tj ri rj, (i < j)%nat →
          new !! i = Some (ti, ri) → new !! j = Some (tj, rj) →
          (scheduleTime (task ri) < scheduleTime (task rj))%Q.
Proof.
  split; [intros v; cbn; lia|]. split; [cbn; lia|].
  destruct (scheduleAudits_staggered (Scenario.all_ok 5000)
              (App.mkAsyncBody [Scenario.a_url; Scenario.b_url] None) Scenario.w0)
    as (new & Hq & _ & _ & _ & Hmono).
  exists new. split; [exact Hq|].
  destruct Hmono as [_ Hlt]; [intros v; cbn; lia | cbn; lia |].
  intros i j ti tj ri rj Hij Hi Hj.
  apply (Hlt i j ti tj ri rj Hij Hi Hj).
  vm_compute in Hq. subst new.
  destruct j as [|[|j]]; [lia | | discriminate Hj].
  destruct i as [|i]; [|lia]. injection Hi as <- _. by vm_compute.
Defined.

(** C7, as stated, fails: with two chunks and a creation call that takes five
    seconds, the second chunk is scheduled 25 seconds after the invocation
    started, not 20 seconds (give or take one). *)
Lemma schedule_time_not_from_invocation_start :
  ¬ (∀ (ext : Externals) (body : App.AsyncBody) (w : World) i t req,
       queued w = [] →
       queued (App.scheduleAudits ext body w).2 !! i = Some (t, req) →
       (seconds_after (10 * (Z.of_nat i + 1)) (now w) - 1 <= scheduleTime (task req))%Q
       ∧ (scheduleTime (task req) <= seconds_after (10 * (Z.of_nat i + 1)) (now w) + 1)%Q).
Proof.
  intros H.
  pose (out := App.scheduleAudits (Scenario.all_ok 5000)
                 (App.mkAsyncBody [Scenario.a_url; Scenario.b_url] None) Scenario.w0).
  destruct (queued out.2 !! 1%nat) as [[t req]|] eqn:E; [|by vm_compute in E].
  destruct (H (Scenario.all_ok 5000)
              (App.mkAsyncBody [Scenario.a_url; Scenario.b_url] None)
              Scenario.w0 1%nat t req eq_refl E) as [_ Hhi].
  vm_compute in E. injection E as <- <-. vm_compute in Hhi. by apply Hhi.
Qed.

(** ** The Result Formatter *)

Lemma get_prop_own (v : JsVal) (k : string) :
  loose_neq_null v = true → get_prop v k = Normal (own_prop v k).
Proof. by destruct v. Qed.

Lemma truthy_not_nullish (v : JsVal) : truthy v = true → loose_neq_null v = true.
Proof. by destruct v. Qed.

Lemma score_suffix_ne (o : string) : o ≠ (o ++ "_score")%string.
Proof. induction o as [|c o IH]; [done|]. cbn. intros [= H]. by apply IH. Qed.

Lemma item_field_value (audit : JsVal) (rawKey prop : string) :
  loose_neq_null audit = true →
  item_field audit rawKey prop = Normal (stored_value audit rawKey prop).
Proof.
  intros Ha. unfold item_field, stored_value, field_value.
  rewrite (get_prop_own _ _ Ha). cbn [bindC].
  destruct (truthy (own_prop audit rawKey)) eqn:Ht.
  - rewrite (get_prop_own _ _ (truthy_not_nullish _ Ht)).
    destruct audit as [| | | | |o]; try reflexivity.
    cbn in Ht |- *. destruct (o !! rawKey) eqn:Ho; [|discriminate Ht].
    by rewrite bool_decide_eq_false_2.
  - by destruct (inherited audit rawKey).
Qed.

Lemma assign_lookup_eq (res : gmap string JsVal) (k : string) (v : JsVal) :
  k ≠ "__proto__" → assign res k v !! k = Some v.
Proof.
  intros Hk. unfold assign. destruct (String.eqb_spec k "__proto__"); [done|].
  apply lookup_insert_eq.
Qed.

Lemma assign_lookup_ne (res : gmap string JsVal) (k k' : string) (v : JsVal) :
  k ≠ k' → assign res k v !! k' = res !! k'.
Proof.
  intros Hk. unfold assign. destruct (String.eqb k "__proto__"); [done|].
  by apply lookup_insert_ne.
Qed.

Lemma assign_lookup_proto (res : gmap string JsVal) (k : string) (v : JsVal) :
  assign res k v !! "__proto__" = res !! "__proto__".
Proof.
  unfold assign. destruct (String.eqb_spec k "__proto__"); [done|].
  by apply lookup_insert_ne.
Qed.

Lemma assign_is_Some (res : gmap string JsVal) (k k' : string) (v : JsVal) :
  is_Some (assign res k v !! k') ↔ (k = k' ∧ k' ≠ "__proto__") ∨ is_Some (res !! k').
Proof.
  unfold assign. destruct (String.eqb_spec k "__proto__") as [->|Hk].
  - intuition congruence.
  - rewrite lookup_insert_is_Some'. intuition congruence.
Qed.

Lemma reduce_fields_cons (keyVal : string * string) rest audit res :
  loose_neq_null audit = true →
  reduce_fields (keyVal :: rest) audit res
  = reduce_fields rest audit
      (assign (assign res keyVal.1 (stored_value audit keyVal.2 "numericValue"))
         (keyVal.1 ++ "_score")%string (stored_value audit keyVal.2 "score")).
Proof.
  intros Ha. cbn [reduce_fields]. by rewrite !(item_field_value _ _ _ Ha).
Qed.

Lemma reduce_fields_total entries : ∀ audit res,
  loose_neq_null audit = true →
  ∃ res', reduce_fields entries audit res = Normal res'
          ∧ ∀ k, k ∉ written_fields entries → res' !! k = res !! k.
Proof.
  induction entries as [|keyVal rest IH]; intros audit res Ha.
  - exists res. done.
  - rewrite reduce_fields_cons by done.
    destruct (IH audit
      (assign (assign res keyVal.1 (stored_value audit keyVal.2 "numericValue"))
         (keyVal.1 ++ "_score")%string (stored_value audit keyVal.2 "score")) Ha)
      as (res' & Hres & Hframe).
    exists res'. split; [done|]. intros k Hk. cbn in Hk.
    apply not_elem_of_cons in Hk as [Hk1 Hk].
    apply not_elem_of_cons in Hk as [Hk2 Hk].
    rewrite (Hframe k Hk). by rewrite !assign_lookup_ne.
Qed.

(** No mapping gives the accumulator a property [__proto__]. *)
Lemma reduce_fields_proto entries : ∀ audit res res',
  reduce_fields entries audit res = Normal res' →
  res' !! "__proto__" = res !! "__proto__".
Proof.
  induction entries as [|keyVal rest IH]; intros audit res res' H.
  - by injection H as <-.
  - cbn [reduce_fields] in H.
    destruct (item_field audit keyVal.2 "numericValue") as [nv|]; [|done].
    destruct (item_field audit keyVal.2 "score") as [sc|]; [|done].
    cbn [bindC] in H. rewrite (IH _ _ _ H). by rewrite !assign_lookup_proto.
Qed.

Lemma score_not_proto (o : string) : (o ++ "_score")%string ≠ "__proto__".
Proof.
  intros H.
  repeat (destruct o as [|? o]; cbn in H;
          [ discriminate H | first [ discriminate H | injection H as _ H ] ]).
Qed.

(** The two fields a mapping pair writes keep their values if no later pair
    writes them again. *)
Lemma reduce_fields_pair pre outputField rawKey post audit res :
  loose_neq_null audit = true →
  outputField ≠ "__proto__" →
  outputField ∉ written_fields post →
  (outputField ++ "_score")%string ∉ written_fields post →
  ∃ res', reduce_fields (pre ++ (outputField, rawKey) :: post) audit res = Normal res'
    ∧ res' !! outputField = Some (stored_value audit rawKey "numericValue")
    ∧ res' !! (outputField ++ "_score")%string = Some (stored_value audit rawKey "score").
Proof.
  intros Ha Hp Ho Hs. revert res.
  induction pre as [|keyVal pre IH]; intros res.
  - cbn [app]. rewrite reduce_fields_cons by done. cbn [fst snd].
    destruct (reduce_fields_total post audit
      (assign (assign res outputField (stored_value audit rawKey "numericValue"))
         (outputField ++ "_score")%string (stored_value audit rawKey "score")) Ha)
      as (res' & Hres & Hframe).
    exists res'. split; [done|]. rewrite !Hframe by done. split.
    + rewrite assign_lookup_ne by (symmetry; apply score_suffix_ne).
      by apply assign_lookup_eq.
    + apply assign_lookup_eq, score_not_proto.
  - cbn [app]. rewrite reduce_fields_cons by done. apply IH.
Qed.

Ltac stamped_ne H :=
  repeat (apply not_elem_of_cons in H as [? H]).

Ltac no_score_suffix H o :=
  repeat (destruct o as [|? o]; cbn in H;
          [ discriminate H | first [ discriminate H | injection H as _ H ] ]).

Lemma score_not_stamped (o : string) :
  ((o ++ "_score")%string ∉ lighthouse_stamped)
  ∧ ((o ++ "_score")%string ∉ psi_stamped).
Proof.
  assert (H : (o ++ "_score")%string ∉ lighthouse_stamped).
  { unfold lighthouse_stamped. intros H.
    repeat (apply elem_of_cons in H as [H|H]; [by no_score_suffix H o|]).
    by apply elem_of_nil in H. }
  split; [done|]. intros Hp. apply H. unfold lighthouse_stamped, psi_stamped in *.
  repeat (apply elem_of_cons in Hp as [->|Hp]; [set_solver|]).
  by apply elem_of_nil in Hp.
Qed.

(** The record the callback of either variant builds for one raw result. *)
Lemma format_audit_fields (ext : Externals) (today : Z) (it : nat)
    (audit : JsVal) (pre post : list (string * string)) (outputField rawKey : string) :
  loose_neq_null audit = true →
  outputField ≠ "__proto__" →
  outputField ∉ written_fields post →
  (outputField ++ "_score")%string ∉ written_fields post →
  (∀ a : Lighthouse.LighthouseAudit,
     Lighthouse.auditFieldMapping a = pre ++ (outputField, rawKey) :: post →
     outputField ∉ lighthouse_stamped →
     ∃ record,
       Lighthouse.format_audit ext a today it audit = Normal (JObj record)
       ∧ record !! outputField = Some (stored_value audit rawKey "numericValue")
       ∧ record !! (outputField ++ "_score")%string
         = Some (stored_value audit rawKey "score")
       ∧ record !! "__proto__" = None)
  ∧ (∀ a : PSI.PageSpeedInsightsAudit,
       PSI.auditFieldMapping a = pre ++ (outputField, rawKey) :: post →
       outputField ∉ psi_stamped →
       ∃ record,
         PSI.format_audit ext a today it audit = Normal (JObj record)
         ∧ record !! outputField = Some (stored_value audit rawKey "numericValue")
         ∧ record !! (outputField ++ "_score")%string
           = Some (stored_value audit rawKey "score")
         ∧ record !! "__proto__" = None).
Proof.
  intros Ha Hp Ho Hs.
  destruct (score_not_stamped outputField) as [Hsl Hsp].
  split; intros a Hmap Hst.
  - destruct (reduce_fields_pair pre outputField rawKey post audit ∅ Ha Hp Ho Hs)
      as (res & Hres & Hnv & Hsc).
    pose proof (reduce_fields_proto _ _ _ _ Hres) as Hproto.
    unfold Lighthouse.format_audit. rewrite Hmap, Hres. cbn -[get_prop].
    rewrite (get_prop_own _ _ Ha). cbn -[get_prop]. eexists. split; [reflexivity|].
    unfold lighthouse_stamped in Hst, Hsl. stamped_ne Hst. stamped_ne Hsl.
    by rewrite !lookup_insert_ne.
  - destruct (reduce_fields_pair pre outputField rawKey post audit ∅ Ha Hp Ho Hs)
      as (res & Hres & Hnv & Hsc).
    pose proof (reduce_fields_proto _ _ _ _ Hres) as Hproto.
    unfold PSI.format_audit. rewrite Hmap, Hres. cbn -[get_prop].
    rewrite (get_prop_own _ _ Ha). cbn -[get_prop]. eexists. split; [reflexivity|].
    unfold psi_stamped in Hst, Hsp. stamped_ne Hst. stamped_ne Hsp.
    by rewrite !lookup_insert_ne.
Qed.

Lemma defined_false (audit : JsVal) : defined audit = false ↔ audit = JUndefined.
Proof. destruct audit; cbn; split; congruence. Qed.

Lemma lighthouse_format_audit_total (ext : Externals) (a : Lighthouse.LighthouseAudit)
    (today : Z) (it : nat) (audit : JsVal) :
  loose_neq_null audit = true →
  ∃ record, Lighthouse.format_audit ext a today it audit = Normal (JObj record).
Proof.
  intros Ha.
  destruct (reduce_fields_total (Lighthouse.auditFieldMapping a) audit ∅ Ha)
    as (res & Hres & _).
  unfold Lighthouse.format_audit. rewrite Hres. cbn -[get_prop].
  rewrite (get_prop_own _ _ Ha). cbn. eauto.
Qed.

Lemma psi_format_audit_total (ext : Externals) (a : PSI.PageSpeedInsightsAudit)
    (today : Z) (it : nat) (audit : JsVal) :
  loose_neq_null audit = true →
  ∃ record, PSI.format_audit ext a today it audit = Normal (JObj record).
Proof.
  intros Ha.
  destruct (reduce_fields_total (PSI.auditFieldMapping a) audit ∅ Ha)
    as (res & Hres & _).
  unfold PSI.format_audit. rewrite Hres. cbn -[get_prop].
  rewrite (get_prop_own _ _ Ha). cbn. eauto.
Qed.

Lemma map_defined_positions (format : nat → JsVal → completion JsVal)
    (audits : list JsVal) :
  (∀ it audit, loose_neq_null audit = true →
     ∃ record, format it audit = Normal (JObj record)) →
  Forall (λ raw, raw ≠ JNull) audits →
  ∀ it, ∃ out, map_defined format it audits = Normal out
               ∧ Forall2 formats audits out.
Proof.
  intros Htotal.
  induction 1 as [|audit rest Hnull _ IH]; intros it.
  - exists []. split; [reflexivity | constructor].
  - cbn [map_defined]. fold (defined audit).
    destruct (defined audit) eqn:Hd.
    + assert (Ha : loose_neq_null audit = true) by (by destruct audit).
      destruct (Htotal it audit Ha) as (record & ->).
      destruct (IH (S it)) as (out & -> & Hout). cbn.
      exists (JObj record :: out). split; [reflexivity|]. constructor; [|done].
      right. split; [|by eexists]. intros ->. discriminate Hd.
    + apply defined_false in Hd as ->.
      destruct (IH it) as (out & -> & Hout). cbn.
      exists (JUndefined :: out). split; [reflexivity|]. constructor; [|done].
      by left.
Qed.

Lemma formats_count (raw out : list JsVal) :
  Forall2 formats raw out →
  length (List.filter defined out) = length (List.filter defined raw).
Proof.
  induction 1 as [|r o raw out [[-> ->]|[Hr [record ->]]] _ IH]; cbn.
  - reflexivity.
  - exact IH.
  - destruct (defined r) eqn:Hd; [cbn; by rewrite IH|].
    by apply defined_false in Hd.
Qed.

(** X22.  Taken on its own, the formatter of the browser-driven variant does
    not skip: it keeps one output entry per raw result, at the same
    position, a record for a raw result that is defined and [undefined] for
    one that is undefined.  The records are as many as the defined raw
    results, but an undefined raw result, were there one, would leave an
    undefined entry in the output. *)
Theorem getBQFormatResults_keeps_positions (ext : Externals)
    (a : Lighthouse.LighthouseAudit) (today : Z) :
  Forall (λ raw, raw ≠ JNull) (Lighthouse.auditResults a) →
  ∃ out,
    Lighthouse.getBQFormatResults_at ext a today = Normal out
    ∧ length out = length (Lighthouse.auditResults a)
    ∧ Forall2 formats (Lighthouse.auditResults a) out
    ∧ length (List.filter defined out)
      = length (List.filter defined (Lighthouse.auditResults a)).
Proof.
  intros Hnull.
  destruct (map_defined_positions (Lighthouse.format_audit ext a today) _
              (lighthouse_format_audit_total ext a today) Hnull 0%nat)
    as (out & Hout & Hpos).
  exists out. split_and!; [done | | done | by apply formats_count].
  symmetry. by eapply Forall2_length.
Qed.

Lemma getBQFormatResults_keeps_positions_witness :
  let a := Lighthouse.mkLighthouseAudit [] [] PerfAuditConfig
             [Scenario.audits_ok; JUndefined] Scenario.mapping [JNum 0.5] in
  ∃ out,
    Lighthouse.getBQFormatResults_at (Scenario.all_ok 0) a 1000 = Normal out
    ∧ length out = 2%nat
    ∧ out !! 1%nat = Some JUndefined
    ∧ length (List.filter defined out) = 1%nat.
Proof.
  intros a.
  destruct (getBQFormatResults_keeps_positions (Scenario.all_ok 0) a 1000)
    as (out & Hout & Hlen & Hpos & Hcount).
  - repeat constructor; discriminate.
  - exists out. split_and!; [exact Hout | exact Hlen | | exact Hcount].
    vm_compute in Hout. injection Hout as <-. reflexivity.
Defined.

Lemma map_defined_lookup (format : nat → JsVal → completion JsVal)
    (audits : list JsVal) : ∀ it out i audit,
  map_defined format it audits = Normal out →
  audits !! i = Some audit →
  defined audit = true →
  ∃ it' v, out !! i = Some v ∧ format it' audit = Normal v.
Proof.
  induction audits as [|x rest IH]; intros it out i audit Hfmt Hi Hd; [by destruct i|].
  cbn [map_defined] in Hfmt. fold (defined x) in Hfmt.
  destruct (defined x) eqn:Hx.
  - destruct (format it x) as [v|] eqn:Hv; [cbn [bindC] in Hfmt|done].
    destruct (map_defined format (S it) rest) as [out'|] eqn:Hrest; [|done].
    cbn in Hfmt. injection Hfmt as <-.
    destruct i as [|i]; cbn in Hi.
    + injection Hi as ->. by exists it, v.
    + destruct (IH _ _ _ _ Hrest Hi Hd) as (it' & v' & ? & ?). by exists it', v'.
  - destruct (map_defined format it rest) as [out'|] eqn:Hrest; [|done].
    cbn in Hfmt. injection Hfmt as <-.
    destruct i as [|i]; cbn in Hi.
    + injection Hi as ->. congruence.
    + destruct (IH _ _ _ _ Hrest Hi Hd) as (it' & v' & ? & ?). by exists it', v'.
Qed.

Lemma lookup_not_null (audits : list JsVal) (i : nat) (audit : JsVal) :
  Forall (λ raw, raw ≠ JNull) audits →
  audits !! i = Some audit →
  defined audit = true →
  loose_neq_null audit = true.
Proof.
  intros Hall Hi Hd.
  assert (audit ≠ JNull) by (eapply Forall_lookup_1 in Hall; eauto).
  by destruct audit.
Qed.

(** C5 (as amended).  For a list of raw results none of which is null, a raw
    result at position [i] that is an object (as all that [run] stores are),
    and a mapping pair (outputField, rawKey) whose output field is not
    [__proto__] and whose two field names are not assigned again afterwards
    (by a pair that follows it in the mapping, or by the stamping of
    performanceScore, date, datetime, time, url and, in the browser-driven
    variant, blockedRequests), the formatter of either variant returns a
    list whose entry [i] is a record.  When the raw key finds no member of
    [Object.prototype], the record holds the raw item's numericValue under
    outputField and its score under outputField_score when the raw item is
    truthy, and 0 under both otherwise.  When the raw result has no property
    of its own under the raw key and the key names a member of
    [Object.prototype], the record holds [undefined] under both.  No record
    has a field [__proto__]. *)
Theorem formatted_record_fields (ext : Externals) (today : Z) (i : nat)
    (audit : JsVal) (pre post : list (string * string)) (outputField rawKey : string) :
  is_object audit = true →
  outputField ≠ "__proto__" →
  outputField ∉ written_fields post →
  (outputField ++ "_score")%string ∉ written_fields post →
  (∀ a : Lighthouse.LighthouseAudit,
     Lighthouse.auditFieldMapping a = pre ++ (outputField, rawKey) :: post →
     outputField ∉ lighthouse_stamped →
     Forall (λ raw, raw ≠ JNull) (Lighthouse.auditResults a) →
     Lighthouse.auditResults a !! i = Some audit →
     ∃ out record,
       Lighthouse.getBQFormatResults_at ext a today = Normal out
       ∧ out !! i = Some (JObj record)
       ∧ (inherited audit rawKey = false →
          record !! outputField = Some (field_value audit rawKey "numericValue")
          ∧ record !! (outputField ++ "_score")%string
            = Some (field_value audit rawKey "score"))
       ∧ (inherited audit rawKey = true →
          record !! outputField = Some JUndefined
          ∧ record !! (outputField ++ "_score")%string = Some JUndefined)
       ∧ record !! "__proto__" = None)
  ∧ (∀ a : PSI.PageSpeedInsightsAudit,
       PSI.auditFieldMapping a = pre ++ (outputField, rawKey) :: post →
       outputField ∉ psi_stamped →
       Forall (λ raw, raw ≠ JNull) (PSI.auditResults a) →
       PSI.auditResults a !! i = Some audit →
       ∃ out record,
         PSI.getBQFormatResults_at ext a today = Normal out
         ∧ out !! i = Some (JObj record)
         ∧ (inherited audit rawKey = false →
            record !! outputField = Some (field_value audit rawKey "numericValue")
            ∧ record !! (outputField ++ "_score")%string
              = Some (field_value audit rawKey "score"))
         ∧ (inherited audit rawKey = true →
            record !! outputField = Some JUndefined
            ∧ record !! (outputField ++ "_score")%string = Some JUndefined)
         ∧ record !! "__proto__" = None).
Proof.
  intros Hobj Hp Ho Hs.
  assert (Hd : defined audit = true) by (by destruct audit).
  assert (Ha : loose_neq_null audit = true) by (by destruct audit).
  split; intros a Hmap Hst Hnull Hi.
  - destruct (map_defined_positions (Lighthouse.format_audit ext a today) _
                (lighthouse_format_audit_total ext a today) Hnull 0%nat)
      as (out & Hout & _).
    destruct (map_defined_lookup _ _ _ _ _ _ Hout Hi Hd) as (it & v & Hv & Hfmt).
    destruct (format_audit_fields ext today it audit pre post outputField rawKey
                Ha Hp Ho Hs) as [HL _].
    destruct (HL a Hmap Hst) as (record & Hrec & Hnv & Hsc & Hproto).
    exists out, record. rewrite Hrec in Hfmt. injection Hfmt as <-.
    unfold stored_value in Hnv, Hsc.
    split_and!; [done | done | | | done]; intros Hin; by rewrite Hin in Hnv, Hsc.
  - destruct (map_defined_positions (PSI.format_audit ext a today) _
                (psi_format_audit_total ext a today) Hnull 0%nat)
      as (out & Hout & _).
    destruct (map_defined_lookup _ _ _ _ _ _ Hout Hi Hd) as (it & v & Hv & Hfmt).
    destruct (format_audit_fields ext today it audit pre post outputField rawKey
                Ha Hp Ho Hs) as [_ HP].
    destruct (HP a Hmap Hst) as (record & Hrec & Hnv & Hsc & Hproto).
    exists out, record. rewrite Hrec in Hfmt. injection Hfmt as <-.
    unfold stored_value in Hnv, Hsc.
    split_and!; [done | done | | | done]; intros Hin; by rewrite Hin in Hnv, Hsc.
Qed.

Lemma formatted_record_fields_witness :
  let audit := JObj {[ "first-contentful-paint" := Scenario.fcp_item;
                       "url" := JStr Scenario.a_url ]} in
  let a := Lighthouse.mkLighthouseAudit [Scenario.a_url] [] PerfAuditConfig [audit]
             Scenario.mapping [JNum 0.5] in
  ∃ out record,
    Lighthouse.getBQFormatResults_at (Scenario.all_ok 0) a 1000 = Normal out
    ∧ out !! 0%nat = Some (JObj record)
    ∧ record !! "firstContentfulPaint" = Some (JNum 123.4)
    ∧ record !! "firstContentfulPaint_score" = Some (JNum 0.9)
    ∧ record !! "speedIndex" = Some (JNum 0)
    ∧ record !! "speedIndex_score" = Some (JNum 0).
Proof.
  intros audit a.
  assert (Hnot : ∀ (x : string) (l : list string),
             forallb (λ y, negb (String.eqb x y)) l = true → x ∉ l).
  { intros x l. induction l as [|y l IH]; cbn; [intros _; apply not_elem_of_nil|].
    intros [Hy Hl]%andb_prop. apply not_elem_of_cons. split; [|by apply IH].
    intros ->. by rewrite String.eqb_refl in Hy. }
  assert (Hnull : Forall (λ raw, raw ≠ JNull) (Lighthouse.auditResults a))
    by (repeat constructor; discriminate).
  destruct (formatted_record_fields (Scenario.all_ok 0) 1000 0 audit
              [] [("speedIndex", "speed-index")]
              "firstContentfulPaint" "first-contentful-paint")
    as [HL _]; [reflexivity | discriminate | by apply Hnot | by apply Hnot |].
  destruct (HL a eq_refl ltac:(by apply Hnot) Hnull eq_refl)
    as (out & record & Hout & Hrec & Hown & _ & _).
  destruct (Hown eq_refl) as [Hnv Hsc].
  destruct (formatted_record_fields (Scenario.all_ok 0) 1000 0 audit
              [("firstContentfulPaint", "first-contentful-paint")] []
              "speedIndex" "speed-index")
    as [HL' _]; [reflexivity | discriminate | by apply Hnot | by apply Hnot |].
  destruct (HL' a eq_refl ltac:(by apply Hnot) Hnull eq_refl)
    as (out' & record' & Hout' & Hrec' & Hown' & _ & _).
  destruct (Hown' eq_refl) as [Hnv' Hsc'].
  rewrite Hout in Hout'. injection Hout' as <-.
  rewrite Hrec in Hrec'. injection Hrec' as <-.
  exists out, record.
  split_and!; [exact Hout | exact Hrec | exact Hnv | exact Hsc | exact Hnv' | exact Hsc'].
Defined.

(** C5, as stated, fails: with the mapping [{url: 'first-contentful-paint'}]
    the record's [url] is the audited URL, stamped after the reduce, and not
    the raw item's numericValue. *)
Lemma stamped_field_overrides_mapping :
  ¬ (∀ (ext : Externals) (a : Lighthouse.LighthouseAudit) (today : Z) (i : nat)
       (audit : JsVal) (outputField rawKey : string) (out : list JsVal)
       (record : gmap string JsVal),
       Lighthouse.auditResults a !! i = Some audit →
       defined audit = true →
       (outputField, rawKey) ∈ Lighthouse.auditFieldMapping a →
       Lighthouse.getBQFormatResults_at ext a today = Normal out →
       out !! i = Some (JObj record) →
       record !! outputField = Some (field_value audit rawKey "numericValue")).
Proof.
  intros H.
  pose (audit := JObj {[ "first-contentful-paint" := Scenario.fcp_item;
                         "url" := JStr Scenario.a_url ]}).
  pose (a := Lighthouse.mkLighthouseAudit [Scenario.a_url] [] PerfAuditConfig [audit]
               [("url", "first-contentful-paint")] [JNum 0.5]).
  destruct (Lighthouse.getBQFormatResults_at (Scenario.all_ok 0) a 1000)
    as [[|[| | | | |record] [|]]|] eqn:E; try (by vm_compute in E).
  specialize (H (Scenario.all_ok 0) a 1000%Z 0%nat audit "url" "first-contentful-paint"
                [JObj record] record eq_refl eq_refl ltac:(left) E eq_refl).
  vm_compute in E. injection E as <-. vm_compute in H. discriminate H.
Qed.

(** The two other ways in which the code leaves the spec's reading of a
    pair: a raw key that names a member of [Object.prototype] yields
    [undefined] for a raw result without such a property of its own, not 0;
    and the output field [__proto__] yields no field at all. *)
Example prototype_keys_of_a_mapping :
  let audit := JObj {[ "url" := JStr Scenario.a_url ]} in
  let a := Lighthouse.mkLighthouseAudit [Scenario.a_url] [] PerfAuditConfig [audit]
             [("size", "constructor"); ("__proto__", "first-contentful-paint")]
             [JNum 0.5] in
  ∃ record,
    Lighthouse.getBQFormatResults_at (Scenario.all_ok 0) a 1000 = Normal [JObj record]
    ∧ record !! "size" = Some JUndefined
    ∧ record !! "size_score" = Some JUndefined
    ∧ record !! "__proto__" = None
    ∧ record !! "__proto___score" = Some (JNum 0).
Proof. eexists. split; [vm_compute; reflexivity|]. by vm_compute. Qed.

(** ** The Single-URL Audit Runner *)

Lemma tag_audits_cases (url : string) (audits performance : JsVal) :
  (loose_neq_null audits = false
   ∧ tag_audits url audits performance = Normal JUndefined)
  ∨ (∃ o, audits = JObj o
          ∧ tag_audits url audits performance
            = Normal (JObj {[ "metrics" := JObj (<["url" := JStr url]> o);
                              "performance" := performance ]}))
  ∨ (loose_neq_null audits = true
     ∧ tag_audits url audits performance = Throw (TypeError_write "url" audits)).
Proof.
  destruct audits; cbn; eauto.
Qed.

Section LighthouseRunner.
Context (ext : Externals).

Lemma lighthouse_performAudit_eq url page blocked (s : Lighthouse.St) port :
  Lighthouse.debugging_port page = Normal port →
  Lighthouse.performAudit ext url page blocked s
  = let options := mkLHOptions blocked port in
    let config := Lighthouse.auditConfig s.1 in
    let s' := (s.1, elapse ext (log_call (LighthouseCall url options config) s.2)) in
    match lighthouse ext s.2 url options config with
    | Normal metrics =>
        match Lighthouse.on_metrics url metrics with
        | Normal v => (Normal v, s')
        | Throw e => (Throw (prefixed "LH Audit error: " e), s')
        end
    | Throw e => (Throw (prefixed "LH Audit error: " e), s')
    end.
Proof.
  intros Hport. destruct s as [a w].
  unfold Lighthouse.performAudit, then_catch, try_catch, bind, liftC,
    Lighthouse.this, gets, Lighthouse.world, await, throw.
  rewrite Hport. cbn [fst snd].
  destruct (lighthouse ext w url _ _) as [metrics|e]; [|reflexivity].
  destruct (Lighthouse.on_metrics url metrics); reflexivity.
Qed.

Lemma lighthouse_performAudit_no_port url page blocked (s : Lighthouse.St) e :
  Lighthouse.debugging_port page = Throw e →
  Lighthouse.performAudit ext url page blocked s = (Throw e, s).
Proof.
  intros Hport. unfold Lighthouse.performAudit, bind, liftC. by rewrite Hport.
Qed.

End LighthouseRunner.

Section PSIRunner.
Context (ext : Externals).

Lemma psi_performAudit_eq url mode (s : PSI.St) :
  PSI.performAudit ext url mode s
  = let options := PSI.psi_options ext mode in
    let s' := (s.1, elapse ext (log_call (PSICall url options) s.2)) in
    match psi ext s.2 url options with
    | Normal metrics =>
        match PSI.on_metrics url metrics with
        | Normal v => (Normal v, s')
        | Throw e => (Throw (prefixed "PSI Audit error: " e), s')
        end
    | Throw e => (Throw (prefixed "PSI Audit error: " e), s')
    end.
Proof.
  destruct s as [a w].
  unfold PSI.performAudit, then_catch, try_catch, bind, liftC,
    PSI.world, await, throw.
  cbn [fst snd].
  destruct (psi ext w url _) as [metrics|e]; [|reflexivity].
  destruct (PSI.on_metrics url metrics); reflexivity.
Qed.

End PSIRunner.

(** Both [.then] callbacks, once they hold the envelope. *)
Lemma envelope_outcomes (prefix url : string) (lhr : gmap string JsVal)
    (wrap : completion JsVal → completion JsVal) :
  (∀ v, wrap (Normal v) = Normal v) →
  (∀ e, wrap (Throw e) = Throw (prefixed prefix e)) →
  runner_outcomes prefix url lhr
    (wrap (let* audits := get_prop (JObj lhr) "audits" in
           let* categories := get_prop (JObj lhr) "categories" in
           let* category := get_prop categories "performance" in
           let* performance := get_prop category "score" in
           tag_audits url audits performance)).
Proof.
  intros Hn Ht. unfold runner_outcomes. cbn [get_prop bindC]. split_and!.
  - intros ->. cbn. by rewrite Ht.
  - intros categories -> Hp. cbn. rewrite Hp. cbn. by rewrite Ht.
  - intros categories category -> Hp. cbn. rewrite Hp. cbn. split.
    + intros Hnull.
      destruct (tag_audits_cases url (default JUndefined (lhr !! "audits"))
                  (default JUndefined (category !! "score")))
        as [[_ ->]|[(o & Ho & _)|[Ho _]]]; [by rewrite Hn | | congruence].
      rewrite Ho in Hnull. discriminate Hnull.
    + intros audits ->. cbn. by rewrite Hn.
Qed.

(** C8 (as amended).  Either Audit Runner fails with its prefix followed by
    the message of the error that occurred when the backend call is rejected
    and when reading the response throws because the categories or the
    performance category are missing.  When the audit items are undefined or
    null but the score can be read it resolves with [undefined], and when
    only the score is missing it resolves with [{metrics, performance}]
    whose performance is [undefined]. *)
Theorem audit_runner_outcomes (ext : Externals) (url : string)
    (lhr : gmap string JsVal) :
  (∀ page blocked (s : Lighthouse.St) port,
     Lighthouse.debugging_port page = Normal port →
     let answer :=
       lighthouse ext s.2 url (mkLHOptions blocked port) (Lighthouse.auditConfig s.1) in
     let result := (Lighthouse.performAudit ext url page blocked s).1 in
     (∀ e, answer = Throw e → result = Throw (prefixed "LH Audit error: " e))
     ∧ (answer = Normal (JObj {[ "lhr" := JObj lhr ]}) →
        runner_outcomes "LH Audit error: " url lhr result))
  ∧ (∀ mode (s : PSI.St),
       let answer := psi ext s.2 url (PSI.psi_options ext mode) in
       let result := (PSI.performAudit ext url mode s).1 in
       (∀ e, answer = Throw e → result = Throw (prefixed "PSI Audit error: " e))
       ∧ (answer = Normal (JObj {[ "data" := JObj {[ "lighthouseResult" := JObj lhr ]} ]}) →
          runner_outcomes "PSI Audit error: " url lhr result)).
Proof.
  split.
  - intros page blocked s port Hport answer result. subst answer result.
    rewrite (lighthouse_performAudit_eq ext url page blocked s port Hport). cbv zeta.
    split.
    + intros e ->. reflexivity.
    + intros ->.
      pose proof (envelope_outcomes "LH Audit error: " url lhr
        (λ c, match c with
              | Normal v => Normal v
              | Throw e => Throw (prefixed "LH Audit error: " e)
              end) (λ _, eq_refl) (λ _, eq_refl)) as H.
      unfold Lighthouse.on_metrics.
      replace (get_prop (JObj {[ "lhr" := JObj lhr ]}) "lhr")
        with (Normal (JObj lhr)) by (cbn; by rewrite lookup_singleton_eq).
      cbn [bindC].
      destruct (let* audits := get_prop (JObj lhr) "audits" in _); exact H.
  - intros mode s answer result. subst answer result.
    rewrite (psi_performAudit_eq ext url mode s). cbv zeta.
    split.
    + intros e ->. reflexivity.
    + intros ->.
      pose proof (envelope_outcomes "PSI Audit error: " url lhr
        (λ c, match c with
              | Normal v => Normal v
              | Throw e => Throw (prefixed "PSI Audit error: " e)
              end) (λ _, eq_refl) (λ _, eq_refl)) as H.
      unfold PSI.on_metrics.
      replace (get_prop (JObj {[ "data" := JObj {[ "lighthouseResult" := JObj lhr ]} ]}) "data")
        with (Normal (JObj {[ "lighthouseResult" := JObj lhr ]}))
        by (cbn; by rewrite lookup_singleton_eq).
      cbn [bindC].
      replace (get_prop (JObj {[ "lighthouseResult" := JObj lhr ]}) "lighthouseResult")
        with (Normal (JObj lhr)) by (cbn; by rewrite lookup_singleton_eq).
      cbn [bindC].
      destruct (let* audits := get_prop (JObj lhr) "audits" in _); exact H.
Qed.

(** ** The Batch Audit Orchestrator *)

Lemma for_each_app {S A} (body : A → M S unit) (l1 l2 : list A) (s : S) :
  for_each body (l1 ++ l2) s
  = match for_each body l1 s with
    | (Normal _, s1) => for_each body l2 s1
    | (Throw e, s1) => (Throw e, s1)
    end.
Proof.
  revert s. induction l1 as [|x l1 IH]; intros s; [reflexivity|].
  cbn [app for_each]. unfold bind.
  destruct (body x s) as [[[]|e] s1]; [apply IH | reflexivity].
Qed.

Lemma result_props (metrics performance : JsVal) :
  get_prop (JObj {[ "metrics" := metrics; "performance" := performance ]}) "performance"
  = Normal performance
  ∧ get_prop (JObj {[ "metrics" := metrics; "performance" := performance ]}) "metrics"
    = Normal metrics.
Proof.
  unfold get_prop. rewrite lookup_insert_eq, lookup_insert_ne, lookup_singleton_eq by done.
  done.
Qed.

Ltac split4 := refine (conj _ (conj _ (conj _ _))).

Section Orchestrator.
Context (ext : Externals).

Lemma on_metrics_shape url metrics v :
  Lighthouse.on_metrics url metrics = Normal v →
  v = JUndefined
  ∨ ∃ o p, v = JObj {[ "metrics" := JObj o; "performance" := p ]}.
Proof.
  unfold Lighthouse.on_metrics.
  destruct (get_prop metrics "lhr") as [lhr|]; [cbn [bindC]|done].
  destruct (get_prop lhr "audits") as [audits|]; [cbn [bindC]|done].
  destruct (get_prop lhr "categories") as [categories|]; [cbn [bindC]|done].
  destruct (get_prop categories "performance") as [category|]; [cbn [bindC]|done].
  destruct (get_prop category "score") as [performance|]; [cbn [bindC]|done].
  destruct (tag_audits_cases url audits performance)
    as [[_ ->]|[(o & _ & ->)|[_ ->]]]; intros [= <-]; eauto.
Qed.

Lemma performAudit_spec url page blocked (s : Lighthouse.St) :
  let out := Lighthouse.performAudit ext url page blocked s in
  out.2.1 = s.1
  ∧ inserted out.2.2 = inserted s.2
  ∧ (∃ calls, engineCalls out.2.2 = engineCalls s.2 ++ calls
              ∧ (calls = [] ∨ map call_url calls = [url])
              ∧ (is_normal out.1 = true → map call_url calls = [url]))
  ∧ (∀ v, out.1 = Normal v →
       v = JUndefined
       ∨ ∃ o p, v = JObj {[ "metrics" := JObj o; "performance" := p ]}).
Proof.
  destruct (Lighthouse.debugging_port page) as [port|e] eqn:Hport.
  - rewrite (lighthouse_performAudit_eq ext url page blocked s port Hport). cbv zeta.
    set (call := LighthouseCall url _ _).
    assert (Hcalls : ∃ calls,
              engineCalls (elapse ext (log_call call s.2)) = engineCalls s.2 ++ calls
              ∧ (calls = [] ∨ map call_url calls = [url])
              ∧ (true = true → map call_url calls = [url])).
    { exists [call]. cbn. eauto. }
    destruct (lighthouse ext s.2 url _ _) as [metrics|e]; cbn [fst snd].
    + destruct (Lighthouse.on_metrics url metrics) as [v|e] eqn:Hm; cbn [fst snd].
      * split_and!; [done | done | done |].
        intros v' [= <-]. by eapply on_metrics_shape.
      * split_and!; [done | done | | done].
        destruct Hcalls as (calls & ? & ? & ?). exists calls. by split_and!.
    + split_and!; [done | done | | done].
      destruct Hcalls as (calls & ? & ? & ?). exists calls. by split_and!.
  - rewrite (lighthouse_performAudit_no_port ext url page blocked s e Hport).
    cbn. split_and!; [done | done | | done].
    exists []. rewrite app_nil_r. by split_and!; [ | left | ].
Qed.

Lemma audit_and_push_spec browser url (s : Lighthouse.St) :
  let out := Lighthouse.audit_and_push ext browser url s in
  same_setup out.2.1 s.1
  ∧ inserted out.2.2 = inserted s.2
  ∧ (∃ calls, engineCalls out.2.2 = engineCalls s.2 ++ calls
              ∧ (calls = [] ∨ map call_url calls = [url])
              ∧ (is_normal out.1 = true → map call_url calls = [url]))
  ∧ (if is_normal out.1
     then ∃ o p,
            Lighthouse.auditResults out.2.1 = Lighthouse.auditResults s.1 ++ [JObj o]
            ∧ Lighthouse.performanceScore out.2.1
              = Lighthouse.performanceScore s.1 ++ [p]
     else Lighthouse.auditResults out.2.1 = Lighthouse.auditResults s.1
          ∧ Lighthouse.performanceScore out.2.1 = Lighthouse.performanceScore s.1).
Proof.
  destruct s as [a w].
  unfold Lighthouse.audit_and_push, bind, Lighthouse.world, await, Lighthouse.this,
    gets, liftC, Lighthouse.update, modify.
  cbn [fst snd].
  destruct (browser_newPage ext w browser) as [page|e]; cbn [fst snd].
  2:{ split4; [done | done | | done].
      exists []. rewrite app_nil_r. by split_and!; [ | left | ]. }
  set (s1 := (a, elapse ext (log_page w))).
  pose proof (performAudit_spec url page (Lighthouse.blockedRequestPatterns a) s1)
    as (Hinst & Hins & Hcalls & Hshape).
  destruct (Lighthouse.performAudit ext url page _ s1) as [[results|e] [a2 w2]].
  2:{ cbn [fst snd] in *. subst a2. split4; [done | done | | done].
      destruct Hcalls as (calls & ? & ? & ?). exists calls. by split_and!. }
  cbn [fst snd] in *. subst a2.
  destruct (Hshape results eq_refl) as [->|(o & p & ->)].
  - cbn. split4; [done | done | | done].
    destruct Hcalls as (calls & ? & ? & ?). exists calls. by split_and!.
  - destruct (result_props (JObj o) p) as [-> ->].
    cbn. split4; [done | done | | by eauto].
    destruct Hcalls as (calls & ? & ? & ?). exists calls. by split_and!.
Qed.

End Orchestrator.

Section OrchestratorRun.
Context (ext : Externals).

Lemma run_iteration_eq browser url (s : Lighthouse.St) :
  Lighthouse.run_iteration ext browser url s
  = match Lighthouse.audit_and_push ext browser url s with
    | (Normal x, s') => (Normal x, s')
    | (Throw e, s') => (Throw (mkError (message e ++ " on " ++ url)%string), s')
    end.
Proof. reflexivity. Qed.

(** What a run of the loop over [urls] leaves behind. *)
Lemma run_loop_spec browser urls : ∀ s : Lighthouse.St,
  let out := for_each (Lighthouse.run_iteration ext browser) urls s in
  same_setup out.2.1 s.1
  ∧ inserted out.2.2 = inserted s.2
  ∧ ∃ calls new scores,
      engineCalls out.2.2 = engineCalls s.2 ++ calls
      ∧ Lighthouse.auditResults out.2.1 = Lighthouse.auditResults s.1 ++ new
      ∧ Lighthouse.performanceScore out.2.1 = Lighthouse.performanceScore s.1 ++ scores
      ∧ Forall (λ v, is_object v = true) new
      ∧ length scores = length new
      ∧ map call_url calls `prefix_of` urls
      ∧ (is_normal out.1 = true → length new = length urls ∧ map call_url calls = urls).
Proof.
  induction urls as [|url rest IH]; intros s.
  - cbn. split; [done|]. split; [done|]. exists [], [], [].
    rewrite !app_nil_r. split_and!; done.
  - cbn [for_each]. unfold bind. rewrite run_iteration_eq.
    pose proof (audit_and_push_spec ext browser url s) as (Hset & Hins & Hcalls & Hres).
    destruct (Lighthouse.audit_and_push ext browser url s) as [[[]|e] s1];
      cbn [fst snd is_normal] in *.
    + destruct (IH s1) as (Hset' & Hins' & calls' & new' & scores' & Hc' & Hn' & Hs'
                           & Hobj' & Hlen' & Hpre' & Hnorm').
      destruct Hcalls as (calls & Hc & _ & Hurl). specialize (Hurl eq_refl).
      destruct Hres as (o & p & Hn & Hs).
      split; [by destruct Hset as (?&?&?&?), Hset' as (?&?&?&?); split_and!; congruence|].
      split; [congruence|].
      exists (calls ++ calls'), (JObj o :: new'), (p :: scores').
      split_and!.
      * rewrite Hc', Hc. by rewrite app_assoc.
      * rewrite Hn', Hn. by rewrite <- app_assoc.
      * rewrite Hs', Hs. by rewrite <- app_assoc.
      * by constructor.
      * cbn. by rewrite Hlen'.
      * rewrite map_app, Hurl. cbn. by apply prefix_cons.
      * intros Hok. destruct (Hnorm' Hok) as [Hl Hm]. split; [cbn; by rewrite Hl|].
        rewrite map_app, Hurl, Hm. done.
    + destruct Hcalls as (calls & Hc & Hor & _). destruct Hres as [Hn Hs].
      split; [done|]. split; [done|].
      exists calls, [], []. rewrite !app_nil_r.
      split_and!; try done.
      destruct Hor as [-> | Hu]; [by exists (url :: rest) | rewrite Hu; by exists rest].
Qed.

Lemma run_eq (a : Lighthouse.LighthouseAudit) (w : World) :
  Lighthouse.run ext (a, w)
  = match puppeteer_launch ext w with
    | Normal browser =>
        match for_each (Lighthouse.run_iteration ext browser) (Lighthouse.urls a)
                (a, elapse ext w) with
        | (Normal _, s) => (Normal (Lighthouse.auditResults s.1), s)
        | (Throw e, s) => (Throw e, s)
        end
    | Throw e => (Throw e, (a, elapse ext w))
    end.
Proof.
  unfold Lighthouse.run, bind, Lighthouse.world, await, Lighthouse.this, gets.
  cbn [fst snd].
  destruct (puppeteer_launch ext w) as [browser|e]; [|reflexivity].
  by destruct (for_each _ _ _) as [[[]|e] s].
Qed.

Lemma run_spec (a : Lighthouse.LighthouseAudit) (w : World) :
  let out := Lighthouse.run ext (a, w) in
  same_setup out.2.1 a
  ∧ inserted out.2.2 = inserted w
  ∧ ∃ calls new scores,
      engineCalls out.2.2 = engineCalls w ++ calls
      ∧ Lighthouse.auditResults out.2.1 = Lighthouse.auditResults a ++ new
      ∧ Lighthouse.performanceScore out.2.1 = Lighthouse.performanceScore a ++ scores
      ∧ Forall (λ v, is_object v = true) new
      ∧ length scores = length new
      ∧ map call_url calls `prefix_of` Lighthouse.urls a
      ∧ (∀ r, out.1 = Normal r →
           r = Lighthouse.auditResults out.2.1
           ∧ length new = length (Lighthouse.urls a)
           ∧ map call_url calls = Lighthouse.urls a).
Proof.
  rewrite run_eq.
  destruct (puppeteer_launch ext w) as [browser|e].
  - pose proof (run_loop_spec browser (Lighthouse.urls a) (a, elapse ext w))
      as (Hset & Hins & calls & new & scores & Hc & Hn & Hs & Hobj & Hlen & Hpre & Hnorm).
    destruct (for_each _ _ _) as [[[]|e] s]; cbn [fst snd is_normal] in *.
    + split; [done|]. split; [done|]. exists calls, new, scores.
      split_and!; try done. intros r [= <-]. destruct (Hnorm eq_refl). done.
    + split; [done|]. split; [done|]. exists calls, new, scores.
      split_and!; done.
  - cbn. split; [done|]. split; [done|]. exists [], [], [].
    rewrite !app_nil_r. split_and!; try done. by exists (Lighthouse.urls a).
Qed.

End OrchestratorRun.

Lemma formatter_total (ext : Externals) (a : Lighthouse.LighthouseAudit) (today : Z) :
  Forall (λ raw, raw ≠ JNull) (Lighthouse.auditResults a) →
  ∃ out, Lighthouse.getBQFormatResults_at ext a today = Normal out
         ∧ Forall2 formats (Lighthouse.auditResults a) out.
Proof.
  intros H.
  apply (map_defined_positions (Lighthouse.format_audit ext a today) _
           (lighthouse_format_audit_total ext a today) H 0%nat).
Qed.

(** ** The [POST /audit] handler *)

Section Handler.
Context (ext : Externals).

Lemma performLightouseAudit_eq urls blocked mode (w : World) :
  App.performLightouseAudit ext urls blocked mode w
  = let a := Lighthouse.constructor urls blocked (App.audit_config_for mode)
               (auditResultsMapping ext) in
    match Lighthouse.run ext (a, w) with
    | (Normal _, s) =>
        match Lighthouse.getBQFormatResults_at ext s.1 (now s.2) with
        | Normal formatted =>
            (mapC (λ result, set_prop result "mode" (App.mode_val mode)) formatted, s.2)
        | Throw e => (Throw e, s.2)
        end
    | (Throw e, s) => (Throw e, s.2)
    end.
Proof.
  unfold App.performLightouseAudit, bind, Lighthouse.getBQFormatResults, liftC.
  cbv zeta.
  destruct (Lighthouse.run ext _) as [[r|e] s]; [|reflexivity].
  by destruct (Lighthouse.getBQFormatResults_at ext s.1 (now s.2)).
Qed.

Lemma tag_mode_records (mode : JsVal) (raw out : list JsVal) :
  Forall2 formats raw out →
  Forall (λ v, is_object v = true) raw →
  ∃ results,
    mapC (λ result, set_prop result "mode" mode) out = Normal results
    ∧ length results = length raw
    ∧ Forall (λ r, get_prop r "mode" = Normal mode) results.
Proof.
  induction 1 as [|r o raw out Hfmt _ IH]; intros Hobj.
  - exists []. by split_and!.
  - apply Forall_cons in Hobj as [Hr Hobj].
    destruct (IH Hobj) as (results & Hmap & Hlen & Hmode).
    destruct Hfmt as [[-> _]|[_ [record ->]]]; [discriminate Hr|].
    cbn [mapC set_prop bindC]. rewrite Hmap. cbn [bindC].
    eexists. split; [reflexivity|]. split; [cbn; by rewrite Hlen|].
    constructor; [|done]. unfold get_prop. by rewrite lookup_insert_eq.
Qed.

Lemma objects_not_null (l : list JsVal) :
  Forall (λ v, is_object v = true) l → Forall (λ raw, raw ≠ JNull) l.
Proof. intros H. eapply Forall_impl; [exact H|]. by intros [] ?. Qed.

(** One pass of the Orchestrator and the Formatter for a batch. *)
Lemma performLightouseAudit_spec urls blocked mode (w : World) :
  let out := App.performLightouseAudit ext urls blocked mode w in
  inserted out.2 = inserted w
  ∧ ∃ calls,
      engineCalls out.2 = engineCalls w ++ calls
      ∧ map call_url calls `prefix_of` urls
      ∧ (∀ results, out.1 = Normal results →
           length results = length urls
           ∧ Forall (λ r, get_prop r "mode" = Normal (App.mode_val mode)) results
           ∧ map call_url calls = urls).
Proof.
  rewrite performLightouseAudit_eq. cbv zeta.
  set (a := Lighthouse.constructor urls blocked _ _).
  pose proof (run_spec ext a w)
    as (Hset & Hins & calls & new & scores & Hc & Hn & Hs & Hobj & Hlen & Hpre & Hnorm).
  destruct (Lighthouse.run ext (a, w)) as [[r|e] s]; cbn [fst snd] in *.
  2:{ split; [done|]. exists calls. by split_and!. }
  destruct (Hnorm r eq_refl) as (_ & Hlen' & Hurls).
  destruct (formatter_total ext s.1 (now s.2))
    as (out & Hout & Hpos).
  { rewrite Hn. cbn. by apply objects_not_null. }
  rewrite Hout. cbn [fst snd].
  split; [done|]. exists calls. split; [done|]. split; [done|].
  intros results Hres.
  destruct (tag_mode_records (App.mode_val mode) _ _ Hpos) as (results' & Hmap & Hl & Hm).
  { rewrite Hn. done. }
  rewrite Hmap in Hres. injection Hres as <-.
  split_and!; [|done|done]. rewrite Hl, Hn. cbn. by rewrite Hlen'.
Qed.

Lemma effective_mode_not_all (payload : App.AuditBody) :
  App.mode_is (App.effective_mode payload) "all" = false.
Proof. unfold App.effective_mode. by destruct (App.mode payload). Qed.

Lemma effective_mode_string (payload : App.AuditBody) (m : string) :
  App.mode payload = Some m → App.effective_mode payload = Some "mobile"%string.
Proof. unfold App.effective_mode. by intros ->. Qed.

Lemma writeResultStream_eq ds tb rows (w : World) :
  BQ.writeResultStream ext ds tb rows w
  = match mapC BQ.prepare_row rows with
    | Normal preparedRows => BQ.insert_and_log ext ds tb preparedRows w
    | Throw e => (Throw e, w)
    end.
Proof.
  unfold BQ.writeResultStream, bind, liftC. by destruct (mapC BQ.prepare_row rows).
Qed.

Lemma insert_and_log_spec ds tb preparedRows (w : World) :
  let out := BQ.insert_and_log ext ds tb preparedRows w in
  out.1 = Normal tt
  ∧ engineCalls out.2 = engineCalls w
  ∧ inserted out.2 = inserted w ++ [preparedRows].
Proof.
  unfold BQ.insert_and_log.
  by destruct (bigquery_insert ext w ds tb preparedRows).
Qed.

Lemma performAudit_eq (payload : App.AuditBody) (w : World) :
  App.performAudit ext payload w
  = match App.performLightouseAudit ext (App.urls payload) (App.blockedRequests payload)
            (App.effective_mode payload) w with
    | (Normal results, w1) =>
        if truthy (App.store_flag payload) then
          match BQ.writeResultStream ext (BQ_DATASET (process_env ext))
                  (BQ_TABLE (process_env ext)) results w1 with
          | (Normal _, w2) => (Normal (App.mkResponse 200 (App.JsonRecords results)), w2)
          | (Throw e, w2) =>
              (Normal (App.mkResponse 500 (App.JsonError 500 (message e))), w2)
          end
        else (Normal (App.mkResponse 200 (App.JsonRecords results)), w1)
    | (Throw e, w1) => (Normal (App.mkResponse 500 (App.JsonError 500 (message e))), w1)
    end.
Proof.
  unfold App.performAudit, try_catch, bind, ret. cbv zeta.
  rewrite effective_mode_not_all.
  destruct (App.performLightouseAudit ext _ _ _ w) as [[results|e] w1]; [|reflexivity].
  destruct (truthy (App.store_flag payload)); [|reflexivity].
  by destruct (BQ.writeResultStream ext _ _ results w1) as [[[]|e] w2].
Qed.

End Handler.

(** C3.  When the audit of the URL at index [j] fails after the audits of
    the URLs before it succeeded, [run] throws an error whose message is the
    message of that failure followed by [" on "] and the failing URL; the
    engine has been called for the URLs up to index [j] at most, and for
    none after it; and the handler whose instance this is answers with
    status 500 and the error message, not with a partial list of records. *)
Theorem run_aborts_at_first_failure (ext : Externals)
    (a : Lighthouse.LighthouseAudit) (w : World) (browser : Browser) (j : nat)
    (url : string) (s s' : Lighthouse.St) (e : Error) :
  puppeteer_launch ext w = Normal browser →
  Lighthouse.urls a !! j = Some url →
  for_each (Lighthouse.run_iteration ext browser) (take j (Lighthouse.urls a))
    (a, elapse ext w) = (Normal tt, s) →
  Lighthouse.audit_and_push ext browser url s = (Throw e, s') →
  Lighthouse.run ext (a, w) = (Throw (mkError (message e ++ " on " ++ url)%string), s')
  ∧ (∃ calls,
       engineCalls s'.2 = engineCalls w ++ calls
       ∧ (map call_url calls = take j (Lighthouse.urls a)
          ∨ map call_url calls = take (S j) (Lighthouse.urls a)))
  ∧ (∀ payload : App.AuditBody,
       a = Lighthouse.constructor (App.urls payload) (App.blockedRequests payload)
             (App.audit_config_for (App.effective_mode payload))
             (auditResultsMapping ext) →
       App.performAudit ext payload w
       = (Normal (App.mkResponse 500
                    (App.JsonError 500 (message e ++ " on " ++ url)%string)), s'.2)).
Proof.
  intros Hlaunch Hj Hbefore Hfail.
  assert (Hrun : Lighthouse.run ext (a, w)
                 = (Throw (mkError (message e ++ " on " ++ url)%string), s')).
  { rewrite run_eq, Hlaunch.
    rewrite <- (take_drop_middle _ _ _ Hj) at 1.
    rewrite for_each_app, Hbefore. cbn [for_each]. unfold bind.
    by rewrite run_iteration_eq, Hfail. }
  split; [done|]. split.
  - pose proof (run_loop_spec ext browser (take j (Lighthouse.urls a)) (a, elapse ext w))
      as (_ & _ & calls & new & scores & Hc & _ & _ & _ & _ & _ & Hnorm).
    rewrite Hbefore in Hc, Hnorm. cbn [fst snd is_normal] in Hc, Hnorm.
    destruct (Hnorm eq_refl) as [_ Hurls].
    pose proof (audit_and_push_spec ext browser url s) as (_ & _ & Hcalls & _).
    rewrite Hfail in Hcalls. cbn [fst snd] in Hcalls.
    destruct Hcalls as (calls' & Hc' & Hor & _).
    exists (calls ++ calls'). split.
    + rewrite Hc', Hc. cbn. by rewrite app_assoc.
    + rewrite map_app, Hurls. destruct Hor as [-> | Hu].
      * left. by rewrite app_nil_r.
      * right. rewrite Hu. symmetry. by apply take_S_r.
  - intros payload ->.
    rewrite performAudit_eq, performLightouseAudit_eq. cbv zeta. by rewrite Hrun.
Qed.

Lemma run_aborts_at_first_failure_witness :
  let ext := Scenario.with_engine Scenario.fails_on_b in
  let a := Lighthouse.constructor [Scenario.a_url; Scenario.b_url; Scenario.c_url]
             None PerfAuditConfig Scenario.mapping in
  ∃ s',
    Lighthouse.run ext (a, Scenario.w0)
    = (Throw (mkError "LH Audit error: net::ERR_FAILED on https://b.example"), s')
    ∧ map call_url (engineCalls s'.2) = [Scenario.a_url; Scenario.b_url]
    ∧ Lighthouse.auditResults s'.1 ≠ [].
Proof.
  intros ext a.
  set (s := (for_each (Lighthouse.run_iteration ext Scenario.the_browser)
               (take 1 (Lighthouse.urls a)) (a, elapse ext Scenario.w0)).2).
  set (s' := (Lighthouse.audit_and_push ext Scenario.the_browser Scenario.b_url s).2).
  destruct (run_aborts_at_first_failure ext a Scenario.w0 Scenario.the_browser 1
              Scenario.b_url s s' (mkError "LH Audit error: net::ERR_FAILED"))
    as (Hrun & _ & _).
  - reflexivity.
  - reflexivity.
  - vm_compute. reflexivity.
  - vm_compute. reflexivity.
  - exists s'. split; [exact Hrun|]. split; [by vm_compute | by vm_compute].
Defined.

(** C10.  [run] never resets the accumulators: when it is invoked twice on
    one instance, the raw results and the scores of the second run are
    appended after those of the first, each run adding one entry per URL,
    and [getBQFormatResults] then formats the entries of both runs. *)
Theorem run_twice_accumulates (ext : Externals) (a : Lighthouse.LighthouseAudit)
    (w : World) (r1 r2 : list JsVal) (s1 s2 : Lighthouse.St) :
  Lighthouse.run ext (a, w) = (Normal r1, s1) →
  Lighthouse.run ext s1 = (Normal r2, s2) →
  ∃ new1 new2 scores1 scores2,
    length new1 = length (Lighthouse.urls a)
    ∧ length new2 = length (Lighthouse.urls a)
    ∧ length scores1 = length (Lighthouse.urls a)
    ∧ length scores2 = length (Lighthouse.urls a)
    ∧ Lighthouse.auditResults s1.1 = Lighthouse.auditResults a ++ new1
    ∧ r1 = Lighthouse.auditResults s1.1
    ∧ Lighthouse.auditResults s2.1 = Lighthouse.auditResults a ++ new1 ++ new2
    ∧ r2 = Lighthouse.auditResults s2.1
    ∧ Lighthouse.performanceScore s2.1
      = Lighthouse.performanceScore a ++ scores1 ++ scores2
    ∧ (∀ today,
         Forall (λ raw, raw ≠ JNull) (Lighthouse.auditResults a) →
         ∃ out,
           Lighthouse.getBQFormatResults_at ext s2.1 today = Normal out
           ∧ Forall2 formats (Lighthouse.auditResults a ++ new1 ++ new2) out
           ∧ length out
             = (length (Lighthouse.auditResults a) + 2 * length (Lighthouse.urls a))%nat).
Proof.
  destruct s1 as [a1 w1]. intros H1 H2.
  pose proof (run_spec ext a w)
    as (Hset1 & _ & calls1 & new1 & scores1 & _ & Hn1 & Hs1 & Hobj1 & Hlen1 & _ & Hnorm1).
  rewrite H1 in Hset1, Hn1, Hs1, Hnorm1. cbn [fst snd] in Hset1, Hn1, Hs1, Hnorm1.
  destruct (Hnorm1 r1 eq_refl) as (Hr1 & Hl1 & _).
  pose proof (run_spec ext a1 w1)
    as (_ & _ & calls2 & new2 & scores2 & _ & Hn2 & Hs2 & Hobj2 & Hlen2 & _ & Hnorm2).
  rewrite H2 in Hn2, Hs2, Hnorm2. cbn [fst snd] in *.
  destruct (Hnorm2 r2 eq_refl) as (Hr2 & Hl2 & _).
  destruct Hset1 as (Hurls & _). rewrite Hurls in Hl2.
  exists new1, new2, scores1, scores2.
  assert (Hall : Lighthouse.auditResults s2.1
                 = Lighthouse.auditResults a ++ new1 ++ new2).
  { rewrite Hn2, Hn1. by rewrite <- app_assoc. }
  split_and!; try congruence.
  - rewrite Hs2, Hs1. by rewrite <- app_assoc.
  - intros today Hnull.
    destruct (formatter_total ext s2.1 today) as (out & Hout & Hpos).
    { rewrite Hall. rewrite !Forall_app. split_and!; [done | |]; by apply objects_not_null. }
    exists out. rewrite <- Hall. split_and!; [done | done |].
    rewrite <- (Forall2_length _ _ _ Hpos), Hall, !length_app. lia.
Qed.

Lemma run_twice_accumulates_witness :
  let ext := Scenario.all_ok 0 in
  let a := Lighthouse.constructor [Scenario.a_url; Scenario.b_url] None
             PerfAuditConfig Scenario.mapping in
  ∃ r1 s1 r2 s2 out,
    Lighthouse.run ext (a, Scenario.w0) = (Normal r1, s1)
    ∧ Lighthouse.run ext s1 = (Normal r2, s2)
    ∧ length r1 = 2%nat ∧ length r2 = 4%nat
    ∧ Lighthouse.getBQFormatResults_at ext s2.1 1000 = Normal out
    ∧ length out = 4%nat.
Proof.
  intros ext a.
  set (s1 := (Lighthouse.run ext (a, Scenario.w0)).2).
  set (s2 := (Lighthouse.run ext s1).2).
  destruct (run_twice_accumulates ext a Scenario.w0
              (Lighthouse.auditResults s1.1) (Lighthouse.auditResults s2.1) s1 s2)
    as (new1 & new2 & scores1 & scores2 & Hl1 & Hl2 & _ & _ & Hn1 & _ & Hn2 & _ & _ & Hfmt).
  - vm_compute. reflexivity.
  - vm_compute. reflexivity.
  - destruct (Hfmt 1000%Z) as (out & Hout & _ & Hlen); [constructor|].
    exists (Lighthouse.auditResults s1.1), s1, (Lighthouse.auditResults s2.1), s2, out.
    split_and!; [by vm_compute | by vm_compute | | | exact Hout | exact Hlen].
    + rewrite Hn1, length_app, Hl1. reflexivity.
    + rewrite Hn2, !length_app, Hl1, Hl2. reflexivity.
Defined.

(** C1 (what the code does).  A request whose mode is the string "all" is
    served by a single pass with mode "mobile": a successful answer holds one
    record per URL, N and not 2*N, every record is tagged "mobile", and the
    engine has been called once per URL. *)
Theorem mode_all_runs_one_mobile_pass (ext : Externals) (payload : App.AuditBody)
    (w w' : World) (results : list JsVal) :
  App.mode payload = Some "all"%string →
  App.performAudit ext payload w
  = (Normal (App.mkResponse 200 (App.JsonRecords results)), w') →
  length results = length (App.urls payload)
  ∧ Forall (λ r, get_prop r "mode" = Normal (JStr "mobile")) results
  ∧ ∃ calls, engineCalls w' = engineCalls w ++ calls
             ∧ map call_url calls = App.urls payload.
Proof.
  intros Hmode. rewrite performAudit_eq, (effective_mode_string payload _ Hmode).
  pose proof (performLightouseAudit_spec ext (App.urls payload)
                (App.blockedRequests payload) (Some "mobile"%string) w)
    as (_ & calls & Hc & _ & Hres).
  destruct (App.performLightouseAudit ext _ _ _ w) as [[rs|e] w1];
    cbn [fst snd] in *; [|discriminate].
  destruct (Hres rs eq_refl) as (Hlen & Htag & Hurls).
  destruct (truthy (App.store_flag payload)).
  - rewrite writeResultStream_eq.
    destruct (mapC BQ.prepare_row rs) as [prepared|e]; [|discriminate].
    pose proof (insert_and_log_spec ext (BQ_DATASET (process_env ext))
                  (BQ_TABLE (process_env ext)) prepared w1) as (Hn & Hcalls & _).
    destruct (BQ.insert_and_log ext _ _ prepared w1) as [[[]|e] w2];
      cbn [fst snd] in *; [|discriminate].
    intros [= <- <-]. split_and!; [done | done |].
    exists calls. split; [congruence | done].
  - intros [= <- <-]. split_and!; [done | done |]. by exists calls.
Qed.

Lemma mode_all_runs_one_mobile_pass_witness :
  let payload := App.mkAuditBody [Scenario.a_url; Scenario.b_url] None
                   (Some "all"%string) JUndefined JUndefined in
  ∃ results w',
    App.performAudit (Scenario.all_ok 0) payload Scenario.w0
    = (Normal (App.mkResponse 200 (App.JsonRecords results)), w')
    ∧ length results = 2%nat
    ∧ Forall (λ r, get_prop r "mode" = Normal (JStr "mobile")) results.
Proof.
  intros payload.
  set (out := App.performAudit (Scenario.all_ok 0) payload Scenario.w0).
  set (results := match out.1 with
                  | Normal (App.mkResponse _ (App.JsonRecords l)) => l
                  | _ => []
                  end).
  assert (E : out = (Normal (App.mkResponse 200 (App.JsonRecords results)), out.2))
    by (vm_compute; reflexivity).
  exists results, out.2. split; [exact E|].
  destruct (mode_all_runs_one_mobile_pass (Scenario.all_ok 0) payload Scenario.w0
              out.2 results eq_refl E) as (Hlen & Htag & _).
  split; [exact Hlen | exact Htag].
Defined.

(** C2 (what the code does).  When the body's storeData is a boolean, true
    included, the handler writes nothing to the storage collaborator. *)
Theorem boolean_storeData_never_stores (ext : Externals) (payload : App.AuditBody)
    (b : bool) (w : World) :
  App.storeData payload = JBool b →
  inserted (App.performAudit ext payload w).2 = inserted w.
Proof.
  intros Hb. rewrite performAudit_eq.
  pose proof (performLightouseAudit_spec ext (App.urls payload)
                (App.blockedRequests payload) (App.effective_mode payload) w)
    as (Hins & _).
  destruct (App.performLightouseAudit ext _ _ _ w) as [[rs|e] w1];
    cbn [fst snd] in *; [|done].
  unfold App.store_flag. by rewrite Hb.
Qed.

Lemma boolean_storeData_never_stores_witness :
  let payload := App.mkAuditBody [Scenario.a_url] None None (JBool true) JUndefined in
  App.storeData payload = JBool true
  ∧ inserted (App.performAudit (Scenario.all_ok 0) payload Scenario.w0).2 = []
  ∧ ∃ results,
      (App.performAudit (Scenario.all_ok 0) payload Scenario.w0).1
      = Normal (App.mkResponse 200 (App.JsonRecords results)).
Proof.
  intros payload. split; [reflexivity|]. split.
  - apply (boolean_storeData_never_stores (Scenario.all_ok 0) payload true Scenario.w0).
    reflexivity.
  - eexists. vm_compute. reflexivity.
Defined.

(** The differently spelled field decides: with storeData absent and
    storeDate true, the handler writes the rows. *)
Example storeDate_triggers_storage :
  let payload := App.mkAuditBody [Scenario.a_url] None None JUndefined (JBool true) in
  length (inserted (App.performAudit (Scenario.all_ok 0) payload Scenario.w0).2) = 1%nat.
Proof. vm_compute. reflexivity. Qed.

(** C9.  The handler's answer does not depend on what the storage insert
    does: with a storage client that fails it is the answer given with any
    other storage client, status and records included.  A failed insert
    only reaches the console. *)
Theorem storage_failure_not_surfaced (ext : Externals)
    (insert : World → option string → option string → list JsVal → completion unit)
    (payload : App.AuditBody) (w : World) :
  (App.performAudit (with_insert ext insert) payload w).1
  = (App.performAudit ext payload w).1
  ∧ (∀ ds tb rows preparedRows err w1,
       mapC BQ.prepare_row rows = Normal preparedRows →
       insert w1 ds tb preparedRows = Throw err →
       BQ.writeResultStream (with_insert ext insert) ds tb rows w1
       = (Normal tt,
          console_log (JSON_stringify_error ext err)
            (console_log "BigQuery fail" (log_insert preparedRows w1)))).
Proof.
  split.
  - rewrite !performAudit_eq.
    change (App.performLightouseAudit (with_insert ext insert))
      with (App.performLightouseAudit ext).
    destruct (App.performLightouseAudit ext _ _ _ w) as [[rs|e] w1]; [|reflexivity].
    destruct (truthy (App.store_flag payload)); [|reflexivity].
    rewrite !writeResultStream_eq.
    destruct (mapC BQ.prepare_row rs) as [prepared|e]; [|reflexivity].
    pose proof (insert_and_log_spec (with_insert ext insert)
                  (BQ_DATASET (process_env (with_insert ext insert)))
                  (BQ_TABLE (process_env (with_insert ext insert))) prepared w1)
      as (Hn1 & _).
    pose proof (insert_and_log_spec ext (BQ_DATASET (process_env ext))
                  (BQ_TABLE (process_env ext)) prepared w1) as (Hn2 & _).
    destruct (BQ.insert_and_log (with_insert ext insert) _ _ prepared w1) as [[[]|?] ?];
      destruct (BQ.insert_and_log ext _ _ prepared w1) as [[[]|?] ?];
      cbn [fst snd] in *; done.
  - intros ds tb rows preparedRows err w1 Hprep Hins.
    rewrite writeResultStream_eq, Hprep. unfold BQ.insert_and_log.
    cbn [bigquery_insert with_insert]. by rewrite Hins.
Qed.

Lemma storage_failure_not_surfaced_witness :
  let payload := App.mkAuditBody [Scenario.a_url] None None JUndefined (JBool true) in
  let failing := with_insert (Scenario.all_ok 0) (λ _ _ _ _, Throw (mkError "quota")) in
  (∃ results,
     (App.performAudit failing payload Scenario.w0).1
     = Normal (App.mkResponse 200 (App.JsonRecords results))
     ∧ (App.performAudit (Scenario.all_ok 0) payload Scenario.w0).1
       = Normal (App.mkResponse 200 (App.JsonRecords results)))
  ∧ console (App.performAudit failing payload Scenario.w0).2
    = ["BigQuery fail"%string; "quota"%string].
Proof.
  intros payload failing. split; [|by vm_compute].
  destruct (storage_failure_not_surfaced (Scenario.all_ok 0)
              (λ _ _ _ _, Throw (mkError "quota")) payload Scenario.w0) as [Hsame _].
  set (out := App.performAudit (Scenario.all_ok 0) payload Scenario.w0) in *.
  exists (match out.1 with
          | Normal (App.mkResponse _ (App.JsonRecords l)) => l
          | _ => []
          end).
  assert (E : out.1 = Normal (App.mkResponse 200 (App.JsonRecords
                (match out.1 with
                 | Normal (App.mkResponse _ (App.JsonRecords l)) => l
                 | _ => []
                 end)))) by (vm_compute; reflexivity).
  split; [|exact E]. fold failing in Hsame. rewrite Hsame. exact E.
Defined.

(** C8, as stated, fails: for an answer without audit items the Audit Runner
    resolves, with [undefined]. *)
Lemma missing_audits_resolves_with_undefined :
  ¬ (∀ (ext : Externals) url page blocked (s : Lighthouse.St) port
       (lhr : gmap string JsVal),
       Lighthouse.debugging_port page = Normal port →
       lighthouse ext s.2 url (mkLHOptions blocked port) (Lighthouse.auditConfig s.1)
       = Normal (JObj {[ "lhr" := JObj lhr ]}) →
       lhr !! "audits" = None →
       ∃ e, (Lighthouse.performAudit ext url page blocked s).1 = Throw e).
Proof.
  intros H.
  destruct (H (Scenario.with_engine (λ _, Normal Scenario.lh_no_audits))
              Scenario.a_url (mkPage Scenario.the_browser) []
              (Lighthouse.constructor [Scenario.a_url] None PerfAuditConfig
                 Scenario.mapping, Scenario.w0)
              "9222"%string {[ "categories" := Scenario.categories_ok ]}
              eq_refl eq_refl eq_refl) as [e He].
  vm_compute in He. discriminate He.
Qed.

Lemma audit_runner_outcomes_witness :
  let s := (Lighthouse.constructor [Scenario.a_url] None PerfAuditConfig
              Scenario.mapping, Scenario.w0) in
  (Lighthouse.performAudit (Scenario.with_engine (λ _, Normal Scenario.lh_no_categories))
     Scenario.a_url (mkPage Scenario.the_browser) [] s).1
  = Throw (mkError "LH Audit error: Cannot read property 'performance' of undefined")
  ∧ (Lighthouse.performAudit (Scenario.with_engine (λ _, Normal Scenario.lh_no_audits))
       Scenario.a_url (mkPage Scenario.the_browser) [] s).1
    = Normal JUndefined
  ∧ (PSI.performAudit (Scenario.with_engine (λ _, Throw (mkError "quota exceeded")))
       Scenario.a_url None (PSI.constructor [Scenario.a_url] None Scenario.mapping,
                            Scenario.w0)).1
    = Throw (mkError "PSI Audit error: quota exceeded").
Proof.
  intros s. split_and!.
  - destruct (audit_runner_outcomes
                (Scenario.with_engine (λ _, Normal Scenario.lh_no_categories))
                Scenario.a_url {[ "audits" := Scenario.audits_ok ]}) as [HL _].
    destruct (HL (mkPage Scenario.the_browser) [] s "9222"%string eq_refl) as [_ Hout].
    destruct (Hout eq_refl) as (Hcat & _). exact (Hcat eq_refl).
  - destruct (audit_runner_outcomes
                (Scenario.with_engine (λ _, Normal Scenario.lh_no_audits))
                Scenario.a_url {[ "categories" := Scenario.categories_ok ]}) as [HL _].
    destruct (HL (mkPage Scenario.the_browser) [] s "9222"%string eq_refl) as [_ Hout].
    destruct (Hout eq_refl) as (_ & _ & Haud).
    destruct (Haud {[ "performance" := JObj {[ "score" := JNum 0.5 ]} ]}
                {[ "score" := JNum 0.5 ]} eq_refl eq_refl) as [Hundef _].
    exact (Hundef eq_refl).
  - destruct (audit_runner_outcomes
                (Scenario.with_engine (λ _, Throw (mkError "quota exceeded")))
                Scenario.a_url ∅) as [_ HP].
    destruct (HP None (PSI.constructor [Scenario.a_url] None Scenario.mapping,
                       Scenario.w0)) as [Hrej _].
    exact (Hrej (mkError "quota exceeded") eq_refl).
Defined.

(** An answer whose performance category has no score resolves, with a
    performance that is [undefined]. *)
Example missing_score_resolves :
  ∃ metrics,
    (Lighthouse.performAudit (Scenario.with_engine (λ _, Normal Scenario.lh_no_score))
       Scenario.a_url (mkPage Scenario.the_browser) []
       (Lighthouse.constructor [Scenario.a_url] None PerfAuditConfig Scenario.mapping,
        Scenario.w0)).1
    = Normal (JObj {[ "metrics" := metrics; "performance" := JUndefined ]}).
Proof. eexists. vm_compute. reflexivity. Qed.

(** * Further properties of the code *)

(** ** The storage writer *)

Lemma copy_fields_lookup (row : JsVal) (fields : list string) :
  loose_neq_null row = true →
  ∀ preparedRow,
  ∃ prepared,
    BQ.copy_fields fields row preparedRow = Normal prepared
    ∧ ∀ field,
        prepared !! field
        = if bool_decide (field ∈ fields) then Some (own_prop row field)
          else preparedRow !! field.
Proof.
  intros Hrow. induction fields as [|f rest IH]; intros preparedRow.
  - exists preparedRow. split; [reflexivity|]. intros field.
    rewrite bool_decide_eq_false_2; [done | apply not_elem_of_nil].
  - cbn [BQ.copy_fields]. rewrite (get_prop_own _ _ Hrow). cbn [bindC].
    destruct (IH (<[f := own_prop row f]> preparedRow)) as (prepared & -> & Hlook).
    exists prepared. split; [reflexivity|]. intros field. rewrite Hlook.
    destruct (decide (field ∈ rest)) as [Hin|Hnin].
    + rewrite !bool_decide_eq_true_2; [done | by right | done].
    + rewrite (bool_decide_eq_false_2 _ Hnin).
      destruct (decide (field = f)) as [->|Hne].
      * rewrite lookup_insert_eq, bool_decide_eq_true_2; [done | by left].
      * rewrite lookup_insert_ne by done.
        rewrite bool_decide_eq_false_2; [done|].
        intros [?|?]%elem_of_cons; done.
Qed.

Lemma copy_fields_nullish (row : JsVal) (f : string) (rest : list string)
    (preparedRow : gmap string JsVal) :
  loose_neq_null row = false →
  BQ.copy_fields (f :: rest) row preparedRow = Throw (TypeError_read f row).
Proof. by destruct row. Qed.

Lemma prepare_row_total (row : JsVal) :
  loose_neq_null row = true → ∃ prepared, BQ.prepare_row row = Normal (JObj prepared).
Proof.
  intros Hrow. unfold BQ.prepare_row.
  destruct (copy_fields_lookup row BQ.allowedFields Hrow ∅) as (prepared & -> & _).
  by exists prepared.
Qed.

(** X1.  A row that is an object (or any value other than undefined and
    null) is prepared into an object that holds exactly the allow-listed
    columns: each one with the row's own value, [undefined] when the row
    lacks it, and no other field of the row. *)
Theorem prepare_row_allow_list (row : JsVal) :
  loose_neq_null row = true →
  ∃ prepared,
    BQ.prepare_row row = Normal (JObj prepared)
    ∧ ∀ field,
        prepared !! field
        = if bool_decide (field ∈ BQ.allowedFields) then Some (own_prop row field)
          else None.
Proof.
  intros Hrow. unfold BQ.prepare_row.
  destruct (copy_fields_lookup row BQ.allowedFields Hrow ∅) as (prepared & -> & Hlook).
  exists prepared. split; [reflexivity|]. intros field. rewrite Hlook.
  by rewrite lookup_empty.
Qed.

Lemma prepare_row_allow_list_witness :
  let row := JObj {[ "url" := JStr Scenario.a_url; "speedIndex" := JNum 12;
                     "blockedRequests" := JStr "ads"; "datetime" := JStr "now" ]} in
  ∃ prepared,
    BQ.prepare_row row = Normal (JObj prepared)
    ∧ prepared !! "url" = Some (JStr Scenario.a_url)
    ∧ prepared !! "mode" = Some JUndefined
    ∧ prepared !! "blockedRequests" = None
    ∧ prepared !! "datetime" = None.
Proof.
  intros row.
  destruct (prepare_row_allow_list row eq_refl) as (prepared & Hp & Hlook).
  exists prepared.
  split_and!; [exact Hp | exact (Hlook "url") | exact (Hlook "mode")
              | exact (Hlook "blockedRequests") | exact (Hlook "datetime")].
Defined.

Lemma mapC_app {A B} (f : A → completion B) (l1 l2 : list A) :
  mapC f (l1 ++ l2)
  = let* o1 := mapC f l1 in let* o2 := mapC f l2 in Normal (o1 ++ o2).
Proof.
  induction l1 as [|x l1 IH]; cbn [app mapC bindC].
  - by destruct (mapC f l2).
  - destruct (f x) as [y|e]; [cbn [bindC]|done]. rewrite IH.
    destruct (mapC f l1) as [o1|e]; [cbn [bindC]|done].
    by destruct (mapC f l2).
Qed.

Lemma mapC_prepare_total (rows : list JsVal) :
  Forall (λ row, loose_neq_null row = true) rows →
  ∃ prepared, mapC BQ.prepare_row rows = Normal prepared
              ∧ length prepared = length rows.
Proof.
  induction 1 as [|row rows Hrow _ IH].
  - by exists [].
  - destruct IH as (prepared & Hp & Hlen).
    destruct (prepare_row_total row Hrow) as (p & Hrowp).
    cbn [mapC]. rewrite Hrowp, Hp. cbn. exists (JObj p :: prepared).
    split; [done | cbn; by rewrite Hlen].
Qed.

(** X2.  When a row is undefined or null, and the rows before it are not,
    [writeResultStream] throws the TypeError of reading the first allow-listed
    column off that row; nothing has been handed to the storage client and
    nothing has been logged. *)
Theorem writeResultStream_nullish_row (ext : Externals) (ds tb : option string)
    (pre post : list JsVal) (row : JsVal) (w : World) :
  Forall (λ r, loose_neq_null r = true) pre →
  loose_neq_null row = false →
  BQ.writeResultStream ext ds tb (pre ++ row :: post) w
  = (Throw (TypeError_read "firstContentfulPaint" row), w).
Proof.
  intros Hpre Hrow. rewrite writeResultStream_eq, mapC_app.
  destruct (mapC_prepare_total pre Hpre) as (prepared & -> & _).
  cbn [bindC mapC]. unfold BQ.prepare_row, BQ.allowedFields.
  by rewrite (copy_fields_nullish row _ _ ∅ Hrow).
Qed.

Lemma writeResultStream_nullish_row_witness :
  BQ.writeResultStream (Scenario.all_ok 0) None None
    [Scenario.audits_ok; JUndefined; Scenario.audits_ok] Scenario.w0
  = (Throw (mkError "Cannot read property 'firstContentfulPaint' of undefined"),
     Scenario.w0).
Proof.
  apply (writeResultStream_nullish_row (Scenario.all_ok 0) None None
           [Scenario.audits_ok] [Scenario.audits_ok] JUndefined Scenario.w0).
  - repeat constructor.
  - reflexivity.
Defined.

(** X3.  When no row is undefined or null, [writeResultStream] returns
    normally whatever the insert does.  It hands the storage client one
    batch with one prepared row per row (an empty batch for no rows), logs
    "Data saved" or "BigQuery fail" followed by the error, and lets no time
    pass: the insert is not awaited. *)
Theorem writeResultStream_one_batch (ext : Externals) (ds tb : option string)
    (rows : list JsVal) (w : World) :
  Forall (λ r, loose_neq_null r = true) rows →
  ∃ prepared,
    mapC BQ.prepare_row rows = Normal prepared
    ∧ length prepared = length rows
    ∧ (BQ.writeResultStream ext ds tb rows w).1 = Normal tt
    ∧ inserted (BQ.writeResultStream ext ds tb rows w).2 = inserted w ++ [prepared]
    ∧ console (BQ.writeResultStream ext ds tb rows w).2
      = console w
        ++ match bigquery_insert ext w ds tb prepared with
           | Normal _ => ["Data saved"%string]
           | Throw err => ["BigQuery fail"%string; JSON_stringify_error ext err]
           end
    ∧ now (BQ.writeResultStream ext ds tb rows w).2 = now w
    ∧ engineCalls (BQ.writeResultStream ext ds tb rows w).2 = engineCalls w.
Proof.
  intros Hrows. destruct (mapC_prepare_total rows Hrows) as (prepared & Hp & Hlen).
  exists prepared. rewrite writeResultStream_eq, Hp. unfold BQ.insert_and_log.
  destruct (bigquery_insert ext w ds tb prepared); cbn; split_and!; try done.
  by rewrite <- app_assoc.
Qed.

Lemma writeResultStream_one_batch_witness :
  let failing := with_insert (Scenario.all_ok 0) (λ _ _ _ _, Throw (mkError "quota")) in
  ∃ prepared,
    length prepared = 2%nat
    ∧ (BQ.writeResultStream failing None None
         [Scenario.audits_ok; Scenario.audits_ok] Scenario.w0).1 = Normal tt
    ∧ inserted (BQ.writeResultStream failing None None
                  [Scenario.audits_ok; Scenario.audits_ok] Scenario.w0).2 = [prepared]
    ∧ console (BQ.writeResultStream failing None None
                 [Scenario.audits_ok; Scenario.audits_ok] Scenario.w0).2
      = ["BigQuery fail"%string; "quota"%string].
Proof.
  intros failing.
  destruct (writeResultStream_one_batch failing None None
              [Scenario.audits_ok; Scenario.audits_ok] Scenario.w0)
    as (prepared & _ & Hlen & Hn & Hins & Hcon & _).
  - repeat constructor.
  - exists prepared. split_and!; [exact Hlen | exact Hn | exact Hins | exact Hcon].
Defined.

(** ** More on the Result Formatter *)

Lemma reduce_fields_dom entries : ∀ audit res,
  loose_neq_null audit = true →
  ∃ res', reduce_fields entries audit res = Normal res'
          ∧ ∀ k, is_Some (res' !! k)
                 ↔ (k ∈ written_fields entries ∧ k ≠ "__proto__") ∨ is_Some (res !! k).
Proof.
  induction entries as [|keyVal rest IH]; intros audit res Ha.
  - exists res. split; [done|]. intros k. cbn. split; [by right|].
    by intros [[?%elem_of_nil _]|?].
  - rewrite reduce_fields_cons by done.
    destruct (IH audit
      (assign (assign res keyVal.1 (stored_value audit keyVal.2 "numericValue"))
         (keyVal.1 ++ "_score")%string (stored_value audit keyVal.2 "score")) Ha)
      as (res' & Hres & Hdom).
    exists res'. split; [done|]. intros k. rewrite Hdom. cbn [written_fields flat_map app].
    rewrite !elem_of_cons, !assign_is_Some. fold (written_fields rest).
    intuition (subst; auto).
Qed.

Lemma map_defined_lookup_count (format : nat → JsVal → completion JsVal)
    (audits : list JsVal) : ∀ it out i audit,
  map_defined format it audits = Normal out →
  audits !! i = Some audit →
  defined audit = true →
  ∃ v, out !! i = Some v
       ∧ format (it + length (List.filter defined (take i audits)))%nat audit = Normal v.
Proof.
  induction audits as [|x rest IH]; intros it out i audit Hfmt Hi Hd; [by destruct i|].
  cbn [map_defined] in Hfmt. fold (defined x) in Hfmt.
  destruct (defined x) eqn:Hx.
  - destruct (format it x) as [v|] eqn:Hv; [cbn [bindC] in Hfmt|done].
    destruct (map_defined format (S it) rest) as [out'|] eqn:Hrest; [|done].
    cbn in Hfmt. injection Hfmt as <-.
    destruct i as [|i]; cbn in Hi.
    + injection Hi as ->. exists v. cbn. by rewrite Nat.add_0_r.
    + destruct (IH _ _ _ _ Hrest Hi Hd) as (v' & ? & Hf). exists v'. split; [done|].
      cbn [take List.filter]. rewrite Hx. cbn [length].
      by replace (it + S (length (List.filter defined (take i rest))))%nat
        with (S it + length (List.filter defined (take i rest)))%nat by lia.
  - destruct (map_defined format it rest) as [out'|] eqn:Hrest; [|done].
    cbn in Hfmt. injection Hfmt as <-.
    destruct i as [|i]; cbn in Hi.
    + injection Hi as ->. congruence.
    + destruct (IH _ _ _ _ Hrest Hi Hd) as (v' & ? & Hf). exists v'. split; [done|].
      cbn [take List.filter]. by rewrite Hx.
Qed.

(** The record at a position, with the value of the counter it was built at. *)
Lemma lighthouse_record_at (ext : Externals) (a : Lighthouse.LighthouseAudit)
    (today : Z) (i : nat) (audit : JsVal) :
  Forall (λ raw, raw ≠ JNull) (Lighthouse.auditResults a) →
  Lighthouse.auditResults a !! i = Some audit →
  defined audit = true →
  ∃ out v,
    Lighthouse.getBQFormatResults_at ext a today = Normal out
    ∧ out !! i = Some v
    ∧ Lighthouse.format_audit ext a today
        (length (List.filter defined (take i (Lighthouse.auditResults a)))) audit
      = Normal v.
Proof.
  intros Hnull Hi Hd.
  destruct (formatter_total ext a today Hnull) as (out & Hout & _).
  destruct (map_defined_lookup_count _ _ _ _ _ _ Hout Hi Hd) as (v & Hv & Hf).
  by exists out, v.
Qed.

Lemma psi_formatter_total (ext : Externals) (a : PSI.PageSpeedInsightsAudit) (today : Z) :
  Forall (λ raw, raw ≠ JNull) (PSI.auditResults a) →
  ∃ out, PSI.getBQFormatResults_at ext a today = Normal out
         ∧ Forall2 formats (PSI.auditResults a) out.
Proof.
  intros H.
  apply (map_defined_positions (PSI.format_audit ext a today) _
           (psi_format_audit_total ext a today) H 0%nat).
Qed.

Lemma psi_record_at (ext : Externals) (a : PSI.PageSpeedInsightsAudit)
    (today : Z) (i : nat) (audit : JsVal) :
  Forall (λ raw, raw ≠ JNull) (PSI.auditResults a) →
  PSI.auditResults a !! i = Some audit →
  defined audit = true →
  ∃ out v,
    PSI.getBQFormatResults_at ext a today = Normal out
    ∧ out !! i = Some v
    ∧ PSI.format_audit ext a today
        (length (List.filter defined (take i (PSI.auditResults a)))) audit
      = Normal v.
Proof.
  intros Hnull Hi Hd.
  destruct (psi_formatter_total ext a today Hnull) as (out & Hout & _).
  destruct (map_defined_lookup_count _ _ _ _ _ _ Hout Hi Hd) as (v & Hv & Hf).
  by exists out, v.
Qed.

(** X4.  Every record of either formatter has all its fields, whatever the
    raw result holds: a field is present exactly when it is an output field
    of the mapping other than [__proto__], an output field followed by
    "_score", or one of the stamped fields (blockedRequests only in the
    browser-driven variant). *)
Theorem formatted_record_has_all_fields (ext : Externals) (today : Z) (i : nat)
    (audit : JsVal) :
  defined audit = true →
  (∀ a : Lighthouse.LighthouseAudit,
     Forall (λ raw, raw ≠ JNull) (Lighthouse.auditResults a) →
     Lighthouse.auditResults a !! i = Some audit →
     ∃ out record,
       Lighthouse.getBQFormatResults_at ext a today = Normal out
       ∧ out !! i = Some (JObj record)
       ∧ ∀ k, is_Some (record !! k)
              ↔ (k ∈ written_fields (Lighthouse.auditFieldMapping a)
                 ∧ k ≠ "__proto__")
                ∨ k ∈ lighthouse_stamped)
  ∧ (∀ a : PSI.PageSpeedInsightsAudit,
       Forall (λ raw, raw ≠ JNull) (PSI.auditResults a) →
       PSI.auditResults a !! i = Some audit →
       ∃ out record,
         PSI.getBQFormatResults_at ext a today = Normal out
         ∧ out !! i = Some (JObj record)
         ∧ ∀ k, is_Some (record !! k)
                ↔ (k ∈ written_fields (PSI.auditFieldMapping a) ∧ k ≠ "__proto__")
                  ∨ k ∈ psi_stamped).
Proof.
  intros Hd. split; intros a Hnull Hi.
  - pose proof (lookup_not_null _ _ _ Hnull Hi Hd) as Ha.
    destruct (lighthouse_record_at ext a today i audit Hnull Hi Hd)
      as (out & v & Hout & Hv & Hfmt).
    destruct (reduce_fields_dom (Lighthouse.auditFieldMapping a) audit ∅ Ha)
      as (res & Hres & Hdom).
    unfold Lighthouse.format_audit in Hfmt. rewrite Hres in Hfmt.
    cbn [bindC] in Hfmt. rewrite (get_prop_own _ _ Ha) in Hfmt. cbn [bindC] in Hfmt.
    injection Hfmt as <-. eexists out, _. split; [done|]. split; [done|].
    intros k. rewrite !lookup_insert_is_Some', Hdom, lookup_empty.
    unfold lighthouse_stamped. rewrite !elem_of_cons, elem_of_nil.
    split; [|intuition (subst; auto 10)]. intros H.
    repeat (destruct H as [H|H]; [try subst k; by auto 10|]). by destruct H.
  - pose proof (lookup_not_null _ _ _ Hnull Hi Hd) as Ha.
    destruct (psi_record_at ext a today i audit Hnull Hi Hd)
      as (out & v & Hout & Hv & Hfmt).
    destruct (reduce_fields_dom (PSI.auditFieldMapping a) audit ∅ Ha)
      as (res & Hres & Hdom).
    unfold PSI.format_audit in Hfmt. rewrite Hres in Hfmt.
    cbn [bindC] in Hfmt. rewrite (get_prop_own _ _ Ha) in Hfmt. cbn [bindC] in Hfmt.
    injection Hfmt as <-. eexists out, _. split; [done|]. split; [done|].
    intros k. rewrite !lookup_insert_is_Some', Hdom, lookup_empty.
    unfold psi_stamped. rewrite !elem_of_cons, elem_of_nil.
    split; [|intuition (subst; auto 10)]. intros H.
    repeat (destruct H as [H|H]; [try subst k; by auto 10|]). by destruct H.
Qed.

Lemma formatted_record_has_all_fields_witness :
  let audit := JObj {[ "url" := JStr Scenario.a_url ]} in
  let a := Lighthouse.mkLighthouseAudit [Scenario.a_url] [] PerfAuditConfig [audit]
             Scenario.mapping [JNum 0.5] in
  ∃ out record,
    Lighthouse.getBQFormatResults_at (Scenario.all_ok 0) a 1000 = Normal out
    ∧ out !! 0%nat = Some (JObj record)
    ∧ is_Some (record !! "speedIndex_score")
    ∧ is_Some (record !! "blockedRequests")
    ∧ ¬ is_Some (record !! "mode").
Proof.
  intros audit a.
  destruct (formatted_record_has_all_fields (Scenario.all_ok 0) 1000 0 audit eq_refl)
    as [HL _].
  destruct (HL a) as (out & record & Hout & Hrec & Hdom).
  - repeat constructor; discriminate.
  - reflexivity.
  - exists out, record. split_and!; [exact Hout | exact Hrec | | |].
    + apply Hdom. left. split; [|discriminate]. cbn. rewrite !elem_of_cons. auto.
    + apply Hdom. right. unfold lighthouse_stamped. rewrite !elem_of_cons. auto 10.
    + intros [[H _]|H]%Hdom.
      * cbn in H. repeat (apply elem_of_cons in H as [H|H]; [discriminate H|]).
        by apply elem_of_nil in H.
      * unfold lighthouse_stamped in H.
        repeat (apply elem_of_cons in H as [H|H]; [discriminate H|]).
        by apply elem_of_nil in H.
Defined.

(** X5.  The fields stamped after the reduce hold their stamp whatever the
    mapping assigns: url is the raw result's own url, blockedRequests the
    instance's patterns joined by commas, date, datetime and time are taken
    from the one clock reading of the call, and performanceScore is the
    score at the index counted over the defined raw results that precede the
    position, which is the position itself only when none of them is
    undefined. *)
Theorem stamped_fields_of_a_record (ext : Externals) (today : Z) (i : nat)
    (audit : JsVal) :
  defined audit = true →
  (∀ a : Lighthouse.LighthouseAudit,
     Forall (λ raw, raw ≠ JNull) (Lighthouse.auditResults a) →
     Lighthouse.auditResults a !! i = Some audit →
     ∃ out record,
       Lighthouse.getBQFormatResults_at ext a today = Normal out
       ∧ out !! i = Some (JObj record)
       ∧ record !! "performanceScore"
         = Some (default JUndefined
                   (Lighthouse.performanceScore a
                      !! length (List.filter defined (take i (Lighthouse.auditResults a)))))
       ∧ record !! "url" = Some (own_prop audit "url")
       ∧ record !! "blockedRequests"
         = Some (JStr (String.concat "," (Lighthouse.blockedRequestPatterns a)))
       ∧ record !! "date"
         = Some (BigQuery_date ext (String.substring 0 10 (toISOString ext today)))
       ∧ record !! "datetime" = Some (BigQuery_datetime ext (toISOString ext today))
       ∧ record !! "time"
         = Some (BigQuery_time ext (String.substring 11 12 (toISOString ext today))))
  ∧ (∀ a : PSI.PageSpeedInsightsAudit,
       Forall (λ raw, raw ≠ JNull) (PSI.auditResults a) →
       PSI.auditResults a !! i = Some audit →
       ∃ out record,
         PSI.getBQFormatResults_at ext a today = Normal out
         ∧ out !! i = Some (JObj record)
         ∧ record !! "performanceScore"
           = Some (default JUndefined
                     (PSI.performanceScore a
                        !! length (List.filter defined (take i (PSI.auditResults a)))))
         ∧ record !! "url" = Some (own_prop audit "url")
         ∧ record !! "date"
           = Some (BigQuery_date ext (String.substring 0 10 (toISOString ext today)))
         ∧ record !! "datetime" = Some (BigQuery_datetime ext (toISOString ext today))
         ∧ record !! "time"
           = Some (BigQuery_time ext (String.substring 11 12 (toISOString ext today)))).
Proof.
  intros Hd. split; intros a Hnull Hi.
  - pose proof (lookup_not_null _ _ _ Hnull Hi Hd) as Ha.
    destruct (lighthouse_record_at ext a today i audit Hnull Hi Hd)
      as (out & v & Hout & Hv & Hfmt).
    destruct (reduce_fields_total (Lighthouse.auditFieldMapping a) audit ∅ Ha)
      as (res & Hres & _).
    unfold Lighthouse.format_audit in Hfmt. rewrite Hres in Hfmt.
    cbn [bindC] in Hfmt. rewrite (get_prop_own _ _ Ha) in Hfmt. cbn [bindC] in Hfmt.
    injection Hfmt as <-. eexists out, _. split; [done|]. split; [done|].
    split_and!; repeat (rewrite lookup_insert_ne by done); by rewrite lookup_insert_eq.
  - pose proof (lookup_not_null _ _ _ Hnull Hi Hd) as Ha.
    destruct (psi_record_at ext a today i audit Hnull Hi Hd)
      as (out & v & Hout & Hv & Hfmt).
    destruct (reduce_fields_total (PSI.auditFieldMapping a) audit ∅ Ha)
      as (res & Hres & _).
    unfold PSI.format_audit in Hfmt. rewrite Hres in Hfmt.
    cbn [bindC] in Hfmt. rewrite (get_prop_own _ _ Ha) in Hfmt. cbn [bindC] in Hfmt.
    injection Hfmt as <-. eexists out, _. split; [done|]. split; [done|].
    split_and!; repeat (rewrite lookup_insert_ne by done); by rewrite lookup_insert_eq.
Qed.

Lemma stamped_fields_of_a_record_witness :
  let audit := JObj {[ "url" := JStr Scenario.b_url ]} in
  let a := Lighthouse.mkLighthouseAudit [] ["ads"; "fonts"]%string PerfAuditConfig
             [JUndefined; audit] [("url", "first-contentful-paint")]%string
             [JNum 0.5; JNum 0.7] in
  ∃ out record,
    Lighthouse.getBQFormatResults_at (Scenario.all_ok 0) a 1000 = Normal out
    ∧ out !! 1%nat = Some (JObj record)
    ∧ record !! "performanceScore" = Some (JNum 0.5)
    ∧ record !! "url" = Some (JStr Scenario.b_url)
    ∧ record !! "blockedRequests" = Some (JStr "ads,fonts")
    ∧ record !! "date" = Some (JObj {[ "value" := JStr "2021-03-04" ]})
    ∧ record !! "time" = Some (JObj {[ "value" := JStr "05:06:07.089" ]}).
Proof.
  intros audit a.
  destruct (stamped_fields_of_a_record (Scenario.all_ok 0) 1000 1 audit eq_refl)
    as [HL _].
  destruct (HL a) as (out & record & Hout & Hrec & Hps & Hurl & Hbr & Hdate & _ & Htime).
  - repeat constructor; discriminate.
  - reflexivity.
  - exists out, record.
    split_and!; [exact Hout | exact Hrec | exact Hps | exact Hurl | exact Hbr
                | exact Hdate | exact Htime].
Defined.

Lemma map_defined_throws (format : nat → JsVal → completion JsVal)
    (pre post : list JsVal) (bad : JsVal) (e : Error) :
  (∀ it audit, loose_neq_null audit = true →
     ∃ record, format it audit = Normal (JObj record)) →
  Forall (λ raw, raw ≠ JNull) pre →
  defined bad = true →
  (∀ it, format it bad = Throw e) →
  ∀ it, map_defined format it (pre ++ bad :: post) = Throw e.
Proof.
  intros Htotal Hpre Hbad Hthrow.
  induction Hpre as [|audit rest Hnull _ IH]; intros it.
  - cbn [app map_defined]. fold (defined bad). by rewrite Hbad, Hthrow.
  - cbn [app map_defined]. fold (defined audit).
    destruct (defined audit) eqn:Hd.
    + assert (Ha : loose_neq_null audit = true) by (by destruct audit).
      destruct (Htotal it audit Ha) as (record & ->). cbn [bindC]. by rewrite IH.
    + by rewrite IH.
Qed.

(** X6.  A raw result that is [null] passes the formatter's test (its typeof
    is "object"), and the formatter of either variant then throws the
    TypeError of the first property it reads off it; no list is returned,
    not even for the raw results before it. *)
Theorem formatter_throws_on_null (ext : Externals) (today : Z)
    (pre post : list JsVal) :
  Forall (λ raw, raw ≠ JNull) pre →
  (∀ a : Lighthouse.LighthouseAudit,
     Lighthouse.auditResults a = pre ++ JNull :: post →
     Lighthouse.getBQFormatResults_at ext a today
     = Throw (TypeError_read (first_read (Lighthouse.auditFieldMapping a)) JNull))
  ∧ (∀ a : PSI.PageSpeedInsightsAudit,
       PSI.auditResults a = pre ++ JNull :: post →
       PSI.getBQFormatResults_at ext a today
       = Throw (TypeError_read (first_read (PSI.auditFieldMapping a)) JNull)).
Proof.
  intros Hpre. split; intros a Hraw.
  - unfold Lighthouse.getBQFormatResults_at. rewrite Hraw.
    apply map_defined_throws; [apply lighthouse_format_audit_total | done | done |].
    intros it. unfold Lighthouse.format_audit.
    by destruct (Lighthouse.auditFieldMapping a) as [|[o r] rest].
  - unfold PSI.getBQFormatResults_at. rewrite Hraw.
    apply map_defined_throws; [apply psi_format_audit_total | done | done |].
    intros it. unfold PSI.format_audit.
    by destruct (PSI.auditFieldMapping a) as [|[o r] rest].
Qed.

Lemma formatter_throws_on_null_witness :
  Lighthouse.getBQFormatResults_at (Scenario.all_ok 0)
    (Lighthouse.mkLighthouseAudit [] [] PerfAuditConfig
       [Scenario.audits_ok; JNull] Scenario.mapping [JNum 0.5]) 1000
  = Throw (mkError "Cannot read property 'first-contentful-paint' of null").
Proof.
  destruct (formatter_throws_on_null (Scenario.all_ok 0) 1000 [Scenario.audits_ok] [])
    as [HL _].
  - repeat constructor; discriminate.
  - exact (HL (Lighthouse.mkLighthouseAudit [] [] PerfAuditConfig
                 [Scenario.audits_ok; JNull] Scenario.mapping [JNum 0.5]) eq_refl).
Defined.

(** X7.  The formatter of the remote-API variant keeps positions as the
    browser-driven one does: one output entry per raw result, a record where
    the raw result is defined and [undefined] where it is not. *)
Theorem psi_formatter_keeps_positions (ext : Externals)
    (a : PSI.PageSpeedInsightsAudit) (today : Z) :
  Forall (λ raw, raw ≠ JNull) (PSI.auditResults a) →
  ∃ out,
    PSI.getBQFormatResults_at ext a today = Normal out
    ∧ length out = length (PSI.auditResults a)
    ∧ Forall2 formats (PSI.auditResults a) out
    ∧ length (List.filter defined out)
      = length (List.filter defined (PSI.auditResults a)).
Proof.
  intros Hnull.
  destruct (psi_formatter_total ext a today Hnull) as (out & Hout & Hpos).
  exists out. split_and!; [done | | done | by apply formats_count].
  symmetry. by eapply Forall2_length.
Qed.

Lemma psi_formatter_keeps_positions_witness :
  let a := PSI.mkPageSpeedInsightsAudit [] None [JUndefined; Scenario.audits_ok]
             Scenario.mapping [JNum 0.5] in
  ∃ out,
    PSI.getBQFormatResults_at (Scenario.all_ok 0) a 1000 = Normal out
    ∧ length out = 2%nat
    ∧ out !! 0%nat = Some JUndefined.
Proof.
  intros a.
  destruct (psi_formatter_keeps_positions (Scenario.all_ok 0) a 1000)
    as (out & Hout & Hlen & _).
  - repeat constructor; discriminate.
  - exists out. split_and!; [exact Hout | exact Hlen |].
    vm_compute in Hout. injection Hout as <-. reflexivity.
Defined.

(** ** More on the Batch Audit Orchestrator *)

Section OrchestratorTrace.
Context (ext : Externals).

Lemma on_metrics_tagged url metrics v :
  Lighthouse.on_metrics url metrics = Normal v →
  v = JUndefined
  ∨ ∃ o p, v = JObj {[ "metrics" := JObj (<["url" := JStr url]> o); "performance" := p ]}.
Proof.
  unfold Lighthouse.on_metrics.
  destruct (get_prop metrics "lhr") as [lhr|]; [cbn [bindC]|done].
  destruct (get_prop lhr "audits") as [audits|]; [cbn [bindC]|done].
  destruct (get_prop lhr "categories") as [categories|]; [cbn [bindC]|done].
  destruct (get_prop categories "performance") as [category|]; [cbn [bindC]|done].
  destruct (get_prop category "score") as [performance|]; [cbn [bindC]|done].
  destruct (tag_audits_cases url audits performance)
    as [[_ ->]|[(o & _ & ->)|[_ ->]]]; intros [= <-]; eauto.
Qed.

Lemma performAudit_trace url page (s : Lighthouse.St) :
  let out := Lighthouse.performAudit ext url page
               (Lighthouse.blockedRequestPatterns s.1) s in
  out.2.1 = s.1
  ∧ pagesOpened out.2.2 = pagesOpened s.2
  ∧ (∃ calls, engineCalls out.2.2 = engineCalls s.2 ++ calls
              ∧ Forall (lighthouse_call_of s.1 url) calls
              ∧ (is_normal out.1 = true → length calls = 1%nat))
  ∧ (∀ v, out.1 = Normal v →
       v = JUndefined
       ∨ ∃ o p, v = JObj {[ "metrics" := JObj (<["url" := JStr url]> o);
                            "performance" := p ]}).
Proof.
  destruct (Lighthouse.debugging_port page) as [port|e] eqn:Hport.
  - rewrite (lighthouse_performAudit_eq ext url page _ s port Hport). cbv zeta.
    set (call := LighthouseCall url _ _).
    assert (Hcalls : ∀ b : bool, ∃ calls,
              engineCalls (elapse ext (log_call call s.2)) = engineCalls s.2 ++ calls
              ∧ Forall (lighthouse_call_of s.1 url) calls
              ∧ (b = true → length calls = 1%nat)).
    { intros b. exists [call]. split_and!; [done | | done].
      constructor; [by exists port | constructor]. }
    destruct (lighthouse ext s.2 url _ _) as [metrics|e]; cbn [fst snd].
    + destruct (Lighthouse.on_metrics url metrics) as [v|e] eqn:Hm; cbn [fst snd].
      * split4; [done | done | apply Hcalls |].
        intros v' [= <-]. by eapply on_metrics_tagged.
      * split4; [done | done | apply Hcalls | done].
    + split4; [done | done | apply Hcalls | done].
  - rewrite (lighthouse_performAudit_no_port ext url page _ s e Hport).
    cbn. split4; [done | done | | done].
    exists []. rewrite app_nil_r. by split_and!.
Qed.

Lemma tagged_result_props (o : gmap string JsVal) (url : string) (p : JsVal) :
  tagged_with url (JObj (<["url" := JStr url]> o)).
Proof. exists (<["url" := JStr url]> o). split; [done|]. apply lookup_insert_eq. Qed.

Lemma audit_and_push_trace browser url (s : Lighthouse.St) :
  let out := Lighthouse.audit_and_push ext browser url s in
  pagesOpened out.2.2 = S (pagesOpened s.2)
  ∧ (∃ calls, engineCalls out.2.2 = engineCalls s.2 ++ calls
              ∧ Forall (lighthouse_call_of s.1 url) calls
              ∧ (is_normal out.1 = true → length calls = 1%nat))
  ∧ (is_normal out.1 = true →
     ∃ raw, Lighthouse.auditResults out.2.1 = Lighthouse.auditResults s.1 ++ [raw]
            ∧ tagged_with url raw).
Proof.
  destruct s as [a w].
  unfold Lighthouse.audit_and_push, bind, Lighthouse.world, await, Lighthouse.this,
    gets, liftC, Lighthouse.update, modify.
  cbn [fst snd].
  destruct (browser_newPage ext w browser) as [page|e]; cbn [fst snd].
  2:{ split_and!; [done | | done]. exists []. rewrite app_nil_r. by split_and!. }
  set (s1 := (a, elapse ext (log_page w))).
  pose proof (performAudit_trace url page s1) as (Hinst & Hpages & Hcalls & Hshape).
  change (Lighthouse.blockedRequestPatterns s1.1)
    with (Lighthouse.blockedRequestPatterns a) in *.
  destruct (Lighthouse.performAudit ext url page _ s1) as [[results|e] [a2 w2]].
  2:{ cbn [fst snd] in *. subst a2. split_and!; [done | | done].
      destruct Hcalls as (calls & ? & ? & ?). exists calls. by split_and!. }
  cbn [fst snd] in *. subst a2.
  destruct (Hshape results eq_refl) as [->|(o & p & ->)].
  - cbn. split_and!; [done | | done].
    destruct Hcalls as (calls & ? & ? & ?). exists calls. by split_and!.
  - destruct (result_props (JObj (<["url" := JStr url]> o)) p) as [-> ->].
    cbn. split_and!; [done | | ].
    + destruct Hcalls as (calls & ? & ? & ?). exists calls. by split_and!.
    + intros _. eexists. split; [reflexivity|]. by apply tagged_result_props.
Qed.

Lemma run_loop_trace browser urls : ∀ s : Lighthouse.St,
  let out := for_each (Lighthouse.run_iteration ext browser) urls s in
  (pagesOpened out.2.2 ≤ pagesOpened s.2 + length urls)%nat
  ∧ ∃ calls new,
      engineCalls out.2.2 = engineCalls s.2 ++ calls
      ∧ Forall (λ c, ∃ url, url ∈ urls ∧ lighthouse_call_of s.1 url c) calls
      ∧ Lighthouse.auditResults out.2.1 = Lighthouse.auditResults s.1 ++ new
      ∧ (is_normal out.1 = true →
         pagesOpened out.2.2 = (pagesOpened s.2 + length urls)%nat
         ∧ Forall2 (lighthouse_call_of s.1) urls calls
         ∧ Forall2 tagged_with urls new).
Proof.
  induction urls as [|url rest IH]; intros s.
  - cbn. split; [lia|]. exists [], []. rewrite !app_nil_r.
    split_and!; done.
  - cbn [for_each]. unfold bind. rewrite run_iteration_eq.
    pose proof (audit_and_push_spec ext browser url s) as (Hset & _ & _ & Hres).
    pose proof (audit_and_push_trace browser url s) as (Hpages & Hcalls & Htag).
    destruct (Lighthouse.audit_and_push ext browser url s) as [[[]|e] s1];
      cbn [fst snd is_normal] in *.
    + destruct (IH s1) as (Hp' & calls' & new' & Hc' & Hshape' & Hn' & Hnorm').
      destruct Hcalls as (calls & Hc & Hshape & Hone). specialize (Hone eq_refl).
      destruct (Htag eq_refl) as (raw & Hn & Hraw).
      assert (Hsame : ∀ u c, lighthouse_call_of s1.1 u c → lighthouse_call_of s.1 u c).
      { intros u c [port ->]. exists port. destruct Hset as (_ & -> & -> & _). done. }
      split; [cbn; lia|].
      exists (calls ++ calls'), (raw :: new'). split_and!.
      * rewrite Hc', Hc. by rewrite app_assoc.
      * apply Forall_app. split.
        -- eapply Forall_impl; [exact Hshape|]. intros c Hcall. exists url.
           split; [by left | done].
        -- eapply Forall_impl; [exact Hshape'|]. intros c (u & Hu & Hcall).
           exists u. split; [by right | by apply Hsame].
      * rewrite Hn', Hn. by rewrite <- app_assoc.
      * intros Hok. destruct (Hnorm' Hok) as (Hpg & Hcs & Htags).
        split_and!; [cbn; lia | | by constructor].
        destruct calls as [|c [|c' calls]]; try discriminate Hone.
        apply Forall_cons in Hshape as [Hcall _]. cbn. constructor; [done|].
        eapply Forall2_impl; [exact Hcs|]. intros u c0. apply Hsame.
    + destruct Hcalls as (calls & Hc & Hshape & _). destruct Hres as [Hn _].
      split; [cbn; lia|]. exists calls, []. rewrite !app_nil_r.
      split_and!; try done.
      eapply Forall_impl; [exact Hshape|]. intros c Hcall. exists url.
      split; [by left | done].
Qed.

End OrchestratorTrace.

Lemma run_loop_lengths (ext : Externals) browser urls : ∀ s : Lighthouse.St,
  ∃ new,
    Lighthouse.auditResults
      (for_each (Lighthouse.run_iteration ext browser) urls s).2.1
    = Lighthouse.auditResults s.1 ++ new
    ∧ (length new ≤ length urls)%nat.
Proof.
  induction urls as [|url rest IH]; intros s.
  - exists []. cbn. by rewrite app_nil_r.
  - cbn [for_each]. unfold bind. rewrite run_iteration_eq.
    pose proof (audit_and_push_spec ext browser url s) as (_ & _ & _ & Hres).
    destruct (Lighthouse.audit_and_push ext browser url s) as [[[]|e] s1];
      cbn [fst snd is_normal] in *.
    + destruct Hres as (o & p & Hn & _).
      destruct (IH s1) as (new & Hnew & Hle).
      exists (JObj o :: new). rewrite Hnew, Hn, <- app_assoc. split; [done | cbn; lia].
    + destruct Hres as [Hn _]. exists []. rewrite app_nil_r. split; [done | cbn; lia].
Qed.

(** X8.  Whether [run] returns or throws, it has only appended to the two
    accumulators, as many scores as raw results, and every raw result it
    appended is an object: an instance whose scores and raw results are
    aligned stays so, and [run] never stores [undefined] or [null]. *)
Theorem run_keeps_accumulators_aligned (ext : Externals)
    (a : Lighthouse.LighthouseAudit) (w : World) :
  ∃ new scores,
    Lighthouse.auditResults (Lighthouse.run ext (a, w)).2.1
    = Lighthouse.auditResults a ++ new
    ∧ Lighthouse.performanceScore (Lighthouse.run ext (a, w)).2.1
      = Lighthouse.performanceScore a ++ scores
    ∧ length scores = length new
    ∧ (length new ≤ length (Lighthouse.urls a))%nat
    ∧ Forall (λ raw, is_object raw = true) new.
Proof.
  pose proof (run_spec ext a w)
    as (_ & _ & calls & new & scores & Hc & Hn & Hs & Hobj & Hlen & _ & _).
  exists new, scores. split_and!; try done.
  rewrite run_eq in Hn.
  destruct (puppeteer_launch ext w) as [browser|e].
  - pose proof (run_loop_lengths ext browser (Lighthouse.urls a) (a, elapse ext w))
      as (new4 & Hn4 & Hle).
    destruct (for_each _ _ _) as [[[]|e] s]; cbn [fst snd] in *;
      rewrite Hn4 in Hn; apply app_inv_head in Hn; by subst.
  - cbn in Hn. rewrite <- (app_nil_r (Lighthouse.auditResults a)) in Hn at 1.
    apply app_inv_head in Hn. subst. cbn. lia.
Qed.

(** X9.  When the browser cannot be launched, [run] throws the launch error
    as it is, with no URL appended and before any page is opened or any
    engine call made; the handler answers 500 with that message for every
    request. *)
Theorem launch_failure_is_not_wrapped (ext : Externals) (w : World) (e : Error) :
  puppeteer_launch ext w = Throw e →
  (∀ a, Lighthouse.run ext (a, w) = (Throw e, (a, elapse ext w)))
  ∧ (∀ payload,
       App.performAudit ext payload w
       = (Normal (App.mkResponse 500 (App.JsonError 500 (message e))), elapse ext w)).
Proof.
  intros Hlaunch.
  assert (Hrun : ∀ a, Lighthouse.run ext (a, w) = (Throw e, (a, elapse ext w))).
  { intros a. by rewrite run_eq, Hlaunch. }
  split; [done|]. intros payload.
  rewrite performAudit_eq, performLightouseAudit_eq. cbv zeta. by rewrite Hrun.
Qed.

Lemma launch_failure_is_not_wrapped_witness :
  let e := Scenario.all_ok 0 in
  let no_browser :=
    mkExternals (λ _, Throw (mkError "Failed to launch chrome"))
      (browser_newPage e) (lighthouse e) (psi e) (bigquery_insert e)
      (tasks_createTask e) (latency e) (toISOString e) (BigQuery_date e)
      (BigQuery_datetime e) (BigQuery_time e) (JSON_stringify_error e)
      (JSON_stringify_payload e) (base64 e) (queuePath e) (auditResultsMapping e)
      (process_env e) in
  App.performAudit no_browser
    (App.mkAuditBody [Scenario.a_url] None None JUndefined (JBool true)) Scenario.w0
  = (Normal (App.mkResponse 500 (App.JsonError 500 "Failed to launch chrome")),
     Scenario.w0).
Proof.
  intros e no_browser.
  destruct (launch_failure_is_not_wrapped no_browser Scenario.w0
              (mkError "Failed to launch chrome") eq_refl) as [_ H].
  exact (H (App.mkAuditBody [Scenario.a_url] None None JUndefined (JBool true))).
Defined.

(** X10.  When the Audit Runner resolves with [undefined] for the first URL
    (an answer without audit items), [run] does not store an undefined raw
    result: reading the performance of the result throws, [run] rethrows
    that TypeError with the URL appended, and the accumulators are as they
    were. *)
Theorem undefined_audit_aborts_run (ext : Externals) (a : Lighthouse.LighthouseAudit)
    (w : World) (browser : Browser) (url : string) (rest : list string)
    (page : Page) (port : string) (metrics : JsVal) :
  puppeteer_launch ext w = Normal browser →
  Lighthouse.urls a = url :: rest →
  browser_newPage ext (elapse ext w) browser = Normal page →
  Lighthouse.debugging_port page = Normal port →
  lighthouse ext (elapse ext (log_page (elapse ext w))) url
    (mkLHOptions (Lighthouse.blockedRequestPatterns a) port) (Lighthouse.auditConfig a)
  = Normal metrics →
  Lighthouse.on_metrics url metrics = Normal JUndefined →
  (Lighthouse.run ext (a, w)).1
  = Throw (mkError (message (TypeError_read "performance" JUndefined)
                     ++ " on " ++ url)%string)
  ∧ (Lighthouse.run ext (a, w)).2.1 = a.
Proof.
  intros Hlaunch Hurls Hpage Hport Hlh Hm.
  rewrite run_eq, Hlaunch, Hurls. cbn [for_each]. unfold bind.
  rewrite run_iteration_eq.
  unfold Lighthouse.audit_and_push, bind, Lighthouse.world, await, Lighthouse.this, gets.
  cbn [fst snd]. rewrite Hpage. cbn [fst snd].
  rewrite (lighthouse_performAudit_eq ext url page _ _ port Hport). cbv zeta.
  cbn [fst snd]. rewrite Hlh, Hm. by cbn.
Qed.

Lemma undefined_audit_aborts_run_witness :
  let ext := Scenario.with_engine (λ _, Normal Scenario.lh_no_audits) in
  let a := Lighthouse.constructor [Scenario.a_url; Scenario.b_url] None PerfAuditConfig
             Scenario.mapping in
  (Lighthouse.run ext (a, Scenario.w0)).1
  = Throw (mkError
             "Cannot read property 'performance' of undefined on https://a.example")
  ∧ (Lighthouse.run ext (a, Scenario.w0)).2.1 = a.
Proof.
  intros ext a.
  apply (undefined_audit_aborts_run ext a Scenario.w0 Scenario.the_browser
           Scenario.a_url [Scenario.b_url] (mkPage Scenario.the_browser) "9222"%string
           Scenario.lh_no_audits); reflexivity.
Defined.

Lemma run_returns_tagged (ext : Externals) (a : Lighthouse.LighthouseAudit)
    (w : World) (r : list JsVal) (s' : Lighthouse.St) :
  Lighthouse.run ext (a, w) = (Normal r, s') →
  ∃ new,
    r = Lighthouse.auditResults a ++ new
    ∧ Lighthouse.auditResults s'.1 = r
    ∧ Forall2 tagged_with (Lighthouse.urls a) new.
Proof.
  rewrite run_eq.
  destruct (puppeteer_launch ext w) as [browser|e]; [|discriminate].
  pose proof (run_loop_trace ext browser (Lighthouse.urls a) (a, elapse ext w))
    as (_ & calls & new & _ & _ & Hn & Hnorm).
  destruct (for_each _ _ _) as [[[]|e] s]; cbn [fst snd is_normal] in *; [|discriminate].
  intros [= <- <-]. destruct (Hnorm eq_refl) as (_ & _ & Htags).
  exists new. by split_and!.
Qed.

(** X11.  A [run] that returns has, for every URL in order, opened one page,
    made one engine call for that URL with the instance's blocked patterns
    and audit configuration, and appended one raw result tagged with that
    URL; the list it returns is the instance's accumulated list. *)
Theorem successful_run_trace (ext : Externals) (a : Lighthouse.LighthouseAudit)
    (w : World) (r : list JsVal) (s' : Lighthouse.St) :
  Lighthouse.run ext (a, w) = (Normal r, s') →
  ∃ calls new,
    r = Lighthouse.auditResults a ++ new
    ∧ Lighthouse.auditResults s'.1 = r
    ∧ Forall2 tagged_with (Lighthouse.urls a) new
    ∧ engineCalls s'.2 = engineCalls w ++ calls
    ∧ Forall2 (lighthouse_call_of a) (Lighthouse.urls a) calls
    ∧ pagesOpened s'.2 = (pagesOpened w + length (Lighthouse.urls a))%nat.
Proof.
  rewrite run_eq.
  destruct (puppeteer_launch ext w) as [browser|e]; [|discriminate].
  pose proof (run_loop_trace ext browser (Lighthouse.urls a) (a, elapse ext w))
    as (_ & calls & new & Hc & _ & Hn & Hnorm).
  destruct (for_each _ _ _) as [[[]|e] s]; cbn [fst snd is_normal] in *; [|discriminate].
  intros [= <- <-]. destruct (Hnorm eq_refl) as (Hp & Hcs & Htags).
  exists calls, new. by split_and!.
Qed.

Lemma successful_run_trace_witness :
  let ext := Scenario.all_ok 0 in
  let a := Lighthouse.constructor [Scenario.a_url; Scenario.b_url] (Some ["ads"%string])
             DesktopConfig Scenario.mapping in
  ∃ r s',
    Lighthouse.run ext (a, Scenario.w0) = (Normal r, s')
    ∧ Forall2 tagged_with [Scenario.a_url; Scenario.b_url] r
    ∧ pagesOpened s'.2 = 2%nat
    ∧ engineCalls s'.2
      = [LighthouseCall Scenario.a_url (mkLHOptions ["ads"%string] "9222") DesktopConfig;
         LighthouseCall Scenario.b_url (mkLHOptions ["ads"%string] "9222") DesktopConfig].
Proof.
  intros ext a.
  set (s' := (Lighthouse.run ext (a, Scenario.w0)).2).
  destruct (successful_run_trace ext a Scenario.w0 (Lighthouse.auditResults s'.1) s')
    as (calls & new & Hr & _ & Htags & _ & _ & Hp).
  - vm_compute. reflexivity.
  - exists (Lighthouse.auditResults s'.1), s'.
    split_and!; [by vm_compute | | exact Hp | by vm_compute].
    rewrite Hr. exact Htags.
Defined.

(** ** The remote-API variant of the Orchestrator *)

Section PSIOrchestrator.
Context (ext : Externals).

Lemma psi_on_metrics_tagged url metrics v :
  PSI.on_metrics url metrics = Normal v →
  v = JUndefined
  ∨ ∃ o p, v = JObj {[ "metrics" := JObj (<["url" := JStr url]> o); "performance" := p ]}.
Proof.
  unfold PSI.on_metrics.
  destruct (get_prop metrics "data") as [data|]; [cbn [bindC]|done].
  destruct (get_prop data "lighthouseResult") as [lhr|]; [cbn [bindC]|done].
  destruct (get_prop lhr "audits") as [audits|]; [cbn [bindC]|done].
  destruct (get_prop lhr "categories") as [categories|]; [cbn [bindC]|done].
  destruct (get_prop categories "performance") as [category|]; [cbn [bindC]|done].
  destruct (get_prop category "score") as [performance|]; [cbn [bindC]|done].
  destruct (tag_audits_cases url audits performance)
    as [[_ ->]|[(o & _ & ->)|[_ ->]]]; intros [= <-]; eauto.
Qed.

(** One iteration of the loop: the engine is called exactly once, and both
    accumulators grow by one entry or neither does. *)
Lemma psi_audit_and_push_spec url (s : PSI.St) :
  let out := PSI.audit_and_push ext url s in
  psi_same_setup out.2.1 s.1
  ∧ out.2.2 = elapse ext (log_call (PSICall url (PSI.psi_options ext (PSI.mode s.1))) s.2)
  ∧ (if is_normal out.1
     then ∃ raw p,
            PSI.auditResults out.2.1 = PSI.auditResults s.1 ++ [raw]
            ∧ tagged_with url raw
            ∧ PSI.performanceScore out.2.1 = PSI.performanceScore s.1 ++ [p]
     else PSI.auditResults out.2.1 = PSI.auditResults s.1
          ∧ PSI.performanceScore out.2.1 = PSI.performanceScore s.1).
Proof.
  destruct s as [a w].
  unfold PSI.audit_and_push, bind, PSI.this, gets, liftC, PSI.update, modify.
  cbn [fst snd]. rewrite psi_performAudit_eq. cbv zeta. cbn [fst snd].
  destruct (psi ext w url _) as [metrics|e]; [|by cbn].
  destruct (PSI.on_metrics url metrics) as [v|e] eqn:Hm; [|by cbn].
  destruct (psi_on_metrics_tagged url metrics v Hm) as [->|(o & p & ->)]; [by cbn|].
  destruct (result_props (JObj (<["url" := JStr url]> o)) p) as [-> ->].
  cbn. split; [done|]. split; [done|].
  eexists _, p. split; [done|]. split; [by apply tagged_result_props | done].
Qed.

Lemma psi_run_iteration_eq url (s : PSI.St) :
  PSI.run_iteration ext url s
  = match PSI.audit_and_push ext url s with
    | (Normal x, s') => (Normal x, s')
    | (Throw e, s') => (Throw (mkError (message e ++ " on " ++ url)%string), s')
    end.
Proof. reflexivity. Qed.

Lemma psi_run_eq (a : PSI.PageSpeedInsightsAudit) (w : World) :
  PSI.run ext (a, w)
  = match for_each (PSI.run_iteration ext) (PSI.urls a) (a, w) with
    | (Normal _, s) => (Normal (PSI.auditResults s.1), s)
    | (Throw e, s) => (Throw e, s)
    end.
Proof.
  unfold PSI.run, bind, PSI.this, gets. cbn [fst snd].
  by destruct (for_each _ _ _) as [[[]|e] s].
Qed.

Lemma psi_run_loop_spec urls : ∀ s : PSI.St,
  let out := for_each (PSI.run_iteration ext) urls s in
  psi_same_setup out.2.1 s.1
  ∧ ∃ audited new scores,
      engineCalls out.2.2
      = engineCalls s.2
        ++ map (λ url, PSICall url (PSI.psi_options ext (PSI.mode s.1))) audited
      ∧ audited `prefix_of` urls
      ∧ PSI.auditResults out.2.1 = PSI.auditResults s.1 ++ new
      ∧ PSI.performanceScore out.2.1 = PSI.performanceScore s.1 ++ scores
      ∧ length scores = length new
      ∧ (length new ≤ length audited)%nat
      ∧ (is_normal out.1 = true → audited = urls ∧ Forall2 tagged_with urls new).
Proof.
  induction urls as [|url rest IH]; intros s.
  - cbn. split; [done|]. exists [], [], []. cbn. rewrite !app_nil_r.
    split_and!; done.
  - cbn [for_each]. unfold bind. rewrite psi_run_iteration_eq.
    pose proof (psi_audit_and_push_spec url s) as (Hset & Hw & Hres).
    destruct (PSI.audit_and_push ext url s) as [[[]|e] s1];
      cbn [fst snd is_normal] in *.
    + destruct (IH s1) as (Hset' & audited & new & scores & Hc & Hpre & Hn & Hs & Hlen
                           & Hle & Hnorm).
      destruct Hres as (raw & p & Hraw & Htag & Hp).
      destruct Hset as (Hu & Hmode & Hmap). destruct Hset' as (Hu' & Hmode' & Hmap').
      split; [split_and!; congruence|].
      exists (url :: audited), (raw :: new), (p :: scores). split_and!.
      * rewrite Hc, Hw, Hmode. cbn. by rewrite <- app_assoc.
      * by apply prefix_cons.
      * rewrite Hn, Hraw. by rewrite <- app_assoc.
      * rewrite Hs, Hp. by rewrite <- app_assoc.
      * cbn. by rewrite Hlen.
      * cbn. lia.
      * intros Hok. destruct (Hnorm Hok) as [-> Htags]. split; [done | by constructor].
    + destruct Hres as [Hn Hs]. split; [done|].
      exists [url], [], []. rewrite !app_nil_r. split_and!; try done.
      * by rewrite Hw.
      * by exists rest.
      * cbn. lia.
Qed.

End PSIOrchestrator.

(** X12.  As its sibling, [PageSpeedInsightsAudit.run] aborts at the first
    failure: when the remote API is rejected for the URL at index [j] after
    the URLs before it were audited, [run] throws "PSI Audit error: ", the
    API's message, " on " and the URL, and the API has been called for the
    URLs up to index [j] and for none after it. *)
Theorem psi_run_stops_at_first_rejection (ext : Externals)
    (a : PSI.PageSpeedInsightsAudit) (w : World) (j : nat) (url : string)
    (s : PSI.St) (e : Error) :
  PSI.urls a !! j = Some url →
  for_each (PSI.run_iteration ext) (take j (PSI.urls a)) (a, w) = (Normal tt, s) →
  psi ext s.2 url (PSI.psi_options ext (PSI.mode a)) = Throw e →
  (PSI.run ext (a, w)).1
  = Throw (mkError ("PSI Audit error: " ++ message e ++ " on " ++ url)%string)
  ∧ engineCalls (PSI.run ext (a, w)).2.2
    = engineCalls w
      ++ map (λ url, PSICall url (PSI.psi_options ext (PSI.mode a)))
           (take (S j) (PSI.urls a))
  ∧ length (PSI.auditResults (PSI.run ext (a, w)).2.1)
    = (length (PSI.auditResults a) + j)%nat.
Proof.
  intros Hj Hbefore Hfail.
  pose proof (psi_run_loop_spec ext (take j (PSI.urls a)) (a, w))
    as (Hset & audited & new & scores & Hc & _ & Hn & _ & _ & _ & Hnorm).
  rewrite Hbefore in Hset, Hc, Hn, Hnorm. cbn [fst snd is_normal] in *.
  destruct (Hnorm eq_refl) as [-> Htags]. destruct Hset as (_ & Hmode & _).
  assert (Hstep : PSI.audit_and_push ext url s
                  = (Throw (prefixed "PSI Audit error: " e),
                     (s.1, elapse ext (log_call
                        (PSICall url (PSI.psi_options ext (PSI.mode a))) s.2)))).
  { unfold PSI.audit_and_push, bind, PSI.this, gets. cbn [fst snd].
    rewrite psi_performAudit_eq. cbv zeta. rewrite Hmode, Hfail. done. }
  assert (Hrun : PSI.run ext (a, w)
                 = (Throw (mkError (message (prefixed "PSI Audit error: " e)
                                    ++ " on " ++ url)%string),
                    (s.1, elapse ext (log_call
                       (PSICall url (PSI.psi_options ext (PSI.mode a))) s.2)))).
  { rewrite psi_run_eq.
    rewrite <- (take_drop_middle _ _ _ Hj) at 1.
    rewrite for_each_app, Hbefore. cbn [for_each]. unfold bind.
    by rewrite psi_run_iteration_eq, Hstep. }
  rewrite Hrun. cbn [fst snd]. split_and!.
  - reflexivity.
  - cbn. rewrite Hc, <- app_assoc. f_equal.
    rewrite (take_S_r _ _ _ Hj), map_app. done.
  - rewrite Hn, length_app. f_equal.
    rewrite <- (Forall2_length _ _ _ Htags), length_take.
    apply lookup_lt_Some in Hj. lia.
Qed.

Lemma psi_run_stops_at_first_rejection_witness :
  let ext := Scenario.with_engine
               (λ url, if String.eqb url Scenario.b_url
                       then Throw (mkError "quota exceeded")
                       else Normal (Scenario.psi_of
                                      (JObj {[ "audits" := Scenario.audits_ok;
                                               "categories" := Scenario.categories_ok ]}))) in
  let a := PSI.constructor [Scenario.a_url; Scenario.b_url; Scenario.c_url]
             (Some "desktop"%string) Scenario.mapping in
  (PSI.run ext (a, Scenario.w0)).1
  = Throw (mkError "PSI Audit error: quota exceeded on https://b.example")
  ∧ map call_url (engineCalls (PSI.run ext (a, Scenario.w0)).2.2)
    = [Scenario.a_url; Scenario.b_url].
Proof.
  intros ext a.
  set (s := (for_each (PSI.run_iteration ext) (take 1 (PSI.urls a)) (a, Scenario.w0)).2).
  destruct (psi_run_stops_at_first_rejection ext a Scenario.w0 1 Scenario.b_url s
              (mkError "quota exceeded")) as (Hrun & Hcalls & _).
  - reflexivity.
  - vm_compute. reflexivity.
  - reflexivity.
  - split; [exact Hrun|]. rewrite Hcalls. reflexivity.
Defined.

(** X13.  Whether [PageSpeedInsightsAudit.run] returns or throws, it has
    called the remote API once for each URL of a prefix of the URL list, in
    order and with the same options every time, and it has appended to the
    two accumulators only, as many scores as raw results.  When it returns,
    the prefix is the whole list and the raw result appended for each URL is
    tagged with that URL. *)
Theorem psi_run_trace (ext : Externals) (a : PSI.PageSpeedInsightsAudit) (w : World) :
  ∃ audited new scores,
    engineCalls (PSI.run ext (a, w)).2.2
    = engineCalls w ++ map (λ url, PSICall url (PSI.psi_options ext (PSI.mode a))) audited
    ∧ audited `prefix_of` PSI.urls a
    ∧ PSI.auditResults (PSI.run ext (a, w)).2.1 = PSI.auditResults a ++ new
    ∧ PSI.performanceScore (PSI.run ext (a, w)).2.1 = PSI.performanceScore a ++ scores
    ∧ length scores = length new
    ∧ (∀ r, (PSI.run ext (a, w)).1 = Normal r →
         r = PSI.auditResults a ++ new
         ∧ audited = PSI.urls a
         ∧ Forall2 tagged_with (PSI.urls a) new).
Proof.
  pose proof (psi_run_loop_spec ext (PSI.urls a) (a, w))
    as (_ & audited & new & scores & Hc & Hpre & Hn & Hs & Hlen & _ & Hnorm).
  rewrite psi_run_eq.
  destruct (for_each _ _ _) as [[[]|e] s]; cbn [fst snd is_normal] in *;
    exists audited, new, scores; split_and!; try done.
  intros r [= <-]. destruct (Hnorm eq_refl). by split_and!.
Qed.

Lemma psi_run_trace_witness :
  let a := PSI.constructor [Scenario.a_url; Scenario.b_url] (Some "all"%string)
             Scenario.mapping in
  ∃ r,
    (PSI.run (Scenario.all_ok 0) (a, Scenario.w0)).1 = Normal r
    ∧ Forall2 tagged_with [Scenario.a_url; Scenario.b_url] r
    ∧ engineCalls (PSI.run (Scenario.all_ok 0) (a, Scenario.w0)).2.2
      = [PSICall Scenario.a_url (mkPSIOptions "mobile" None (Some "true"%string));
         PSICall Scenario.b_url (mkPSIOptions "mobile" None (Some "true"%string))].
Proof.
  intros a.
  destruct (psi_run_trace (Scenario.all_ok 0) a Scenario.w0)
    as (audited & new & scores & Hc & _ & Hn & _ & _ & Hnorm).
  set (out := PSI.run (Scenario.all_ok 0) (a, Scenario.w0)) in *.
  assert (E : out.1 = Normal (PSI.auditResults out.2.1)) by (vm_compute; reflexivity).
  destruct (Hnorm _ E) as (Hr & -> & Htags).
  exists (PSI.auditResults out.2.1). split_and!; [exact E | | exact Hc].
  rewrite Hn. exact Htags.
Defined.

(** ** The debugging port *)

Lemma split_on_nonempty (sep : Ascii.ascii) (s : string) :
  ∃ h t, split_on sep s = h :: t.
Proof.
  induction s as [|c s (h & t & IH)]; cbn [split_on]; [by eauto|].
  destruct (Ascii.eqb c sep); [by eauto|]. rewrite IH. by eauto.
Qed.

Lemma split_on_no_sep (sep : Ascii.ascii) (s : string) :
  has_char sep s = false → split_on sep s = [s].
Proof.
  induction s as [|c s IH]; cbn [split_on has_char]; [done|].
  intros [Hc Hs]%orb_false_elim. rewrite Hc, (IH Hs). done.
Qed.

Lemma append_nil (t : string) : ("" ++ t)%string = t.
Proof. reflexivity. Qed.

Lemma append_cons (c : Ascii.ascii) (s t : string) :
  (String c s ++ t)%string = String c (s ++ t)%string.
Proof. reflexivity. Qed.

Lemma split_on_app (sep : Ascii.ascii) (s1 s2 : string) :
  has_char sep s1 = false →
  split_on sep (s1 ++ String sep s2)%string = s1 :: split_on sep s2.
Proof.
  induction s1 as [|c s1 IH]; cbn [has_char].
  - intros _. rewrite append_nil. cbn [split_on]. by rewrite Ascii.eqb_refl.
  - intros [Hc Hs]%orb_false_elim. rewrite append_cons. cbn [split_on].
    rewrite Hc, (IH Hs). done.
Qed.

Lemma split_on_head_app (sep : Ascii.ascii) (s1 s2 h : string) (t : list string) :
  has_char sep s1 = false →
  split_on sep s2 = h :: t →
  split_on sep (s1 ++ s2)%string = (s1 ++ h)%string :: t.
Proof.
  intros Hs1 Hs2. induction s1 as [|c s1 IH]; [by rewrite !append_nil|].
  cbn [has_char] in Hs1. apply orb_false_elim in Hs1 as [Hc Hs].
  rewrite !append_cons. cbn [split_on]. rewrite Hc, (IH Hs). done.
Qed.

(** X14.  For a browser endpoint of the form scheme:host:port/rest, where
    neither the scheme nor the host holds a colon and the port holds neither
    a colon nor a slash, the debugging port handed to the engine is the
    port, whatever follows the slash. *)
Theorem debugging_port_of_endpoint (scheme host port rest : string) :
  has_char ":" scheme = false →
  has_char ":" host = false →
  has_char ":" port = false →
  has_char "/" port = false →
  Lighthouse.debugging_port
    (mkPage (mkBrowser (scheme ++ ":" ++ host ++ ":" ++ port ++ "/" ++ rest)%string))
  = Normal port.
Proof.
  intros Hscheme Hhost Hport Hslash. unfold Lighthouse.debugging_port. cbn [browser wsEndpoint].
  change (scheme ++ ":" ++ host ++ ":" ++ port ++ "/" ++ rest)%string
    with (scheme ++ String ":" (host ++ String ":" (port ++ String "/" rest)))%string.
  rewrite (split_on_app ":" scheme _ Hscheme), (split_on_app ":" host _ Hhost).
  destruct (split_on_nonempty ":" rest) as (h & t & Hrest).
  assert (Htail : split_on ":" (String "/" rest) = String "/" h :: t).
  { cbn [split_on]. change (Ascii.eqb "/" ":") with false. by rewrite Hrest. }
  rewrite (split_on_head_app ":" port _ _ _ Hport Htail). cbn [lookup list_lookup].
  change (port ++ String "/" h)%string with (port ++ String "/" h)%string.
  by rewrite (split_on_app "/" port h Hslash).
Qed.

Lemma debugging_port_of_endpoint_witness :
  Lighthouse.debugging_port
    (mkPage (mkBrowser "ws://127.0.0.1:9222/devtools/browser/a:b"))
  = Normal "9222"%string.
Proof.
  apply (debugging_port_of_endpoint "ws" "//127.0.0.1" "9222" "devtools/browser/a:b");
    reflexivity.
Defined.

(** X15.  For a browser endpoint with fewer than two colons there is no third
    segment, and deriving the debugging port throws the TypeError of calling
    split on [undefined]; inside [run] the error is rethrown with the URL
    appended like any failure of the audit. *)
Theorem debugging_port_needs_two_colons (s1 s2 : string) :
  has_char ":" s1 = false →
  has_char ":" s2 = false →
  Lighthouse.debugging_port (mkPage (mkBrowser s1))
  = Throw (TypeError_read "split" JUndefined)
  ∧ Lighthouse.debugging_port (mkPage (mkBrowser (s1 ++ ":" ++ s2)%string))
    = Throw (TypeError_read "split" JUndefined).
Proof.
  intros H1 H2. unfold Lighthouse.debugging_port. cbn [browser wsEndpoint]. split.
  - by rewrite (split_on_no_sep ":" s1 H1).
  - change (s1 ++ ":" ++ s2)%string with (s1 ++ String ":" s2)%string.
    by rewrite (split_on_app ":" s1 s2 H1), (split_on_no_sep ":" s2 H2).
Qed.

Lemma debugging_port_needs_two_colons_witness :
  Lighthouse.debugging_port (mkPage (mkBrowser "ws://localhost/devtools"))
  = Throw (mkError "Cannot read property 'split' of undefined").
Proof.
  destruct (debugging_port_needs_two_colons "ws" "//localhost/devtools"
              eq_refl eq_refl) as [_ H].
  exact H.
Defined.

(** ** More on the [POST /audit] handler *)

Section HandlerTrace.
Context (ext : Externals).

Lemma run_calls (a : Lighthouse.LighthouseAudit) (w : World) :
  ∃ calls,
    engineCalls (Lighthouse.run ext (a, w)).2.2 = engineCalls w ++ calls
    ∧ Forall (λ c, ∃ url, url ∈ Lighthouse.urls a ∧ lighthouse_call_of a url c) calls.
Proof.
  rewrite run_eq.
  destruct (puppeteer_launch ext w) as [browser|e].
  - pose proof (run_loop_trace ext browser (Lighthouse.urls a) (a, elapse ext w))
      as (_ & calls & new & Hc & Hshape & _).
    destruct (for_each _ _ _) as [[[]|e] s]; cbn [fst snd] in *; by exists calls.
  - exists []. cbn. by rewrite app_nil_r.
Qed.

Lemma performLightouseAudit_world urls blocked mode (w : World) :
  (App.performLightouseAudit ext urls blocked mode w).2
  = (Lighthouse.run ext
       (Lighthouse.constructor urls blocked (App.audit_config_for mode)
          (auditResultsMapping ext), w)).2.2.
Proof.
  rewrite performLightouseAudit_eq. cbv zeta.
  destruct (Lighthouse.run ext _) as [[r|e] s]; [|reflexivity].
  by destruct (Lighthouse.getBQFormatResults_at ext s.1 (now s.2)).
Qed.

Lemma performAudit_engineCalls (payload : App.AuditBody) (w : World) :
  engineCalls (App.performAudit ext payload w).2
  = engineCalls (App.performLightouseAudit ext (App.urls payload)
                   (App.blockedRequests payload) (App.effective_mode payload) w).2.
Proof.
  rewrite performAudit_eq.
  destruct (App.performLightouseAudit ext _ _ _ w) as [[results|e] w1]; [|reflexivity].
  destruct (truthy (App.store_flag payload)); [|reflexivity].
  rewrite writeResultStream_eq.
  destruct (mapC BQ.prepare_row results) as [prepared|e]; [|reflexivity].
  pose proof (insert_and_log_spec ext (BQ_DATASET (process_env ext))
                (BQ_TABLE (process_env ext)) prepared w1) as (_ & Hcalls & _).
  by destruct (BQ.insert_and_log ext _ _ prepared w1) as [[[]|?] ?].
Qed.

Lemma handler_config_eq (payload : App.AuditBody) :
  App.audit_config_for (App.effective_mode payload) = handler_config payload.
Proof. unfold App.effective_mode, handler_config. by destruct (App.mode payload). Qed.

End HandlerTrace.

(** X16.  For a request whose mode is a string or absent, every engine call
    the handler makes is for a URL of the request, with the request's
    blocked patterns (none when absent), and with the lr-mobile
    configuration when the request names a mode, whichever it is, and the
    default performance configuration when it names none: no such request
    is audited with the desktop configuration. *)
Theorem handler_never_audits_desktop (ext : Externals) (payload : App.AuditBody)
    (w : World) :
  ∃ calls,
    engineCalls (App.performAudit ext payload w).2 = engineCalls w ++ calls
    ∧ Forall (λ c, ∃ url port,
                url ∈ App.urls payload
                ∧ c = LighthouseCall url
                        (mkLHOptions (default [] (App.blockedRequests payload)) port)
                        (handler_config payload)
                ∧ handler_config payload ≠ DesktopConfig) calls.
Proof.
  rewrite performAudit_engineCalls, performLightouseAudit_world.
  destruct (run_calls ext
              (Lighthouse.constructor (App.urls payload) (App.blockedRequests payload)
                 (App.audit_config_for (App.effective_mode payload))
                 (auditResultsMapping ext)) w) as (calls & Hc & Hshape).
  exists calls. split; [done|].
  eapply Forall_impl; [exact Hshape|]. intros c (url & Hurl & port & ->).
  exists url, port. cbn. rewrite handler_config_eq. split_and!; [done | done |].
  unfold handler_config. by destruct (App.mode payload).
Qed.

Lemma handler_never_audits_desktop_witness :
  let payload := App.mkAuditBody [Scenario.a_url] None (Some "desktop"%string)
                   JUndefined JUndefined in
  engineCalls (App.performAudit (Scenario.all_ok 0) payload Scenario.w0).2
  = [LighthouseCall Scenario.a_url (mkLHOptions [] "9222") LrMobileConfig].
Proof.
  intros payload.
  destruct (handler_never_audits_desktop (Scenario.all_ok 0) payload Scenario.w0)
    as (calls & Hc & _).
  rewrite Hc. vm_compute in Hc. by subst.
Defined.

Lemma Forall2_compose {A B C} (P : A → B → Prop) (Q : B → C → Prop)
    (l1 : list A) (l2 : list B) (l3 : list C) :
  Forall2 P l1 l2 → Forall2 Q l2 l3 →
  Forall2 (λ x z, ∃ y, P x y ∧ Q y z) l1 l3.
Proof.
  intros H. revert l3. induction H as [|x y l1 l2 Hxy _ IH]; intros l3 HQ.
  - inversion HQ. constructor.
  - inversion HQ as [|? z ? l3' Hyz Hrest]; subst. constructor; [by eauto | by apply IH].
Qed.

Lemma map_defined_Forall2 (format : nat → JsVal → completion JsVal)
    (audits : list JsVal) : ∀ it out,
  map_defined format it audits = Normal out →
  Forall (λ audit, defined audit = true) audits →
  Forall2 (λ audit v, ∃ it', format it' audit = Normal v) audits out.
Proof.
  induction audits as [|x rest IH]; intros it out Hfmt Hall.
  - cbn in Hfmt. injection Hfmt as <-. constructor.
  - apply Forall_cons in Hall as [Hx Hall].
    cbn [map_defined] in Hfmt. fold (defined x) in Hfmt. rewrite Hx in Hfmt.
    destruct (format it x) as [v|] eqn:Hv; [cbn [bindC] in Hfmt|done].
    destruct (map_defined format (S it) rest) as [out'|] eqn:Hrest; [|done].
    cbn in Hfmt. injection Hfmt as <-. constructor; [by eauto | by eapply IH].
Qed.

Lemma mapC_set_mode (m : JsVal) (formatted : list JsVal) : ∀ results,
  mapC (λ result, set_prop result "mode" m) formatted = Normal results →
  Forall2 (λ v r, ∃ record, v = JObj record ∧ r = JObj (<["mode" := m]> record))
    formatted results.
Proof.
  induction formatted as [|v rest IH]; intros results Hmap.
  - cbn in Hmap. injection Hmap as <-. constructor.
  - cbn [mapC] in Hmap.
    destruct (set_prop v "mode" m) as [r|] eqn:Hr; [cbn [bindC] in Hmap|done].
    destruct (mapC _ rest) as [rs|] eqn:Hrs; [|done].
    cbn in Hmap. injection Hmap as <-. constructor; [|by apply IH].
    destruct v; try discriminate Hr. cbn in Hr. injection Hr as <-. by eauto.
Qed.

Section HandlerRecords.
Context (ext : Externals).

Lemma lighthouse_format_audit_stamps (a : Lighthouse.LighthouseAudit) (today : Z)
    (it : nat) (url : string) (raw v : JsVal) :
  tagged_with url raw →
  Lighthouse.format_audit ext a today it raw = Normal v →
  ∃ record,
    v = JObj record
    ∧ record !! "url" = Some (JStr url)
    ∧ record !! "blockedRequests"
      = Some (JStr (String.concat "," (Lighthouse.blockedRequestPatterns a))).
Proof.
  intros (o & -> & Ho) Hfmt.
  destruct (reduce_fields_total (Lighthouse.auditFieldMapping a) (JObj o) ∅ eq_refl)
    as (res & Hres & _).
  unfold Lighthouse.format_audit in Hfmt. rewrite Hres in Hfmt.
  cbn [bindC get_prop] in Hfmt. rewrite Ho in Hfmt. cbn [default bindC] in Hfmt.
  injection Hfmt as <-. eexists. split; [reflexivity|].
  split; repeat (rewrite lookup_insert_ne by done); by rewrite lookup_insert_eq.
Qed.

Lemma performLightouseAudit_records urls blocked mode (w w' : World)
    (results : list JsVal) :
  App.performLightouseAudit ext urls blocked mode w = (Normal results, w') →
  Forall2 (λ url r, ∃ record,
             r = JObj record
             ∧ record !! "url" = Some (JStr url)
             ∧ record !! "mode" = Some (App.mode_val mode)
             ∧ record !! "blockedRequests"
               = Some (JStr (String.concat "," (default [] blocked))))
    urls results.
Proof.
  rewrite performLightouseAudit_eq. cbv zeta.
  set (a := Lighthouse.constructor urls blocked _ _).
  destruct (Lighthouse.run ext (a, w)) as [[r|e] s] eqn:Hrun; [|discriminate].
  destruct (run_returns_tagged ext a w r s Hrun) as (new & Hr & Hres & Htags).
  pose proof (run_spec ext a w) as (Hset & _).
  rewrite Hrun in Hset. cbn [fst snd] in Hset. destruct Hset as (_ & Hblocked & _).
  destruct (Lighthouse.getBQFormatResults_at ext s.1 (now s.2)) as [formatted|] eqn:Hfmt;
    [|discriminate].
  intros [= Hmap <-]. cbn in Hr. subst r.
  unfold Lighthouse.getBQFormatResults_at in Hfmt. rewrite Hres in Hfmt.
  assert (Hdef : Forall (λ audit, defined audit = true) new).
  { eapply Forall2_Forall_r; [exact Htags|]. apply Forall_true.
    by intros url raw (o & -> & _). }
  pose proof (map_defined_Forall2 _ _ _ _ Hfmt Hdef) as Hf.
  pose proof (mapC_set_mode _ _ _ Hmap) as Hm.
  pose proof (Forall2_compose _ _ _ _ _ (Forall2_compose _ _ _ _ _ Htags Hf) Hm) as Hall.
  eapply Forall2_impl; [exact Hall|].
  intros url r (v & (raw & Htag & it & Hv) & record & -> & ->).
  destruct (lighthouse_format_audit_stamps s.1 (now s.2) it url raw _ Htag Hv)
    as (record' & [= <-] & Hurl & Hbr).
  eexists. split; [reflexivity|]. rewrite lookup_insert_eq.
  rewrite !lookup_insert_ne by done. rewrite Hblocked in Hbr. done.
Qed.

End HandlerRecords.

(** X17.  The handler always answers, it never rejects: either with status
    200 and one record per URL, record [i] carrying the URL at index [i],
    the mode the handler settled on and the request's blocked patterns
    joined by commas, or with status 500 and an error of code 500. *)
Theorem handler_always_answers (ext : Externals) (payload : App.AuditBody) (w : World) :
  ∃ response,
    (App.performAudit ext payload w).1 = Normal response
    ∧ ((App.status response = 200%Z
        ∧ ∃ results,
            App.json response = App.JsonRecords results
            ∧ Forall2 (record_for payload) (App.urls payload) results)
       ∨ (App.status response = 500%Z
          ∧ ∃ error_message, App.json response = App.JsonError 500 error_message)).
Proof.
  rewrite performAudit_eq.
  pose proof (performLightouseAudit_records ext (App.urls payload)
                (App.blockedRequests payload) (App.effective_mode payload) w) as Hrec.
  destruct (App.performLightouseAudit ext _ _ _ w) as [[results|e] w1].
  2:{ eexists. split; [reflexivity|]. right. cbn. by eauto. }
  specialize (Hrec w1 results eq_refl).
  assert (Hgood : Forall2 (record_for payload) (App.urls payload) results).
  { eapply Forall2_impl; [exact Hrec|]. intros url r (record & ? & ? & ? & ?).
    by exists record. }
  destruct (truthy (App.store_flag payload)).
  - destruct (BQ.writeResultStream ext _ _ results w1) as [[[]|e] w2].
    + eexists. split; [reflexivity|]. left. cbn. by eauto.
    + eexists. split; [reflexivity|]. right. cbn. by eauto.
  - eexists. split; [reflexivity|]. left. cbn. by eauto.
Qed.

Lemma handler_always_answers_witness :
  let payload := App.mkAuditBody [Scenario.a_url; Scenario.b_url]
                   (Some ["ads"; "fonts"]%string) None JUndefined JUndefined in
  ∃ results,
    (App.performAudit (Scenario.all_ok 0) payload Scenario.w0).1
    = Normal (App.mkResponse 200 (App.JsonRecords results))
    ∧ Forall2 (record_for payload) [Scenario.a_url; Scenario.b_url] results.
Proof.
  intros payload.
  destruct (handler_always_answers (Scenario.all_ok 0) payload Scenario.w0)
    as (response & Hresp & Hcases).
  set (out := App.performAudit (Scenario.all_ok 0) payload Scenario.w0) in *.
  set (rs := match out.1 with
             | Normal (App.mkResponse _ (App.JsonRecords l)) => l
             | _ => []
             end).
  assert (E : out.1 = Normal (App.mkResponse 200 (App.JsonRecords rs)))
    by (vm_compute; reflexivity).
  exists rs. split; [exact E|].
  rewrite E in Hresp. injection Hresp as <-. cbn in Hcases.
  destruct Hcases as [(_ & results & Hjson & Hrec)|(Hst & _)]; [|discriminate Hst].
  injection Hjson as <-. exact Hrec.
Defined.

(** X18.  The storage write follows the audits: an answer with status 500
    has written nothing, even with storing enabled; an answer with status 200
    has handed the storage client exactly one batch, the prepared rows of
    the returned records, one per URL, when the store flag is truthy, and
    nothing otherwise. *)
Theorem storage_follows_the_audits (ext : Externals) (payload : App.AuditBody)
    (w : World) :
  (∀ error_message,
     (App.performAudit ext payload w).1
     = Normal (App.mkResponse 500 (App.JsonError 500 error_message)) →
     inserted (App.performAudit ext payload w).2 = inserted w)
  ∧ (∀ results,
       (App.performAudit ext payload w).1
       = Normal (App.mkResponse 200 (App.JsonRecords results)) →
       if truthy (App.store_flag payload)
       then ∃ prepared,
              mapC BQ.prepare_row results = Normal prepared
              ∧ length prepared = length (App.urls payload)
              ∧ inserted (App.performAudit ext payload w).2 = inserted w ++ [prepared]
       else inserted (App.performAudit ext payload w).2 = inserted w).
Proof.
  rewrite performAudit_eq.
  pose proof (performLightouseAudit_spec ext (App.urls payload)
                (App.blockedRequests payload) (App.effective_mode payload) w)
    as (Hins & _).
  pose proof (performLightouseAudit_records ext (App.urls payload)
                (App.blockedRequests payload) (App.effective_mode payload) w) as Hrec.
  destruct (App.performLightouseAudit ext _ _ _ w) as [[rs|e] w1]; cbn [fst snd] in *.
  2:{ split; [done | discriminate]. }
  specialize (Hrec w1 rs eq_refl).
  assert (Hrows : Forall (λ r, loose_neq_null r = true) rs).
  { eapply Forall2_Forall_r; [exact Hrec|]. apply Forall_true.
    by intros url r (record & -> & _). }
  destruct (mapC_prepare_total rs Hrows) as (prepared & Hp & Hlen).
  destruct (truthy (App.store_flag payload)).
  - rewrite writeResultStream_eq, Hp.
    pose proof (insert_and_log_spec ext (BQ_DATASET (process_env ext))
                  (BQ_TABLE (process_env ext)) prepared w1) as (Hn & _ & Hi).
    destruct (BQ.insert_and_log ext _ _ prepared w1) as [[[]|?] w2];
      cbn [fst snd] in *; [|discriminate].
    split; [discriminate|]. intros results [= <-]. exists prepared.
    split_and!; [done | | congruence].
    rewrite Hlen. symmetry. by eapply Forall2_length.
  - split; [discriminate|]. by intros results [= <-].
Qed.

Lemma storage_follows_the_audits_witness :
  let stored := App.mkAuditBody [Scenario.a_url; Scenario.b_url] None None
                  JUndefined (JBool true) in
  let failing := App.mkAuditBody [Scenario.a_url; Scenario.b_url; Scenario.c_url]
                   None None JUndefined (JBool true) in
  (∃ prepared,
     length prepared = 2%nat
     ∧ inserted (App.performAudit (Scenario.all_ok 0) stored Scenario.w0).2 = [prepared])
  ∧ inserted (App.performAudit (Scenario.with_engine Scenario.fails_on_b)
                failing Scenario.w0).2 = [].
Proof.
  intros stored failing. split.
  - destruct (storage_follows_the_audits (Scenario.all_ok 0) stored Scenario.w0)
      as [_ H].
    set (out := App.performAudit (Scenario.all_ok 0) stored Scenario.w0) in *.
    set (rs := match out.1 with
               | Normal (App.mkResponse _ (App.JsonRecords l)) => l
               | _ => []
               end).
    assert (E : out.1 = Normal (App.mkResponse 200 (App.JsonRecords rs)))
      by (vm_compute; reflexivity).
    specialize (H rs E). cbn in H. destruct H as (prepared & _ & Hlen & Hins).
    exists prepared. split; [exact Hlen | exact Hins].
  - destruct (storage_follows_the_audits (Scenario.with_engine Scenario.fails_on_b)
                failing Scenario.w0) as [H _].
    apply (H "LH Audit error: net::ERR_FAILED on https://b.example"%string).
    vm_compute. reflexivity.
Defined.

(** X19.  Taken on its own, the loop of [case 'all'] runs the desktop pass, then the mobile
    pass on what the desktop pass left, and returns the desktop records
    followed by the mobile ones, each record tagged with the mode of its
    pass: 2*N records for N URLs.  When a pass fails the loop throws its
    error, and a failed desktop pass is not followed by a mobile pass. *)
Theorem audit_modes_runs_both_passes (ext : Externals) (payload : App.AuditBody)
    (w : World) :
  let audit m :=
    App.performLightouseAudit ext (App.urls payload) (App.blockedRequests payload)
      (Some m) in
  let both := App.audit_modes ext payload ["desktop"; "mobile"]%string [] w in
  (∀ e, (audit "desktop"%string w).1 = Throw e →
     both = (Throw e, (audit "desktop"%string w).2))
  ∧ (∀ desktop,
       (audit "desktop"%string w).1 = Normal desktop →
       (∀ e, (audit "mobile"%string (audit "desktop"%string w).2).1 = Throw e →
          both = (Throw e, (audit "mobile"%string (audit "desktop"%string w).2).2))
       ∧ (∀ mobile,
            (audit "mobile"%string (audit "desktop"%string w).2).1 = Normal mobile →
            both = (Normal (desktop ++ mobile),
                    (audit "mobile"%string (audit "desktop"%string w).2).2)
            ∧ length (desktop ++ mobile) = (2 * length (App.urls payload))%nat
            ∧ Forall (λ r, get_prop r "mode" = Normal (JStr "desktop")) desktop
            ∧ Forall (λ r, get_prop r "mode" = Normal (JStr "mobile")) mobile)).
Proof.
  intros audit both. subst audit both. cbn [App.audit_modes]. unfold bind, ret.
  pose proof (performLightouseAudit_spec ext (App.urls payload)
                (App.blockedRequests payload) (Some "desktop"%string) w)
    as (_ & callsd & _ & _ & Hd).
  destruct (App.performLightouseAudit ext _ _ (Some "desktop"%string) w)
    as [[rd|e] w1]; cbn [fst snd] in *.
  2:{ split; [by intros ? [= <-] | discriminate]. }
  destruct (Hd rd eq_refl) as (Hld & Htd & _). clear Hd.
  split; [discriminate|]. intros desktop [= <-].
  pose proof (performLightouseAudit_spec ext (App.urls payload)
                (App.blockedRequests payload) (Some "mobile"%string) w1)
    as (_ & callsm & _ & _ & Hm).
  destruct (App.performLightouseAudit ext _ _ (Some "mobile"%string) w1)
    as [[rm|e] w2]; cbn [fst snd] in *.
  2:{ split; [by intros ? [= <-] | discriminate]. }
  destruct (Hm rm eq_refl) as (Hlm & Htm & _). clear Hm.
  split; [discriminate|]. intros mobile [= <-].
  split_and!; [done | | done | done]. rewrite length_app. lia.
Qed.

Lemma audit_modes_runs_both_passes_witness :
  let payload := App.mkAuditBody [Scenario.a_url; Scenario.b_url] None
                   (Some "all"%string) JUndefined JUndefined in
  ∃ results,
    (App.audit_modes (Scenario.all_ok 0) payload ["desktop"; "mobile"]%string []
       Scenario.w0).1 = Normal results
    ∧ length results = 4%nat
    ∧ map (λ r, get_prop r "mode") results
      = [Normal (JStr "desktop"); Normal (JStr "desktop");
         Normal (JStr "mobile"); Normal (JStr "mobile")].
Proof.
  intros payload.
  destruct (audit_modes_runs_both_passes (Scenario.all_ok 0) payload Scenario.w0)
    as [_ H].
  set (first := App.performLightouseAudit (Scenario.all_ok 0) (App.urls payload)
                  (App.blockedRequests payload) (Some "desktop"%string) Scenario.w0) in *.
  set (second := App.performLightouseAudit (Scenario.all_ok 0) (App.urls payload)
                   (App.blockedRequests payload) (Some "mobile"%string) first.2) in *.
  set (rd := match first.1 with Normal l => l | Throw _ => [] end).
  set (rm := match second.1 with Normal l => l | Throw _ => [] end).
  destruct (H rd) as [_ H2]; [vm_compute; reflexivity|].
  destruct (H2 rm) as (Hboth & Hlen & _); [vm_compute; reflexivity|].
  exists (rd ++ rm). rewrite Hboth. split_and!; [reflexivity | exact Hlen | by vm_compute].
Defined.

(** ** The scheduler's requests and answer *)

Section ScheduleTrace.
Context (ext : Externals) (parent : string) (blocked : list string).

Lemma schedule_loop_trace chunks : ∀ inSeconds acc w,
  ∃ new,
    queued (App.schedule_loop ext parent blocked chunks inSeconds acc w).2
      = queued w ++ new
    ∧ engineCalls (App.schedule_loop ext parent blocked chunks inSeconds acc w).2
      = engineCalls w
    ∧ inserted (App.schedule_loop ext parent blocked chunks inSeconds acc w).2
      = inserted w
    ∧ Forall2 (λ chunk call, creation_request ext parent blocked chunk call.2)
        (take (length new) chunks) new.
Proof.
  induction chunks as [|chunk rest IH]; intros inSeconds acc w.
  - exists []. cbn. split_and!; [by rewrite app_nil_r | done | done | constructor].
  - rewrite schedule_loop_cons. cbv zeta.
    set (request := mkCreateTaskRequest _ _).
    set (w1 := elapse ext (log_task request w)).
    assert (Hreq : creation_request ext parent blocked chunk request) by reflexivity.
    assert (Hone : ∃ new,
        queued w1 = queued w ++ new
        ∧ engineCalls w1 = engineCalls w
        ∧ inserted w1 = inserted w
        ∧ Forall2 (λ chunk call, creation_request ext parent blocked chunk call.2)
            (take (length new) (chunk :: rest)) new).
    { exists [(now w, request)].
      split_and!; [done | done | done | by repeat constructor]. }
    destruct (tasks_createTask ext w request) as [response|e]; [|exact Hone].
    destruct (get_prop response "name") as [name|e]; [|exact Hone].
    destruct (IH (inSeconds + 10)%Z (acc ++ [App.mkCreatedTask name chunk]) w1)
      as (new & Hq & He & Hi & Hreqs).
    exists ((now w, request) :: new). split_and!.
    + rewrite Hq. cbn. by rewrite <- app_assoc.
    + by rewrite He.
    + by rewrite Hi.
    + cbn. by constructor.
Qed.

(** The answer of the loop, with the world of each creation call: the one the
    loop over the chunks before it has left. *)
Lemma schedule_loop_answers chunks : ∀ inSeconds acc w,
  ∃ new,
    queued (App.schedule_loop ext parent blocked chunks inSeconds acc w).2
      = queued w ++ new
    ∧ match (App.schedule_loop ext parent blocked chunks inSeconds acc w).1 with
      | Normal tasks =>
          ∃ made, tasks = acc ++ made
            ∧ map App.task_urls made = chunks
            ∧ length new = length chunks
            ∧ ∀ k created call,
                made !! k = Some created → new !! k = Some call →
                answers_name ext
                  (App.schedule_loop ext parent blocked (take k chunks)
                     inSeconds acc w).2
                  call.2 (App.name created)
      | Throw e =>
          ∃ done last, new = done ++ [last]
            ∧ (length done < length chunks)%nat
            ∧ call_fails ext
                (App.schedule_loop ext parent blocked (take (length done) chunks)
                   inSeconds acc w).2
                last.2 e
      end.
Proof.
  induction chunks as [|chunk rest IH]; intros inSeconds acc w.
  - exists []. cbn. split; [by rewrite app_nil_r|].
    exists []. rewrite app_nil_r. by split_and!.
  - rewrite schedule_loop_cons. cbv zeta.
    set (request := mkCreateTaskRequest _ _).
    set (w1 := elapse ext (log_task request w)).
    assert (Hone : ∀ e : Error, call_fails ext w request e →
      ∃ new,
        queued w1 = queued w ++ new
        ∧ ∃ done last, new = done ++ [last]
            ∧ (length done < length (chunk :: rest))%nat
            ∧ call_fails ext
                (App.schedule_loop ext parent blocked
                   (take (length done) (chunk :: rest)) inSeconds acc w).2
                last.2 e).
    { intros e He. exists [(now w, request)]. split; [done|].
      exists [], (now w, request). split_and!; [done | cbn; lia | exact He]. }
    destruct (tasks_createTask ext w request) as [response|e] eqn:Hcall.
    2:{ apply Hone. by left. }
    destruct (get_prop response "name") as [name|e] eqn:Hname.
    2:{ apply Hone. right. by exists response. }
    assert (Hstep : ∀ k,
      (App.schedule_loop ext parent blocked (take (S k) (chunk :: rest))
         inSeconds acc w).2
      = (App.schedule_loop ext parent blocked (take k rest) (inSeconds + 10)
           (acc ++ [App.mkCreatedTask name chunk]) w1).2).
    { intros k. cbn [take]. rewrite schedule_loop_cons. cbv zeta.
      fold request. by rewrite Hcall, Hname. }
    destruct (IH (inSeconds + 10)%Z (acc ++ [App.mkCreatedTask name chunk]) w1)
      as (new & Hq & Hout).
    exists ((now w, request) :: new). split.
    { rewrite Hq. cbn. by rewrite <- app_assoc. }
    destruct (App.schedule_loop ext parent blocked rest _ _ w1).1 as [tasks|e].
    + destruct Hout as (made & -> & Hurls & Hlen & Hnames).
      exists (App.mkCreatedTask name chunk :: made). split_and!.
      * by rewrite <- app_assoc.
      * cbn. by rewrite Hurls.
      * cbn. by rewrite Hlen.
      * intros [|k] created call Hm Hn; cbn in Hm, Hn.
        -- injection Hm as <-. injection Hn as <-. by exists response.
        -- rewrite Hstep. by apply Hnames.
    + destruct Hout as (done & last & -> & Hlen & Hfail).
      exists ((now w, request) :: done), last. split_and!; [done | cbn; lia |].
      cbn [length]. by rewrite Hstep.
Qed.

End ScheduleTrace.

(** X20.  Every creation call of [scheduleAudits] asks for a POST to
    [SERVICE_URL/audit] with a JSON content type, in the queue of the
    environment, whose body is the base64 of the payload of one chunk and
    the blocked requests of the body (none when the body has none); the calls
    follow the chunks in order, and the scheduler runs no audit and writes
    nothing to storage. *)
Theorem scheduleAudits_requests (ext : Externals) (body : App.AsyncBody) (w : World) :
  ∃ new : list (Z * CreateTaskRequest),
    queued (App.scheduleAudits ext body w).2 = queued w ++ new
    ∧ Forall2
        (λ chunk call,
           creation_request ext (queue_parent ext)
             (default [] (App.async_blockedRequests body)) chunk call.2)
        (take (length new) (Api.getChunkedList (App.async_urls body) App.chunkSize))
        new
    ∧ engineCalls (App.scheduleAudits ext body w).2 = engineCalls w
    ∧ inserted (App.scheduleAudits ext body w).2 = inserted w.
Proof.
  unfold App.scheduleAudits, bind, ret. fold (queue_parent ext).
  destruct (schedule_loop_trace ext (queue_parent ext)
              (default [] (App.async_blockedRequests body))
              (Api.getChunkedList (App.async_urls body) App.chunkSize) 10 [] w)
    as (new & Hq & He & Hi & Hreqs).
  exists new.
  destruct (App.schedule_loop ext _ _ _ 10 [] w) as [[tasks|e] w1];
    cbn [fst snd] in *; by split_and!.
Qed.

(** X21.  [scheduleAudits] has no [catch].  When it returns, the answer has
    status 200 and lists one task per chunk, in order, each with the URLs of
    its chunk and the name read from the answer that its own creation call
    got in the world in which the scheduler made it.  When it throws, the
    error is the one of the last creation call made, in the world in which
    it was made (the call threw, or its answer had no readable name), thrown
    as it is, and the chunks after that one were never submitted. *)
Theorem scheduleAudits_answer (ext : Externals) (body : App.AsyncBody) (w : World) :
  ∃ new : list (Z * CreateTaskRequest),
    queued (App.scheduleAudits ext body w).2 = queued w ++ new
    ∧ match (App.scheduleAudits ext body w).1 with
      | Normal response =>
          App.status response = 200%Z
          ∧ ∃ tasks,
              App.json response = App.JsonTasks tasks
              ∧ map App.task_urls tasks
                = Api.getChunkedList (App.async_urls body) App.chunkSize
              ∧ length new = length tasks
              ∧ ∀ k created call,
                  tasks !! k = Some created → new !! k = Some call →
                  answers_name ext (world_of_call ext body w k) call.2
                    (App.name created)
      | Throw e =>
          ∃ done last,
            new = done ++ [last]
            ∧ (length done
               < length (Api.getChunkedList (App.async_urls body) App.chunkSize))%nat
            ∧ call_fails ext (world_of_call ext body w (length done)) last.2 e
      end.
Proof.
  unfold world_of_call, App.scheduleAudits, bind, ret. fold (queue_parent ext).
  destruct (schedule_loop_answers ext (queue_parent ext)
              (default [] (App.async_blockedRequests body))
              (Api.getChunkedList (App.async_urls body) App.chunkSize) 10 [] w)
    as (new & Hq & Hout).
  exists new.
  destruct (App.schedule_loop ext _ _ _ 10 [] w) as [[tasks|e] w1];
    cbn [fst snd] in *; (split; [done|]).
  - destruct Hout as (made & -> & Hurls & Hlen & Hnames). split; [done|].
    exists made. split_and!; [done | done | | done].
    rewrite Hlen, <- Hurls. by rewrite length_map.
  - exact Hout.
Qed.

Lemma scheduleAudits_answer_witness :
  let e := Scenario.all_ok 0 in
  let full_queue :=
    mkExternals (puppeteer_launch e) (browser_newPage e) (lighthouse e) (psi e)
      (bigquery_insert e)
      (λ w _, if decide (length (queued w) = 0%nat)
              then Normal (JObj {[ "name" := JStr "t0" ]})
              else Throw (mkError "queue is full"))
      (latency e) (toISOString e) (BigQuery_date e)
      (BigQuery_datetime e) (BigQuery_time e) (JSON_stringify_error e)
      (JSON_stringify_payload e) (base64 e) (queuePath e) (auditResultsMapping e)
      (process_env e) in
  let body := App.mkAsyncBody [Scenario.a_url; Scenario.b_url; Scenario.c_url] None in
  ∃ done last,
    queued (App.scheduleAudits full_queue body Scenario.w0).2 = done ++ [last]
    ∧ length done = 1%nat
    ∧ call_fails full_queue (world_of_call full_queue body Scenario.w0 1) last.2
        (mkError "queue is full")
    ∧ ¬ call_fails full_queue Scenario.w0 last.2 (mkError "queue is full").
Proof.
  intros e full_queue body.
  destruct (scheduleAudits_answer full_queue body Scenario.w0) as (new & Hq & Hout).
  set (out := App.scheduleAudits full_queue body Scenario.w0) in *.
  assert (E : out.1 = Throw (mkError "queue is full")) by (vm_compute; reflexivity).
  rewrite E in Hout. destruct Hout as (done & last & -> & _ & Hfail).
  assert (L : length done = 1%nat).
  { assert (L : length (queued out.2) = 2%nat) by (vm_compute; reflexivity).
    rewrite Hq in L. cbn in L. rewrite length_app in L. cbn in L. lia. }
  exists done, last. split; [exact Hq|]. split; [exact L|]. split.
  - rewrite L in Hfail. exact Hfail.
  - destruct done as [|first [|]]; try discriminate L.
    vm_compute in Hq. injection Hq as _ <-.
    intros [H|(response & Hanswer & H)]; [discriminate H|].
    vm_compute in Hanswer. injection Hanswer as <-. discriminate H.
Defined.

(** ** The Result Formatter on accumulated results *)




